(** * The [find] command of just-bash: expression engine and traversal

    A shallow embedding of the source file that defines [findCommand]
    (glob matcher, argument tokenizer and expression builder, predicate
    evaluator, recursive traversal and action executor), with the theorems
    that relate it to the written specification.

    Conventions of the embedding.
    - A JavaScript string is a [string]: a sequence of code units, each
      below 256.  [length] counts code units.
    - A JavaScript integer-valued number is a [Z]; arithmetic is exact.
      [NaN] is kept where the program can produce it ([parseInt]).
    - [Date.now()] is the parameter [now]: the clock is read as one value
      over an invocation.
    - An exception is a value of [exn]; code that may raise returns a
      [completion].
    - The scanning loop of the tokenizer runs on fuel, and is shown to
      have enough of it ([parseExpressions_total]).  The traversal recurses
      over a file system that is a parameter, and takes fuel; more fuel
      does not change a traversal that had enough ([findRecursive_mono]). *)

From Stdlib Require Import ZArith NArith Lia Bool Ascii String List.
From Stdlib Require Import Sorting.Sorted Sorting.Permutation.
From stdpp Require Import base option list strings gmap.

Local Open Scope Z_scope.

(** ** Results of code that may raise *)

Inductive exn : Type :=
| SyntaxError.

Inductive completion (A : Type) : Type :=
| Normal (a : A)
| Throw (e : exn).
Arguments Normal {A} a.
Arguments Throw {A} e.

Definition completion_map {A B} (f : A -> B) (c : completion A) : completion B :=
  match c with
  | Normal a => Normal (f a)
  | Throw e => Throw e
  end.

(** ** The host language: strings, numbers, [parseInt], [RegExp], [sort] *)

Module JS.

(** A number that may be [NaN]. *)
Inductive num : Type :=
| NaN
| Num (z : Z).

(** [a > b], [a >= b] on numbers: false as soon as one side is [NaN]. *)
Definition gt (a b : num) : bool :=
  match a, b with
  | Num x, Num y => y <? x
  | _, _ => false
  end.

Definition ge (a b : num) : bool :=
  match a, b with
  | Num x, Num y => y <=? x
  | _, _ => false
  end.

Definition code (c : ascii) : N := N_of_ascii c.

Fixpoint is_one_of (c : ascii) (s : string) : bool :=
  match s with
  | EmptyString => false
  | String d r => Ascii.eqb c d || is_one_of c r
  end.

(** [s.startsWith(pre)] *)
Definition startsWith (s pre : string) : bool := String.prefix pre s.

(** [s.slice(n)] for [0 <= n] *)
Fixpoint slice (n : nat) (s : string) : string :=
  match n, s with
  | O, _ => s
  | S k, String _ r => slice k r
  | S _, EmptyString => EmptyString
  end.

(** [s.split(sep)] for a one-character separator: never empty. *)
Fixpoint split (sep : ascii) (s : string) : list string :=
  match s with
  | EmptyString => [EmptyString]
  | String c r =>
      if Ascii.eqb c sep then EmptyString :: split sep r
      else match split sep r with
           | h :: t => String c h :: t
           | [] => [String c EmptyString]
           end
  end.

(** [a.pop()] read as "the last element", [undefined] on the empty array. *)
Definition pop (l : list string) : option string := last l.

(** [l.join(sep)] *)
Definition join (sep : string) (l : list string) : string := String.concat sep l.

(** *** [parseInt(s, 10)]

    The result is the integer that the text denotes; the source has the
    double nearest to it, which is the same below 2^53. *)

Definition isWhiteSpace (c : ascii) : bool :=
  let n := code c in
  ((9 <=? n) && (n <=? 13) || (n =? 32) || (n =? 160))%N.

Definition digit (c : ascii) : option Z :=
  let n := code c in
  if ((48 <=? n) && (n <=? 57))%N then Some (Z.of_N n - 48) else None.

Fixpoint trimStart (s : string) : string :=
  match s with
  | String c r => if isWhiteSpace c then trimStart r else s
  | EmptyString => EmptyString
  end.

(** The value of the longest prefix of decimal digits, [None] when the
    prefix is empty. *)
Fixpoint digits (acc : option Z) (s : string) : option Z :=
  match s with
  | String c r =>
      match digit c with
      | Some d => digits (Some (10 * default 0 acc + d)) r
      | None => acc
      end
  | EmptyString => acc
  end.

Definition parseInt (s : string) : num :=
  let t := trimStart s in
  let '(sign, body) :=
    match t with
    | String c r =>
        if Ascii.eqb c "-" then (-1, r)
        else if Ascii.eqb c "+" then (1, r)
        else (1, t)
    | EmptyString => (1, t)
    end in
  match digits None body with
  | Some v => Num (sign * v)
  | None => NaN
  end.

(** *** [new RegExp(source, flags).test(input)]

    The regular expressions of the program are built by [matchGlob] from
    an arbitrary pattern, so the model reads the source text the way the
    engine does (ECMAScript, Annex B syntax, no [u] flag): a lexer that
    finds where each character class ends, a parser of class contents,
    and a backtracking matcher.  The constructs modelled are the
    assertions [^] and [$], [.], a literal character, an escaped syntax
    character, a character class, and [*] after any of these.  Groups,
    alternation, the other quantifiers and the other escapes outside a
    class are reported as [Unmodelled]; [matchGlob] never produces them
    ([globToRegex_modelled]). *)

Module RegExp.

Inductive token : Type :=
| TCaret
| TDollar
| TDot
| TStar
| TEscape (c : ascii)
| TClass (body : string)
| TChar (c : ascii).

(** Where the lexer stands: in the pattern, after a backslash in the
    pattern, inside a class, after a backslash inside a class.  The
    class body is kept reversed. *)
Inductive mode : Type :=
| Top
| TopEsc
| InClass (body : string)
| InClassEsc (body : string).

Definition lexStep (st : mode * list token) (c : ascii) : mode * list token :=
  let '(m, out) := st in
  match m with
  | Top =>
      if Ascii.eqb c "\" then (TopEsc, out)
      else if Ascii.eqb c "[" then (InClass EmptyString, out)
      else if Ascii.eqb c "^" then (Top, TCaret :: out)
      else if Ascii.eqb c "$" then (Top, TDollar :: out)
      else if Ascii.eqb c "." then (Top, TDot :: out)
      else if Ascii.eqb c "*" then (Top, TStar :: out)
      else (Top, TChar c :: out)
  | TopEsc => (Top, TEscape c :: out)
  | InClass body =>
      if Ascii.eqb c "]" then (Top, TClass (String.rev body) :: out)
      else if Ascii.eqb c "\" then (InClassEsc (String c body), out)
      else (InClass (String c body), out)
  | InClassEsc body => (InClass (String c body), out)
  end.

Fixpoint lexFrom (st : mode * list token) (s : string) : mode * list token :=
  match s with
  | EmptyString => st
  | String c r => lexFrom (lexStep st c) r
  end.

(** [None]: the source ends inside a class or after a backslash. *)
Definition lex (s : string) : option (list token) :=
  match lexFrom (Top, []) s with
  | (Top, out) => Some (rev out)
  | _ => None
  end.

(** Contents of a class. *)
Inductive escape_set : Type := Digits | Spaces | WordChars.

Inductive class_atom : Type :=
| AChar (c : N)
| ASet (k : escape_set) (complement : bool).

Inductive class_item : Type :=
| IAtom (a : class_atom)
| IRange (lo hi : N).

Definition octal (c : ascii) : option N :=
  let n := code c in
  if ((48 <=? n) && (n <=? 55))%N then Some (n - 48)%N else None.

Definition hex (c : ascii) : option N :=
  let n := code c in
  if ((48 <=? n) && (n <=? 57))%N then Some (n - 48)%N
  else if ((65 <=? n) && (n <=? 70))%N then Some (n - 55)%N
  else if ((97 <=? n) && (n <=? 102))%N then Some (n - 87)%N
  else None.

Definition isLetter (c : ascii) : bool :=
  let n := code c in
  ((65 <=? n) && (n <=? 90) || (97 <=? n) && (n <=? 122))%N.

Definition isControlLetter (c : ascii) : bool :=
  isLetter c || match digit c with Some _ => true | None => false end
  || Ascii.eqb c "_".

(** A legacy octal escape: the digits after the backslash, read
    greedily, at most three and below 256. *)
Definition octalEscape (s : string) : option (N * nat) :=
  match s with
  | String d1 r1 =>
      match octal d1 with
      | None => None
      | Some v1 =>
          match r1 with
          | String d2 r2 =>
              match octal d2 with
              | None => Some (v1, 1%nat)
              | Some v2 =>
                  if (v1 <=? 3)%N then
                    match r2 with
                    | String d3 _ =>
                        match octal d3 with
                        | Some v3 => Some (64 * v1 + 8 * v2 + v3, 3%nat)%N
                        | None => Some (8 * v1 + v2, 2%nat)%N
                        end
                    | EmptyString => Some (8 * v1 + v2, 2%nat)%N
                    end
                  else Some (8 * v1 + v2, 2%nat)%N
              end
          | EmptyString => Some (v1, 1%nat)
          end
      end
  | EmptyString => None
  end.

(** The value of the first [n] characters read as hexadecimal digits. *)
Fixpoint hexDigits (n : nat) (acc : N) (s : string) : option N :=
  match n with
  | O => Some acc
  | S k =>
      match s with
      | String c r =>
          match hex c with
          | Some v => hexDigits k (16 * acc + v)%N r
          | None => None
          end
      | EmptyString => None
      end
  end.

(** The class atom at the head of a non-empty text, and how many
    characters it takes. *)
Definition classAtomAt (s : string) : class_atom * nat :=
  match s with
  | EmptyString => (AChar 0, 1%nat)
  | String c r =>
      if negb (Ascii.eqb c "\") then (AChar (code c), 1%nat)
      else
        match r with
        | EmptyString => (AChar (code c), 1%nat)
        | String e r' =>
            if Ascii.eqb e "d" then (ASet Digits false, 2%nat)
            else if Ascii.eqb e "D" then (ASet Digits true, 2%nat)
            else if Ascii.eqb e "s" then (ASet Spaces false, 2%nat)
            else if Ascii.eqb e "S" then (ASet Spaces true, 2%nat)
            else if Ascii.eqb e "w" then (ASet WordChars false, 2%nat)
            else if Ascii.eqb e "W" then (ASet WordChars true, 2%nat)
            else if Ascii.eqb e "b" then (AChar 8, 2%nat)
            else if Ascii.eqb e "t" then (AChar 9, 2%nat)
            else if Ascii.eqb e "n" then (AChar 10, 2%nat)
            else if Ascii.eqb e "v" then (AChar 11, 2%nat)
            else if Ascii.eqb e "f" then (AChar 12, 2%nat)
            else if Ascii.eqb e "r" then (AChar 13, 2%nat)
            else if Ascii.eqb e "c" then
              match r' with
              | String x _ =>
                  if isControlLetter x then (AChar (code x mod 32), 3%nat)
                  else (AChar (code c), 1%nat)
              | EmptyString => (AChar (code c), 1%nat)
              end
            else if Ascii.eqb e "x" then
              match hexDigits 2 0 r' with
              | Some v => (AChar v, 4%nat)
              | None => (AChar (code e), 2%nat)
              end
            else if Ascii.eqb e "u" then
              match hexDigits 4 0 r' with
              | Some v => (AChar v, 6%nat)
              | None => (AChar (code e), 2%nat)
              end
            else
              match octalEscape r with
              | Some (v, n) => (AChar v, S n)
              | None => (AChar (code e), 2%nat)
              end
        end
  end.

(** The class parser has read nothing pending, an atom, or an atom and
    a dash. *)
Inductive pending : Type :=
| Fresh
| Have (a : class_atom)
| HaveDash (a : class_atom).

Definition dash : class_atom := AChar 45.

(** [a-b]: a range between two characters, in order; with a set on
    either side, the two atoms and a dash. *)
Definition mkRange (a b : class_atom) : option (list class_item) :=
  match a, b with
  | AChar lo, AChar hi =>
      if (lo <=? hi)%N then Some [IRange lo hi] else None
  | _, _ => Some [IAtom a; IAtom dash; IAtom b]
  end.

(** One pass over the class body; [skip] counts the characters of the
    current atom still to pass.  [None]: a range out of order. *)
Fixpoint classLoop (s : string) (skip : nat) (p : pending)
    (out : list class_item) : option (list class_item) :=
  match s with
  | EmptyString =>
      Some (out ++ match p with
                   | Fresh => []
                   | Have a => [IAtom a]
                   | HaveDash a => [IAtom a; IAtom dash]
                   end)
  | String c r =>
      match skip with
      | S k => classLoop r k p out
      | O =>
          let '(b, used) := classAtomAt s in
          match p with
          | Fresh => classLoop r (Nat.pred used) (Have b) out
          | Have a =>
              if Ascii.eqb c "-" then classLoop r O (HaveDash a) out
              else classLoop r (Nat.pred used) (Have b) (out ++ [IAtom a])
          | HaveDash a =>
              match mkRange a b with
              | Some items => classLoop r (Nat.pred used) Fresh (out ++ items)
              | None => None
              end
          end
      end
  end.

(** The body of [[...]]: a leading [^] inverts the class. *)
Definition parseClass (body : string) : option (bool * list class_item) :=
  match body with
  | String c r =>
      if Ascii.eqb c "^" then pair true <$> classLoop r O Fresh []
      else pair false <$> classLoop body O Fresh []
  | EmptyString => Some (false, [])
  end.

Inductive atom : Type :=
| Any
| Chr (c : N)
| Cls (invert : bool) (items : list class_item).

Inductive term : Type :=
| AssertStart
| AssertEnd
| Match (a : atom) (star : bool).

Inductive error : Type :=
| Syntax
| Unmodelled.

Definition atomOf (t : token) : error + atom :=
  match t with
  | TDot => inr Any
  | TChar c => if is_one_of c "()|+?{" then inl Unmodelled else inr (Chr (code c))
  | TEscape c =>
      if is_one_of c "^$\.*+?()[]{}|/" then inr (Chr (code c)) else inl Unmodelled
  | TClass body =>
      match parseClass body with
      | Some (inv, items) => inr (Cls inv items)
      | None => inl Syntax
      end
  | TCaret | TDollar | TStar => inl Syntax
  end.

Definition consTerm (t : term) (r : error + list term) : error + list term :=
  match r with
  | inr ts => inr (t :: ts)
  | inl e => inl e
  end.

(** A [*] applies to the atom before it; one with no atom before it
    (at the start, after an assertion or after another [*]) is a
    syntax error. *)
Fixpoint termsOf (toks : list token) : error + list term :=
  match toks with
  | [] => inr []
  | TCaret :: r => consTerm AssertStart (termsOf r)
  | TDollar :: r => consTerm AssertEnd (termsOf r)
  | TStar :: _ => inl Syntax
  | t :: r =>
      match atomOf t with
      | inl e => inl e
      | inr a =>
          match r with
          | TStar :: r' => consTerm (Match a true) (termsOf r')
          | _ => consTerm (Match a false) (termsOf r)
          end
      end
  end.

Definition compile (source : string) : error + list term :=
  match lex source with
  | Some toks => termsOf toks
  | None => inl Syntax
  end.

(** Case-insensitive comparison maps each code unit to its upper case
    when that is one code unit and does not take a character at or
    above 128 below it. *)
Definition canonicalize (c : N) : N :=
  if ((97 <=? c) && (c <=? 122))%N then (c - 32)%N
  else if ((224 <=? c) && (c <=? 254) && negb (c =? 247))%N then (c - 32)%N
  else if (c =? 181)%N then 924%N
  else if (c =? 956)%N then 924%N
  else if (c =? 255)%N then 376%N
  else c.

(** The code units that [canonicalize] sends to [u], for [u] the
    canonical form of a code unit below 256. *)
Definition preimages (u : N) : list N :=
  if ((65 <=? u) && (u <=? 90))%N then [u; u + 32]%N
  else if ((192 <=? u) && (u <=? 222) && negb (u =? 215))%N then [u; u + 32]%N
  else if (u =? 924)%N then [924; 181; 956]%N
  else if (u =? 376)%N then [376; 255]%N
  else [u].

Definition inSet (k : escape_set) (ch : N) : bool :=
  match k with
  | Digits => ((48 <=? ch) && (ch <=? 57))%N
  | Spaces => ((9 <=? ch) && (ch <=? 13) || (ch =? 32) || (ch =? 160))%N
  | WordChars =>
      ((48 <=? ch) && (ch <=? 57) || (65 <=? ch) && (ch <=? 90)
       || (97 <=? ch) && (ch <=? 122) || (ch =? 95))%N
  end.

Definition charMatches (ignoreCase : bool) (c ch : N) : bool :=
  if ignoreCase then (canonicalize c =? canonicalize ch)%N else (c =? ch)%N.

Definition itemMatches (ignoreCase : bool) (ch : N) (i : class_item) : bool :=
  match i with
  | IAtom (AChar c) => charMatches ignoreCase c ch
  | IAtom (ASet k complement) => xorb complement (inSet k ch)
  | IRange lo hi =>
      if ignoreCase
      then existsb (fun a => (lo <=? a) && (a <=? hi))%N (preimages (canonicalize ch))
      else ((lo <=? ch) && (ch <=? hi))%N
  end.

Definition isLineTerminator (ch : N) : bool := ((ch =? 10) || (ch =? 13))%N.

Definition accepts (ignoreCase : bool) (a : atom) (c : ascii) : bool :=
  let ch := code c in
  match a with
  | Any => negb (isLineTerminator ch)
  | Chr x => charMatches ignoreCase x ch
  | Cls invert items => xorb invert (existsb (itemMatches ignoreCase ch) items)
  end.

(** Does the term list match a prefix of [s]?  [atStart] tells whether
    [s] is the whole input. *)
Fixpoint matchHere (ignoreCase : bool) (ts : list term) (atStart : bool)
    (s : string) : bool :=
  match ts with
  | [] => true
  | AssertStart :: ts' => atStart && matchHere ignoreCase ts' atStart s
  | AssertEnd :: ts' =>
      match s with
      | EmptyString => matchHere ignoreCase ts' atStart s
      | String _ _ => false
      end
  | Match a false :: ts' =>
      match s with
      | String c r => accepts ignoreCase a c && matchHere ignoreCase ts' false r
      | EmptyString => false
      end
  | Match a true :: ts' =>
      (fix star (atStart : bool) (s : string) : bool :=
         matchHere ignoreCase ts' atStart s
         || match s with
            | String c r => accepts ignoreCase a c && star false r
            | EmptyString => false
            end) atStart s
  end.

(** A match may start at any index. *)
Fixpoint search (ignoreCase : bool) (ts : list term) (atStart : bool)
    (s : string) : bool :=
  matchHere ignoreCase ts atStart s
  || match s with
     | String _ r => search ignoreCase ts false r
     | EmptyString => false
     end.

Inductive outcome : Type :=
| Tested (b : bool)
| Raises
| NotModelled.

Definition test (source : string) (ignoreCase : bool) (input : string) : outcome :=
  match compile source with
  | inr ts => Tested (search ignoreCase ts true input)
  | inl Syntax => Raises
  | inl Unmodelled => NotModelled
  end.

End RegExp.

(** *** [Array.prototype.sort] with a comparator: a stable sort.
    [cmp a b < 0] puts [a] first. *)

Fixpoint insertSorted {A} (cmp : A -> A -> Z) (x : A) (l : list A) : list A :=
  match l with
  | [] => [x]
  | y :: r => if cmp x y <? 0 then x :: l else y :: insertSorted cmp x r
  end.

Definition sort {A} (cmp : A -> A -> Z) (l : list A) : list A :=
  fold_left (fun acc x => insertSorted cmp x acc) l [].

End JS.

(** ** The command *)

Module Find.

Definition streq (a b : string) : bool := String.eqb a b.

Definition LF : string := String (ascii_of_nat 10) EmptyString.
Definition NUL : string := String (ascii_of_nat 0) EmptyString.
Definition DQUOTE : string := String (ascii_of_nat 34) EmptyString.

(** *** Glob matcher *)

(** The loop of [matchGlob] over the pattern: [*] and [?] are
    translated, a [[] is copied with everything up to and including the
    next []] (to the end of the pattern when there is none), a character
    of [.+^${}()|\] is escaped, any other character is copied.
    [translate] is the loop at index [i], [copyClass] the copy of the
    slice that follows a [[]. *)
Fixpoint translate (pattern : string) : string :=
  match pattern with
  | EmptyString => EmptyString
  | String c rest =>
      if Ascii.eqb c "*" then ".*" +:+ translate rest
      else if Ascii.eqb c "?" then "." +:+ translate rest
      else if Ascii.eqb c "[" then String c (copyClass rest)
      else if JS.is_one_of c ".+^${}()|\" then String "\" (String c (translate rest))
      else String c (translate rest)
  end
with copyClass (pattern : string) : string :=
  match pattern with
  | EmptyString => EmptyString
  | String x rest =>
      String x (if Ascii.eqb x "]" then translate rest else copyClass rest)
  end.

Definition globToRegex (pattern : string) : string :=
  "^" +:+ translate pattern +:+ "$".

(** [ignoreCase] is an optional argument that defaults to [false].  The
    last case does not arise ([globToRegex_modelled]). *)
Definition matchGlob (name pattern : string) (ignoreCase : option bool)
    : completion bool :=
  match JS.RegExp.test (globToRegex pattern) (default false ignoreCase) name with
  | JS.RegExp.Tested b => Normal b
  | JS.RegExp.Raises => Throw SyntaxError
  | JS.RegExp.NotModelled => Throw SyntaxError
  end.

(** *** Expressions and actions *)

Inductive FileType : Type := TypeF | TypeD.
Inductive Comparison : Type := Exact | More | Less.
Inductive SizeUnit : Type := UnitC | UnitK | UnitM | UnitG | UnitB.

Inductive Expression : Type :=
| EName (pattern : string) (ignoreCase : option bool)
| EPath (pattern : string) (ignoreCase : option bool)
| EType (fileType : FileType)
| EEmpty
| EMtime (days : Z) (comparison : Comparison)
| ENewer (refPath : string)
| ESize (value : Z) (unit : SizeUnit) (comparison : Comparison)
| ENot (expr : Expression)
| EAnd (left right : Expression)
| EOr (left right : Expression).

Definition PREDICATES_WITH_ARGS : list string :=
  ["-name"; "-iname"; "-path"; "-ipath"; "-type"; "-maxdepth"; "-mindepth";
   "-mtime"; "-newer"; "-size"].

Inductive FindAction : Type :=
| AExec (command : list string) (batchMode : bool)
| APrint
| APrint0
| ADelete.

(** *** Argument tokenizer *)

Inductive Op : Type := OpAnd | OpOr.

Inductive Token : Type :=
| TExpr (e : Expression)
| TOp (op : Op)
| TNot.

Record ParseResult : Type := {
  expr : option Expression;
  pathIndex : nat;
  error : option string;
  actions : list FindAction
}.

(** The variables of the scanning loop. *)
Record ScanState : Type := {
  scan_i : nat;
  scan_tokens : list Token;
  scan_actions : list FindAction
}.

(** A leading [+] or [-] selects the comparison; the rest is the body. *)
Definition splitSign (arg : string) : Comparison * string :=
  if JS.startsWith arg "+" then (More, JS.slice 1 arg)
  else if JS.startsWith arg "-" then (Less, JS.slice 1 arg)
  else (Exact, arg).

Definition unitOf (c : ascii) : option SizeUnit :=
  if Ascii.eqb c "c" then Some UnitC
  else if Ascii.eqb c "k" then Some UnitK
  else if Ascii.eqb c "M" then Some UnitM
  else if Ascii.eqb c "G" then Some UnitG
  else if Ascii.eqb c "b" then Some UnitB
  else None.

(** The text after the leading decimal digits. *)
Fixpoint afterDigits (s : string) : string :=
  match s with
  | String c r => match JS.digit c with Some _ => afterDigits r | None => s end
  | EmptyString => EmptyString
  end.

(** [sizeStr.match(/^(\d+)([ckMGb])?$/)], with the number and the unit
    read from the two groups; the unit defaults to [b]. *)
Definition sizeMatch (sizeStr : string) : option (Z * SizeUnit) :=
  match JS.digits None sizeStr with
  | None => None
  | Some value =>
      match afterDigits sizeStr with
      | EmptyString => Some (value, UnitB)
      | String u EmptyString => pair value <$> unitOf u
      | String _ (String _ _) => None
      end
  end.

(** The inner loop of [-exec]: the arguments up to the first [;] or [+],
    and that terminator when there is one. *)
Fixpoint execParts (rest : list string) : list string * option string :=
  match rest with
  | [] => ([], None)
  | a :: r =>
      if streq a ";" || streq a "+" then ([], Some a)
      else let '(parts, t) := execParts r in (a :: parts, t)
  end.

Inductive Step : Type :=
| Continue (st : ScanState)
| Break (st : ScanState)
| Fail (r : ParseResult).

Definition failWith (i : nat) (msg : string) : Step :=
  Fail {| expr := None; pathIndex := i; error := Some msg; actions := [] |}.

(** One iteration of the scanning loop, at [args[i]]. *)
Definition scanStep (args : list string) (st : ScanState) : Step :=
  let i := scan_i st in
  let tokens := scan_tokens st in
  let acts := scan_actions st in
  let advance k := Continue {| scan_i := i + k; scan_tokens := tokens; scan_actions := acts |} in
  let token k t := Continue {| scan_i := i + k; scan_tokens := tokens ++ [t]; scan_actions := acts |} in
  let action k a := Continue {| scan_i := i + k; scan_tokens := tokens; scan_actions := acts ++ [a] |} in
  match args !! i with
  | None => Break st
  | Some arg =>
      let hasNext := bool_decide (i + 1 < length args)%nat in
      let next := default EmptyString (args !! (i + 1)%nat) in
      if streq arg "-name" && hasNext then token 2%nat (TExpr (EName next None))
      else if streq arg "-iname" && hasNext then token 2%nat (TExpr (EName next (Some true)))
      else if streq arg "-path" && hasNext then token 2%nat (TExpr (EPath next None))
      else if streq arg "-ipath" && hasNext then token 2%nat (TExpr (EPath next (Some true)))
      else if streq arg "-type" && hasNext then
        if streq next "f" then token 2%nat (TExpr (EType TypeF))
        else if streq next "d" then token 2%nat (TExpr (EType TypeD))
        else failWith (i + 1) ("find: Unknown argument to -type: " +:+ next +:+ LF)
      else if streq arg "-empty" then token 1%nat (TExpr EEmpty)
      else if streq arg "-mtime" && hasNext then
        let '(comparison, daysStr) := splitSign next in
        match JS.parseInt daysStr with
        | JS.Num days => token 2%nat (TExpr (EMtime days comparison))
        | JS.NaN => advance 2%nat
        end
      else if streq arg "-newer" && hasNext then token 2%nat (TExpr (ENewer next))
      else if streq arg "-size" && hasNext then
        let '(comparison, sizeStr) := splitSign next in
        match sizeMatch sizeStr with
        | Some (value, unit) => token 2%nat (TExpr (ESize value unit comparison))
        | None => advance 2%nat
        end
      else if streq arg "-not" || streq arg "!" then token 1%nat TNot
      else if streq arg "-o" || streq arg "-or" then token 1%nat (TOp OpOr)
      else if streq arg "-a" || streq arg "-and" then token 1%nat (TOp OpAnd)
      else if streq arg "-maxdepth" || streq arg "-mindepth" then advance 2%nat
      else if streq arg "-exec" then
        let '(commandParts, terminator) := execParts (drop (i + 1) args) in
        match terminator with
        | None => failWith (i + 1 + length commandParts) ("find: missing argument to `-exec'" +:+ LF)
        | Some t => action (2 + length commandParts)%nat (AExec commandParts (streq t "+"))
        end
      else if streq arg "-print" then action 1%nat APrint
      else if streq arg "-print0" then action 1%nat APrint0
      else if streq arg "-delete" then action 1%nat ADelete
      else if JS.startsWith arg "-" then
        failWith i ("find: unknown predicate '" +:+ arg +:+ "'" +:+ LF)
      else
        match tokens with
        | [] => advance 1%nat
        | _ :: _ => Break st
        end
  end.

(** The scanning loop.  [inl]: the loop is left, by its condition or by
    [break]; [inr]: a [return] from inside the loop.  [None]: out of
    fuel. *)
Fixpoint scanLoop (fuel : nat) (args : list string) (st : ScanState)
    : option (ScanState + ParseResult) :=
  match fuel with
  | O => None
  | S fuel' =>
      if bool_decide (scan_i st < length args)%nat then
        match scanStep args st with
        | Continue st' => scanLoop fuel' args st'
        | Break st' => Some (inl st')
        | Fail r => Some (inr r)
        end
      else Some (inl st)
  end.

(** *** Expression builder *)

(** A negation marker is folded into the expression token right after
    it; a marker followed by anything else is dropped. *)
Fixpoint foldNot (tokens : list Token) : list Token :=
  match tokens with
  | [] => []
  | TNot :: r =>
      match r with
      | TExpr e :: r' => TExpr (ENot e) :: foldNot r'
      | _ => foldNot r
      end
  | t :: r => t :: foldNot r
  end.

(** The groups between [or] markers: the groups closed so far, and the
    one being filled. *)
Definition groupStep (st : list (list Expression) * list Expression) (t : Token)
    : list (list Expression) * list Expression :=
  let '(closed, current) := st in
  match t with
  | TOp OpOr => (closed ++ [current], [])
  | TExpr e => (closed, current ++ [e])
  | _ => st
  end.

Definition orGroups (processed : list Token) : list (list Expression) :=
  let '(closed, current) := fold_left groupStep processed ([], []) in
  closed ++ [current].

Definition chain (op : Expression -> Expression -> Expression)
    (l : list Expression) : option Expression :=
  match l with
  | [] => None
  | e :: r => Some (fold_left op r e)
  end.

Definition andResults (groups : list (list Expression)) : list Expression :=
  omap (chain EAnd) groups.

Definition buildTree (tokens : list Token) : option Expression :=
  chain EOr (andResults (orGroups (foldNot tokens))).

Definition finish (st : ScanState) : ParseResult :=
  match scan_tokens st with
  | [] =>
      {| expr := None; pathIndex := scan_i st; error := None;
         actions := scan_actions st |}
  | _ :: _ =>
      {| expr := buildTree (scan_tokens st); pathIndex := scan_i st;
         error := None; actions := scan_actions st |}
  end.

Definition parseExpressions (args : list string) (startIndex : nat)
    : option ParseResult :=
  match scanLoop (S (length args)) args
          {| scan_i := startIndex; scan_tokens := []; scan_actions := [] |} with
  | Some (inl st) => Some (finish st)
  | Some (inr r) => Some r
  | None => None
  end.

(** *** Predicate evaluation *)

Record EvalContext : Type := {
  name : string;
  relativePath : string;
  isFile : bool;
  isDirectory : bool;
  isEmpty : bool;
  mtime : Z;
  size : Z;
  newerRefTimes : gmap string Z
}.

Definition msPerDay : Z := 1000 * 60 * 60 * 24.

(** [Math.ceil(a / b)] for [0 < b]. *)
Definition ceilDiv (a b : Z) : Z := - ((- a) / b).

Definition targetBytes (value : Z) (unit : SizeUnit) : Z :=
  match unit with
  | UnitC => value
  | UnitK => value * 1024
  | UnitM => value * 1024 * 1024
  | UnitG => value * 1024 * 1024 * 1024
  | UnitB => value * 512
  end.

(** [now] is the value of [Date.now()].  The age in days is the
    quotient [(now - mtime) / msPerDay] of real numbers: it is compared
    with [days] after multiplying out, and its floor is [Z.div].  The
    source computes the difference and the quotient in doubles; the
    comparisons come out the same as long as the difference is below
    2^53 in magnitude, which is the range the properties of [-mtime] are
    stated on. *)
Fixpoint evaluateExpression (now : Z) (e : Expression) (ctx : EvalContext)
    : completion bool :=
  match e with
  | EName pattern ignoreCase => matchGlob (name ctx) pattern ignoreCase
  | EPath pattern ignoreCase => matchGlob (relativePath ctx) pattern ignoreCase
  | EType TypeF => Normal (isFile ctx)
  | EType TypeD => Normal (isDirectory ctx)
  | EEmpty => Normal (isEmpty ctx)
  | EMtime days comparison =>
      let age := now - mtime ctx in
      match comparison with
      | More => Normal (days * msPerDay <? age)
      | Less => Normal (age <? days * msPerDay)
      | Exact => Normal (age / msPerDay =? days)
      end
  | ENewer refPath =>
      match newerRefTimes ctx !! refPath with
      | None => Normal false
      | Some refMtime => Normal (refMtime <? mtime ctx)
      end
  | ESize value unit comparison =>
      match comparison with
      | More => Normal (targetBytes value unit <? size ctx)
      | Less => Normal (size ctx <? targetBytes value unit)
      | Exact =>
          match unit with
          | UnitB => Normal (ceilDiv (size ctx) 512 =? value)
          | _ => Normal (size ctx =? targetBytes value unit)
          end
      end
  | ENot inner => completion_map negb (evaluateExpression now inner ctx)
  | EAnd l r =>
      match evaluateExpression now l ctx with
      | Normal true => evaluateExpression now r ctx
      | other => other
      end
  | EOr l r =>
      match evaluateExpression now l ctx with
      | Normal false => evaluateExpression now r ctx
      | other => other
      end
  end.

(** *** The host environment *)

Module Stat.
(** What [fs.stat] resolves to; [size] and [mtime] may be absent. *)
Record t : Type := {
  isFile : bool;
  isDirectory : bool;
  size : option Z;
  mtime : option Z
}.
End Stat.

Record ExecResult : Type := {
  stdout : string;
  stderr : string;
  exitCode : Z
}.

(** Modelled from the spec: the file-system capability of the command
    context, whose declaration is not among the sources.  The store of
    the file system is a value of [σ].  Path resolution is a function of
    the working directory and a path; the metadata query fails ([None])
    when the path does not exist; the directory listing returns the
    child names in order; removal changes the store, and fails with a
    message ([Some msg]). *)
Record FileSystem (σ : Type) : Type := {
  resolvePath : string -> string -> string;
  stat : σ -> string -> option Stat.t;
  readdir : σ -> string -> list string;
  rm : σ -> string -> option string * σ
}.
Arguments resolvePath {σ} _ _ _.
Arguments stat {σ} _ _ _.
Arguments readdir {σ} _ _ _.
Arguments rm {σ} _ _ _.

(** Modelled from the spec: the command context.  The command-execution
    capability may be absent; it runs one composed command line and may
    change the store. *)
Record CommandContext (σ : Type) : Type := {
  fs : FileSystem σ;
  cwd : string;
  exec : option (σ -> string -> ExecResult * σ)
}.
Arguments fs {σ} _.
Arguments cwd {σ} _.
Arguments exec {σ} _.

(** The calls made on the host, in order. *)
Inductive Event : Type :=
| EvStat (path : string)
| EvReaddir (path : string)
| EvRm (path : string)
| EvExec (cmd : string).

Record World (σ : Type) : Type := {
  store : σ;
  trace : list Event
}.
Arguments store {σ} _.
Arguments trace {σ} _.
Arguments Build_World {σ} _ _.

(** *** Computations over a state, which may raise or run out of fuel *)

Inductive outcome (A : Type) : Type :=
| Done (a : A)
| Raised (e : exn)
| OutOfFuel.
Arguments Done {A} a.
Arguments Raised {A} e.
Arguments OutOfFuel {A}.

Definition M (S A : Type) : Type := S -> outcome A * S.

Definition ret {S A} (a : A) : M S A := fun s => (Done a, s).

Definition bind {S A B} (m : M S A) (k : A -> M S B) : M S B :=
  fun s =>
    match m s with
    | (Done a, s') => k a s'
    | (Raised e, s') => (Raised e, s')
    | (OutOfFuel, s') => (OutOfFuel, s')
    end.

Definition liftCompletion {S A} (c : completion A) : M S A :=
  fun s =>
    match c with
    | Normal a => (Done a, s)
    | Throw e => (Raised e, s)
    end.

Notation "x <- m ;; k" := (bind m (fun x => k))
  (at level 62, m at next level, right associativity).

Fixpoint forEach {S A} (l : list A) (body : A -> M S unit) : M S unit :=
  match l with
  | [] => ret tt
  | a :: r => _ <- body a;; forEach r body
  end.

Definition orElse (a : option string) (b : string) : string :=
  match a with
  | Some EmptyString | None => b
  | Some s => s
  end.

Section Command.

Context {σ : Type}.
Variable ctx : CommandContext σ.
Variable now : Z.

(** *** Host calls, recorded in the trace *)

Definition doStat {S} (world : S -> World σ) (setWorld : World σ -> S -> S)
    (path : string) : M S (option Stat.t) :=
  fun s =>
    let w := world s in
    (Done (stat (fs ctx) (store w) path),
     setWorld (Build_World (store w) (trace w ++ [EvStat path])) s).

Definition doReaddir {S} (world : S -> World σ) (setWorld : World σ -> S -> S)
    (path : string) : M S (list string) :=
  fun s =>
    let w := world s in
    (Done (readdir (fs ctx) (store w) path),
     setWorld (Build_World (store w) (trace w ++ [EvReaddir path])) s).

(** *** Reference resolver *)

(** [resolveNewerRefs]: every [newer] reference that can be stat'ed
    is entered in the table, under the path as written, with its
    modification time (the current time when the metadata has none).
    The walk [collectNewerRefs] that precedes it in [execute] has no
    effect and is left out. *)
Fixpoint resolveNewerRefs (e : Expression) (table : gmap string Z)
    : M (World σ) (gmap string Z) :=
  match e with
  | ENewer refPath =>
      let refFullPath := resolvePath (fs ctx) (cwd ctx) refPath in
      refStat <- doStat id (fun w _ => w) refFullPath;;
      match refStat with
      | Some st => ret (<[refPath := default now (Stat.mtime st)]> table)
      | None => ret table
      end
  | ENot inner => resolveNewerRefs inner table
  | EAnd l r | EOr l r =>
      table' <- resolveNewerRefs l table;;
      resolveNewerRefs r table'
  | _ => ret table
  end.

(** *** Traversal engine *)

(** The variables of [execute] that [findRecursive] closes over. *)
Record Env : Type := {
  searchPath : string;
  maxDepth : option JS.num;
  minDepth : option JS.num;
  basePath : string;
  theExpr : option Expression;
  refTimes : gmap string Z
}.

Record TravState : Type := {
  world : World σ;
  results : list string
}.

Definition setWorld (w : World σ) (s : TravState) : TravState :=
  {| world := w; results := results s |}.

Definition pushResult (path : string) : M TravState unit :=
  fun s => (Done tt, {| world := world s; results := results s ++ [path] |}).

Definition baseName (env : Env) (currentPath : string) : string :=
  if streq currentPath (basePath env)
  then orElse (JS.pop (JS.split "/" (searchPath env))) (searchPath env)
  else orElse (JS.pop (JS.split "/" currentPath)) EmptyString.

Definition relativePathOf (env : Env) (currentPath : string) : string :=
  if streq currentPath (basePath env) then searchPath env
  else if streq (searchPath env) "."
  then "./" +:+ JS.slice (String.length (basePath env) + 1) currentPath
  else searchPath env +:+ JS.slice (String.length (basePath env)) currentPath.

Definition childPath (currentPath entry : string) : string :=
  if streq currentPath "/" then "/" +:+ entry else currentPath +:+ "/" +:+ entry.

(** The last step of [findRecursive]: a directory is listed and each
    entry visited at the next depth, in listing order.  [recurse] is the
    recursive call. *)
Definition descend (recurse : string -> Z -> M TravState unit)
    (currentPath : string) (depth : Z) (st : Stat.t) : M TravState unit :=
  if Stat.isDirectory st then
    entries <- doReaddir world setWorld currentPath;;
    forEach entries (fun entry => recurse (childPath currentPath entry) (depth + 1))
  else ret tt.

(** Whether the entry is empty: a file of size 0, a directory with no
    entries. *)
Definition emptiness (currentPath : string) (st : Stat.t) : M TravState bool :=
  if Stat.isFile st then
    ret (match Stat.size st with Some 0 => true | _ => false end)
  else if Stat.isDirectory st then
    entries <- doReaddir world setWorld currentPath;;
    ret (bool_decide (length entries = 0%nat))
  else ret false.

(** Whether the entry matches: the tests apply at or beyond [minDepth]
    only. *)
Definition matching (env : Env) (currentPath : string) (depth : Z) (st : Stat.t)
    (isEmpty : bool) : M TravState bool :=
  let atOrBeyondMinDepth :=
    match minDepth env with
    | None => true
    | Some m => JS.ge (JS.Num depth) m
    end in
  match atOrBeyondMinDepth, theExpr env with
  | true, Some e =>
      liftCompletion
        (evaluateExpression now e
           {| name := baseName env currentPath;
              relativePath := relativePathOf env currentPath;
              isFile := Stat.isFile st;
              isDirectory := Stat.isDirectory st;
              isEmpty := isEmpty;
              mtime := default now (Stat.mtime st);
              size := default 0 (Stat.size st);
              newerRefTimes := refTimes env |})
  | _, _ => ret atOrBeyondMinDepth
  end.

(** The body of [findRecursive]. *)
Definition visit (recurse : string -> Z -> M TravState unit) (env : Env)
    (currentPath : string) (depth : Z) : M TravState unit :=
  if match maxDepth env with
     | Some m => JS.gt (JS.Num depth) m
     | None => false
     end
  then ret tt
  else
    st <- doStat world setWorld currentPath;;
    match st with
    | None => ret tt
    | Some st =>
        isEmpty <- emptiness currentPath st;;
        matches <- matching env currentPath depth st isEmpty;;
        _ <- (if matches : bool
              then pushResult (relativePathOf env currentPath)
              else ret tt);;
        descend recurse currentPath depth st
    end.

Fixpoint findRecursive (fuel : nat) (env : Env) (currentPath : string)
    (depth : Z) : M TravState unit :=
  match fuel with
  | O => fun s => (OutOfFuel, s)
  | S fuel' => visit (findRecursive fuel' env) env currentPath depth
  end.

(** *** Action executor *)

Definition byLengthDescending (a b : string) : Z :=
  Z.of_nat (String.length b) - Z.of_nat (String.length a).

(** The loop of [-delete] over the sorted matches. *)
Fixpoint deleteEach (files : list string) (out : ExecResult) (w : World σ)
    : ExecResult * World σ :=
  match files with
  | [] => (out, w)
  | file :: r =>
      let fullPath := resolvePath (fs ctx) (cwd ctx) file in
      let '(failure, store') := rm (fs ctx) (store w) fullPath in
      let w' := Build_World store' (trace w ++ [EvRm fullPath]) in
      match failure with
      | None => deleteEach r out w'
      | Some msg =>
          deleteEach r
            {| stdout := stdout out;
               stderr := stderr out +:+ "find: cannot delete '" +:+ file
                         +:+ "': " +:+ msg +:+ LF;
               exitCode := 1 |} w'
      end
  end.

Definition quoted (parts : list string) : string :=
  JS.join " " (map (fun p => DQUOTE +:+ p +:+ DQUOTE) parts).

Definition runCommand (run : σ -> string -> ExecResult * σ) (cmd : string)
    (out : ExecResult) (w : World σ) : ExecResult * World σ :=
  let '(result, store') := run (store w) cmd in
  ({| stdout := stdout out +:+ stdout result;
      stderr := stderr out +:+ stderr result;
      exitCode := if exitCode result =? 0 then exitCode out else exitCode result |},
   Build_World store' (trace w ++ [EvExec cmd])).

Fixpoint execEach (run : σ -> string -> ExecResult * σ) (command : list string)
    (files : list string) (out : ExecResult) (w : World σ) : ExecResult * World σ :=
  match files with
  | [] => (out, w)
  | file :: r =>
      let cmdWithFile := map (fun part => if streq part "{}" then file else part) command in
      let '(out', w') := runCommand run (quoted cmdWithFile) out w in
      execEach run command r out' w'
  end.

(** One action.  [inl]: [execute] returns at once with that result. *)
Definition runAction (found : list string) (action : FindAction)
    (out : ExecResult) (w : World σ) : (ExecResult + ExecResult) * World σ :=
  match action with
  | APrint =>
      (inr {| stdout := stdout out +:+
                        match found with
                        | [] => EmptyString
                        | _ :: _ => JS.join LF found +:+ LF
                        end;
              stderr := stderr out; exitCode := exitCode out |}, w)
  | APrint0 =>
      (inr {| stdout := stdout out +:+
                        match found with
                        | [] => EmptyString
                        | _ :: _ => JS.join NUL found +:+ NUL
                        end;
              stderr := stderr out; exitCode := exitCode out |}, w)
  | ADelete =>
      let sortedForDelete := JS.sort byLengthDescending found in
      let '(out', w') := deleteEach sortedForDelete out w in
      (inr out', w')
  | AExec command batchMode =>
      match exec ctx with
      | None =>
          (inl {| stdout := EmptyString;
                  stderr := "find: -exec not supported in this context" +:+ LF;
                  exitCode := 1 |}, w)
      | Some run =>
          if batchMode then
            let cmdWithFiles :=
              flat_map (fun part => if streq part "{}" then found else [part]) command in
            let '(out', w') := runCommand run (quoted cmdWithFiles) out w in
            (inr out', w')
          else
            let '(out', w') := execEach run command found out w in
            (inr out', w')
      end
  end.

Fixpoint runActions (found : list string) (acts : list FindAction)
    (out : ExecResult) (w : World σ) : ExecResult * World σ :=
  match acts with
  | [] => (out, w)
  | action :: r =>
      match runAction found action out w with
      | (inl final, w') => (final, w')
      | (inr out', w') => runActions found r out' w'
      end
  end.

(** *** The command *)

(** The help flag test and the help output come from a helper module
    that is not among the sources. *)
Variable hasHelpFlag : list string -> bool.
Variable showHelp : ExecResult.

(** The first loop of [execute]: the search path and the depth bounds.
    [args] is what is left of the argument list at the loop index. *)
Fixpoint discover (args : list string) (acc : string * option JS.num * option JS.num)
    : string * option JS.num * option JS.num :=
  let '(path, maxD, minD) := acc in
  match args with
  | [] => acc
  | arg :: rest =>
      let otherwise :=
        if streq arg "-exec" then
          (fix skip (l : list string) :=
             match l with
             | [] => acc
             | a :: l' =>
                 if streq a ";" || streq a "+" then discover l' acc else skip l'
             end) rest
        else if negb (JS.startsWith arg "-") && negb (streq arg ";")
                && negb (streq arg "+")
        then discover rest (arg, maxD, minD)
        else if existsb (streq arg) PREDICATES_WITH_ARGS then
          match rest with
          | _ :: rest' => discover rest' acc
          | [] => acc
          end
        else discover rest acc in
      match rest with
      | v :: rest' =>
          if streq arg "-maxdepth" then discover rest' (path, Some (JS.parseInt v), minD)
          else if streq arg "-mindepth" then discover rest' (path, maxD, Some (JS.parseInt v))
          else otherwise
      | [] => otherwise
      end
  end.

(** Runs a traversal computation on the world alone, returning the
    matches. *)
Definition collect (m : M TravState unit) : M (World σ) (list string) :=
  fun w =>
    match m {| world := w; results := [] |} with
    | (Done _, s) => (Done (results s), world s)
    | (Raised e, s) => (Raised e, world s)
    | (OutOfFuel, s) => (OutOfFuel, world s)
    end.

Definition execute (fuel : nat) (args : list string) : M (World σ) ExecResult :=
  if hasHelpFlag args then ret showHelp
  else
    let '(searchPath, maxDepth, minDepth) := discover args (".", None, None) in
    match parseExpressions args 0 with
    | None => fun w => (OutOfFuel, w)
    | Some parsed =>
        match error parsed with
        | Some (String _ _ as msg) =>
            ret {| stdout := EmptyString; stderr := msg; exitCode := 1 |}
        | _ =>
            let basePath := resolvePath (fs ctx) (cwd ctx) searchPath in
            exists_ <- doStat id (fun w _ => w) basePath;;
            match exists_ with
            | None =>
                ret {| stdout := EmptyString;
                       stderr := "find: " +:+ searchPath
                                 +:+ ": No such file or directory" +:+ LF;
                       exitCode := 1 |}
            | Some _ =>
                table <- match expr parsed with
                         | Some e => resolveNewerRefs e ∅
                         | None => ret ∅
                         end;;
                let env :=
                  {| searchPath := searchPath; maxDepth := maxDepth;
                     minDepth := minDepth; basePath := basePath;
                     theExpr := expr parsed; refTimes := table |} in
                found <- collect (findRecursive fuel env basePath 0);;
                let start := {| stdout := EmptyString; stderr := EmptyString;
                                exitCode := 0 |} in
                match actions parsed with
                | [] =>
                    ret {| stdout := match found with
                                     | [] => EmptyString
                                     | _ :: _ => JS.join LF found +:+ LF
                                     end;
                           stderr := EmptyString; exitCode := 0 |}
                | acts => fun w => let '(out, w') := runActions found acts start w in
                                   (Done out, w')
                end
            end
        end
    end.

End Command.

End Find.

(** ** Definitions used to state the properties *)

(** The token language of an expression written with the precedences of
    the specification: a disjunction of conjunction groups, each a run of
    possibly negated predicates joined by adjacency or by an explicit
    [-a]. *)

Module Grammar.
Import Find.

Record Literal : Type := {
  negated : bool;
  predicate : Expression
}.

Definition litTokens (l : Literal) : list Token :=
  if negated l then [TNot; TExpr (predicate l)] else [TExpr (predicate l)].

Definition litExpr (l : Literal) : Expression :=
  if negated l then ENot (predicate l) else predicate l.

(** A literal after the first of its group, and whether [-a] is written
    before it. *)
Record Conjunct : Type := {
  explicitAnd : bool;
  literal : Literal
}.

Definition conjTokens (c : Conjunct) : list Token :=
  (if explicitAnd c then [TOp OpAnd] else []) ++ litTokens (literal c).

Record Group : Type := {
  first : Literal;
  others : list Conjunct
}.

Definition groupTokens (g : Group) : list Token :=
  litTokens (first g) ++ flat_map conjTokens (others g).

(** The conjunction chain of a group, nested to the left. *)
Definition groupExpr (g : Group) : Expression :=
  fold_left EAnd (map (fun c => litExpr (literal c)) (others g)) (litExpr (first g)).

Record Disjunction : Type := {
  firstGroup : Group;
  otherGroups : list Group
}.

Definition disjTokens (d : Disjunction) : list Token :=
  groupTokens (firstGroup d)
  ++ flat_map (fun g => TOp OpOr :: groupTokens g) (otherGroups d).

(** The literals of a group as expressions, in order. *)
Definition groupExprs (g : Group) : list Expression :=
  litExpr (first g) :: map (fun c => litExpr (literal c)) (others g).

(** The disjunction chain of the groups, nested to the left. *)
Definition disjExpr (d : Disjunction) : Expression :=
  fold_left EOr (map groupExpr (otherGroups d)) (groupExpr (firstGroup d)).

(** The arguments that write a predicate: those of the predicates whose
    value is a plain text. *)
Definition predicateArgs (e : Expression) : option (list string) :=
  match e with
  | EName p None => Some ["-name"; p]
  | EName p (Some true) => Some ["-iname"; p]
  | EPath p None => Some ["-path"; p]
  | EPath p (Some true) => Some ["-ipath"; p]
  | EType TypeF => Some ["-type"; "f"]
  | EType TypeD => Some ["-type"; "d"]
  | EEmpty => Some ["-empty"]
  | ENewer refPath => Some ["-newer"; refPath]
  | _ => None
  end.

Definition tokenArgs (t : Token) : option (list string) :=
  match t with
  | TNot => Some ["!"]
  | TOp OpAnd => Some ["-a"]
  | TOp OpOr => Some ["-o"]
  | TExpr e => predicateArgs e
  end.

Definition writable (t : Token) : Prop := is_Some (tokenArgs t).

(** The argument list that writes a token sequence. *)
Definition argsOf (tokens : list Token) : list string :=
  flat_map (fun t => default [] (tokenArgs t)) tokens.

(** [! -name a -type f -o -empty] *)
Definition sample : Disjunction :=
  {| firstGroup :=
       {| first := {| negated := true; predicate := EName "a" None |};
          others := [{| explicitAnd := false;
                        literal := {| negated := false; predicate := EType TypeF |} |}] |};
     otherGroups :=
       [{| first := {| negated := false; predicate := EEmpty |}; others := [] |}] |}.

End Grammar.

(** Where the scanning loop of the tokenizer can be: the states reached
    from the start index by iterations that continue the loop. *)

Module Scan.
Import Find.

Definition initial (startIndex : nat) : ScanState :=
  {| scan_i := startIndex; scan_tokens := []; scan_actions := [] |}.

Inductive reaches (args : list string) (startIndex : nat) : ScanState -> Prop :=
| reaches_start : reaches args startIndex (initial startIndex)
| reaches_step (st st' : ScanState) :
    reaches args startIndex st ->
    (scan_i st < length args)%nat ->
    scanStep args st = Continue st' ->
    reaches args startIndex st'.

(** The flags the tokenizer recognises. *)
Definition recognized : list string :=
  ["-name"; "-iname"; "-path"; "-ipath"; "-type"; "-empty"; "-mtime"; "-newer";
   "-size"; "-not"; "!"; "-o"; "-or"; "-a"; "-and"; "-maxdepth"; "-mindepth";
   "-exec"; "-print"; "-print0"; "-delete"].

(** A flag-shaped token that is none of them. *)
Definition unrecognizedFlag (arg : string) : bool :=
  JS.startsWith arg "-" && negb (existsb (streq arg) recognized).

(** A run of decimal digits, not empty. *)
Fixpoint allDigits (s : string) : bool :=
  match s with
  | EmptyString => true
  | String c r => match JS.digit c with Some _ => allDigits r | None => false end
  end.

Definition isNumeral (s : string) : bool :=
  match s with
  | EmptyString => false
  | String _ _ => allDigits s
  end.

(** A body that begins with a decimal integer: after white space and one
    optional sign comes a decimal digit. *)
Definition startsWithInteger (s : string) : bool :=
  let t := JS.trimStart s in
  let unsigned :=
    match t with
    | String c r => if Ascii.eqb c "-" || Ascii.eqb c "+" then r else t
    | EmptyString => t
    end in
  match unsigned with
  | String c _ => match JS.digit c with Some _ => true | None => false end
  | EmptyString => false
  end.

(** A size literal: a numeral, optionally followed by one unit letter. *)
Definition SizeLiteral (s : string) : Prop :=
  exists d : string,
    isNumeral d = true
    /\ (s = d \/ exists u : ascii, JS.is_one_of u "ckMGb" = true /\ s = d +:+ String u EmptyString).

(** The leading decimal digits of a text. *)
Fixpoint leadingDigits (s : string) : string :=
  match s with
  | String c r =>
      match JS.digit c with
      | Some _ => String c (leadingDigits r)
      | None => EmptyString
      end
  | EmptyString => EmptyString
  end.

End Scan.

(** The references of an expression, and the time the resolver records
    for one. *)

Section References.
Import Find.
Context {σ : Type} (ctx : CommandContext σ) (now : Z).

Fixpoint mentions (ref : string) (e : Expression) : bool :=
  match e with
  | ENewer refPath => streq refPath ref
  | ENot inner => mentions ref inner
  | EAnd l r | EOr l r => mentions ref l || mentions ref r
  | _ => false
  end.

Definition refTime (s : σ) (ref : string) : option Z :=
  (fun st => default now (Stat.mtime st))
    <$> stat (fs ctx) s (resolvePath (fs ctx) (cwd ctx) ref).

End References.

(** The scenario of the specification: a directory holding [a.txt] (10
    bytes), [b.log] (0 bytes) and a subdirectory [d] holding [c.txt] (5
    bytes).  The directory is [/work]; it is searched as [.] from inside
    it. *)

Module Scenario.
Import Find.

Definition file (bytes : Z) : Stat.t :=
  {| Stat.isFile := true; Stat.isDirectory := false;
     Stat.size := Some bytes; Stat.mtime := Some 0 |}.

Definition directory : Stat.t :=
  {| Stat.isFile := false; Stat.isDirectory := true;
     Stat.size := Some 0; Stat.mtime := Some 0 |}.

Definition tree : FileSystem unit :=
  {| resolvePath := fun cwd p =>
       if streq p "." then cwd
       else if JS.startsWith p "/" then p
       else if streq cwd "/" then "/" +:+ p
       else cwd +:+ "/" +:+ p;
     stat := fun _ p =>
       if streq p "/work" then Some directory
       else if streq p "/work/a.txt" then Some (file 10)
       else if streq p "/work/b.log" then Some (file 0)
       else if streq p "/work/d" then Some directory
       else if streq p "/work/d/c.txt" then Some (file 5)
       else None;
     readdir := fun _ p =>
       if streq p "/work" then ["a.txt"; "b.log"; "d"]
       else if streq p "/work/d" then ["c.txt"]
       else [];
     rm := fun s _ => (None, s) |}.

Definition context : CommandContext unit :=
  {| fs := tree; cwd := "/work"; exec := None |}.

Definition hasHelpFlag (args : list string) : bool := existsb (streq "--help") args.

Definition help : ExecResult :=
  {| stdout := "find - search for files in a directory hierarchy" +:+ LF;
     stderr := EmptyString; exitCode := 0 |}.

Definition untouched : World unit := Build_World tt [].

Definition start : TravState := {| world := untouched; results := [] |}.

(** The traversal variables for [find -maxdepth 0] and for
    [find -mindepth 1], with any expression. *)
Definition rootOnly (e : option Expression) : Env :=
  {| searchPath := "."; maxDepth := Some (JS.Num 0); minDepth := None;
     basePath := "/work"; theExpr := e; refTimes := ∅ |}.

Definition belowRoot (e : option Expression) : Env :=
  {| searchPath := "."; maxDepth := None; minDepth := Some (JS.Num 1);
     basePath := "/work"; theExpr := e; refTimes := ∅ |}.

(** The traversal variables that [execute] sets up for
    [find -name "*.txt" -print] run in the directory. *)
Definition env : Env :=
  {| searchPath := "."; maxDepth := None; minDepth := None; basePath := "/work";
     theExpr := Some (EName "*.txt" None); refTimes := ∅ |}.

Definition run (fuel : nat) (args : list string) : outcome ExecResult * World unit :=
  execute context 0 hasHelpFlag help fuel args untouched.

(** A node of the given name, for the evaluator. *)
Definition nodeNamed (n : string) : EvalContext :=
  {| name := n; relativePath := "./" +:+ n; isFile := true; isDirectory := false;
     isEmpty := false; mtime := 0; size := 1; newerRefTimes := ∅ |}.

(** The same tree with removals that can fail.  The store is the list of
    the paths removed so far; [b.log] cannot be removed, and [d] can be
    removed only after [d/c.txt]. *)
Definition guarded : FileSystem (list string) :=
  {| resolvePath := resolvePath tree;
     stat := fun _ p => stat tree tt p;
     readdir := fun _ p => readdir tree tt p;
     rm := fun removed p =>
       if streq p "/work/./b.log" then (Some "Permission denied", removed)
       else if streq p "/work/./d"
               && negb (existsb (streq "/work/./d/c.txt") removed)
       then (Some "Directory not empty", removed)
       else (None, removed ++ [p]) |}.

Definition guardedContext : CommandContext (list string) :=
  {| fs := guarded; cwd := "/work"; exec := None |}.

Definition silent : ExecResult :=
  {| stdout := EmptyString; stderr := EmptyString; exitCode := 0 |}.

End Scenario.

(** Fuel: [m2] does what [m1] does whenever [m1] does not run out of
    fuel. *)
Definition refines {S A : Type} (m1 m2 : Find.M S A) : Prop :=
  forall s o s', m1 s = (o, s') -> o <> Find.OutOfFuel -> m2 s = (o, s').

(** The listing made to see whether a node is empty. *)
Definition emptinessProbe (path : string) (st : Find.Stat.t) : list Find.Event :=
  if Find.Stat.isFile st then []
  else if Find.Stat.isDirectory st then [Find.EvReaddir path]
  else [].

(** The world after a node has been stat'ed and probed for emptiness. *)
Definition probed {σ : Type} (path : string) (st : Find.Stat.t) (w : Find.World σ)
    : Find.World σ :=
  Find.Build_World (Find.store w)
    (Find.trace w ++ Find.EvStat path :: emptinessProbe path st).

(** The order of the paths handed to the removals: no path is longer than
    one before it. *)
Definition longerFirst (a b : string) : Prop :=
  (String.length b <= String.length a)%nat.

(** What [-delete] meets: the removals that fail, with their messages,
    in the order of the attempts, and the store after all attempts. *)

Section Removals.
Import Find.
Context {σ : Type} (ctx : CommandContext σ).

Fixpoint removalFailures (files : list string) (s : σ) : list (string * string) :=
  match files with
  | [] => []
  | file :: r =>
      let '(failure, s') := rm (fs ctx) s (resolvePath (fs ctx) (cwd ctx) file) in
      match failure with
      | Some msg => (file, msg) :: removalFailures r s'
      | None => removalFailures r s'
      end
  end.

Fixpoint storeAfterRemovals (files : list string) (s : σ) : σ :=
  match files with
  | [] => s
  | file :: r =>
      storeAfterRemovals r (rm (fs ctx) s (resolvePath (fs ctx) (cwd ctx) file)).2
  end.

(** The stderr line of one failed removal. *)
Definition deleteLine (failure : string * string) : string :=
  "find: cannot delete '" +:+ failure.1 +:+ "': " +:+ failure.2 +:+ LF.

End Removals.

(** Where the lexer of regular expressions can be while it reads the
    translation of a glob pattern. *)

Module Lexing.
Import JS.RegExp.

(** Inside a character class. *)
Definition classMode (m : mode) : bool :=
  match m with
  | InClass _ | InClassEsc _ => true
  | Top | TopEsc => false
  end.

(** Between two items of the pattern. *)
Definition patternMode (m : mode) : bool :=
  match m with
  | Top | InClass _ => true
  | TopEsc | InClassEsc _ => false
  end.

(** The tokens that the model of the engine covers. *)
Definition inFragment (t : token) : bool :=
  match t with
  | TChar c => negb (JS.is_one_of c "()|+?{")
  | TEscape c => JS.is_one_of c "^$\.*+?()[]{}|/"
  | _ => true
  end.

(** The tokens of the translation of a pattern that has no [[]. *)
Fixpoint plainTokens (pattern : string) : list token :=
  match pattern with
  | EmptyString => []
  | String c rest =>
      if Ascii.eqb c "*" then TDot :: TStar :: plainTokens rest
      else if Ascii.eqb c "?" then TDot :: plainTokens rest
      else if JS.is_one_of c ".+^${}()|\" then TEscape c :: plainTokens rest
      else TChar c :: plainTokens rest
  end.

End Lexing.

(** What a glob pattern without classes means, in the words of the
    specification: [*] is any sequence of characters, the empty one
    included; [?] is exactly one character; any other character is itself.
    The match is of the whole name.  The characters that [*] and [?]
    stand for are those of [.], that is, all but line terminators; with
    [ignoreCase] two characters are the same when their canonical forms
    are. *)

Module Glob.

Fixpoint matches (ignoreCase : bool) (pattern name : string) {struct pattern} : bool :=
  match pattern with
  | EmptyString =>
      match name with
      | EmptyString => true
      | String _ _ => false
      end
  | String c rest =>
      if Ascii.eqb c "*" then
        (fix star (name : string) : bool :=
           matches ignoreCase rest name
           || match name with
              | String x r => negb (JS.RegExp.isLineTerminator (JS.code x)) && star r
              | EmptyString => false
              end) name
      else
        match name with
        | EmptyString => false
        | String x r =>
            (if Ascii.eqb c "?" then negb (JS.RegExp.isLineTerminator (JS.code x))
             else JS.RegExp.charMatches ignoreCase (JS.code c) (JS.code x))
            && matches ignoreCase rest r
        end
  end.

(** The terms of the translation of a pattern that has no [[]. *)
Fixpoint plainTerms (pattern : string) : list JS.RegExp.term :=
  match pattern with
  | EmptyString => []
  | String c rest =>
      if Ascii.eqb c "*" then JS.RegExp.Match JS.RegExp.Any true :: plainTerms rest
      else if Ascii.eqb c "?" then JS.RegExp.Match JS.RegExp.Any false :: plainTerms rest
      else JS.RegExp.Match (JS.RegExp.Chr (JS.code c)) false :: plainTerms rest
  end.

End Glob.

(** The shape of the trees that the expression builder makes: a
    disjunction chain of conjunction chains of literals, a literal being a
    predicate or the negation of one. *)

Module Shape.
Import Find.

Definition isLeaf (e : Expression) : bool :=
  match e with
  | ENot _ | EAnd _ _ | EOr _ _ => false
  | _ => true
  end.

Definition isLiteral (e : Expression) : bool :=
  match e with
  | ENot inner => isLeaf inner
  | _ => isLeaf e
  end.

Fixpoint isConjunction (e : Expression) : bool :=
  match e with
  | EAnd l r => isConjunction l && isLiteral r
  | _ => isLiteral e
  end.

Fixpoint isDisjunction (e : Expression) : bool :=
  match e with
  | EOr l r => isDisjunction l && isConjunction r
  | _ => isConjunction e
  end.

(** Tokens as the tokenizer emits them, and as the negation pass leaves
    them. *)
Definition leafToken (t : Token) : bool :=
  match t with
  | TExpr e => isLeaf e
  | _ => true
  end.

Definition literalToken (t : Token) : bool :=
  match t with
  | TExpr e => isLiteral e
  | TOp _ => true
  | TNot => false
  end.

(** A token sequence that does not start with a predicate. *)
Definition noPredicateAhead (toks : list Token) : Prop :=
  match toks with
  | TExpr _ :: _ => False
  | _ => True
  end.

End Shape.

(** The flags that read a value into a token. *)
Definition valueFlags : list string :=
  ["-name"; "-iname"; "-path"; "-ipath"; "-type"; "-mtime"; "-newer"; "-size"].

(** Whether a token sequence has a negation marker. *)
Definition hasNegation (toks : list Find.Token) : bool :=
  existsb (fun t => match t with Find.TNot => true | _ => false end) toks.

(** An argument that both loops over the arguments read as a path: it
    does not start with a dash and is none of [;], [+] and [!]. *)
Definition pathArgument (p : string) : Prop :=
  JS.startsWith p "-" = false /\ p <> ";" /\ p <> "+" /\ p <> "!".

(** The host calls that read the file system. *)
Definition isRead (ev : Find.Event) : bool :=
  match ev with
  | Find.EvStat _ | Find.EvReaddir _ => true
  | _ => false
  end.

(** What a step of the traversal may do to its state: the store is
    kept, the trace gets read calls at its end, and the results get, at
    their end, paths that start with the search path. *)
Definition grows {σ : Type} (env : Find.Env) (s s' : Find.TravState (σ:=σ)) : Prop :=
  Find.store (Find.world s') = Find.store (Find.world s)
  /\ (exists evs, Find.trace (Find.world s') = Find.trace (Find.world s) ++ evs
                  /\ Forall (fun ev => isRead ev = true) evs)
  /\ (exists new, Find.results s' = Find.results s ++ new
                  /\ Forall (fun r => JS.startsWith r (Find.searchPath env) = true) new).

(** A computation every run of which, however it ends, relates the
    state before to the state after. *)
Definition keeps {S A : Type} (R : S -> S -> Prop) (m : Find.M S A) : Prop :=
  forall s o s', m s = (o, s') -> R s s'.

Definition growing {σ A : Type} (env : Find.Env)
    (m : Find.M (Find.TravState (σ:=σ)) A) : Prop :=
  keeps (grows env) m.

(** A computation that reports nothing. *)
Definition quiet {σ A : Type} (m : Find.M (Find.TravState (σ:=σ)) A) : Prop :=
  keeps (fun s s' => Find.results s' = Find.results s) m.

(** The traversal variables without the upper depth bound. *)
Definition withoutMaxDepth (env : Find.Env) : Find.Env :=
  {| Find.searchPath := Find.searchPath env; Find.maxDepth := None;
     Find.minDepth := Find.minDepth env; Find.basePath := Find.basePath env;
     Find.theExpr := Find.theExpr env; Find.refTimes := Find.refTimes env |}.

(** An expression none of whose name and path patterns has a bracket. *)
Fixpoint classFree (e : Find.Expression) : bool :=
  match e with
  | Find.EName p _ | Find.EPath p _ => negb (JS.is_one_of "[" p)
  | Find.ENot inner => classFree inner
  | Find.EAnd l r | Find.EOr l r => classFree l && classFree r
  | _ => true
  end.

(** A computation no run of which raises. *)
Definition neverRaises {S A : Type} (m : Find.M S A) : Prop :=
  forall s o s', m s = (o, s') -> forall x, o <> Find.Raised x.

(** A node of the given size, and a node of the given modification
    time, for the evaluator. *)
Definition nodeOfSize (bytes : Z) : Find.EvalContext :=
  {| Find.name := "n"; Find.relativePath := "./n"; Find.isFile := true;
     Find.isDirectory := false; Find.isEmpty := false; Find.mtime := 0;
     Find.size := bytes; Find.newerRefTimes := ∅ |}.

(** A predicate of expressions seen at the tokens. *)
Definition tokenAll (P : Find.Expression -> bool) (t : Find.Token) : bool :=
  match t with
  | Find.TExpr e => P e
  | _ => true
  end.

Definition isExec (a : Find.FindAction) : bool :=
  match a with
  | Find.AExec _ _ => true
  | _ => false
  end.

(** The command line that [-exec ... ;] composes for one match. *)
Definition commandLine (command : list string) (file : string) : string :=
  Find.quoted (map (fun part => if Find.streq part "{}" then file else part) command).

(** What the commands of [-exec ... ;] return, one match after the other,
    each run on the store that the one before has left; and the store
    after the last. *)
Fixpoint execRuns {σ : Type} (run : σ -> string -> Find.ExecResult * σ)
    (command : list string) (files : list string) (store : σ)
    : list Find.ExecResult * σ :=
  match files with
  | [] => ([], store)
  | file :: r =>
      let '(result, store') := run store (commandLine command file) in
      let '(results, final) := execRuns run command r store' in
      (result :: results, final)
  end.

(** The exit code kept after a run: that of the last command that has
    failed, if any. *)
Definition keepFailure (code : Z) (result : Find.ExecResult) : Z :=
  if Find.exitCode result =? 0 then code else Find.exitCode result.

(** A command-execution capability for the scenario: the store is the
    list of the command lines run so far; a command whose first word
    starts with [b] fails with exit code 2. *)
Definition shell : Find.CommandContext (list string) :=
  {| Find.fs := Scenario.guarded; Find.cwd := "/work";
     Find.exec := Some (fun ran cmd =>
       ({| Find.stdout := cmd +:+ Find.LF; Find.stderr := EmptyString;
           Find.exitCode := if JS.startsWith cmd (Find.DQUOTE +:+ "b") then 2 else 0 |},
        ran ++ [cmd])) |}.

(** The reference paths of the [-newer] predicates of an expression, in
    the order of the expression, repetitions kept. *)
Fixpoint newerRefs (e : Find.Expression) : list string :=
  match e with
  | Find.ENewer refPath => [refPath]
  | Find.ENot inner => newerRefs inner
  | Find.EAnd l r | Find.EOr l r => newerRefs l ++ newerRefs r
  | _ => []
  end.

(** Two computations of the traversal that walk the file system alike:
    from states with the same world, and unless one of them raises, they
    end the same way (both complete, with results related by [Q], or both
    run out of fuel) in states with the same world. *)
Definition walks {σ A B : Type} (Q : A -> B -> Prop)
    (m1 : Find.M (Find.TravState (σ:=σ)) A) (m2 : Find.M (Find.TravState (σ:=σ)) B)
    : Prop :=
  forall s1 s2 o1 o2 s1' s2',
    Find.world s1 = Find.world s2 ->
    m1 s1 = (o1, s1') -> m2 s2 = (o2, s2') ->
    (forall x, o1 <> Find.Raised x) -> (forall x, o2 <> Find.Raised x) ->
    Find.world s1' = Find.world s2'
    /\ match o1, o2 with
       | Find.Done a, Find.Done b => Q a b
       | Find.OutOfFuel, Find.OutOfFuel => True
       | _, _ => False
       end.

(** A computation no run of which is cut short for want of fuel. *)
Definition finishes {S A : Type} (m : Find.M S A) : Prop :=
  forall s o s', m s = (o, s') -> o <> Find.OutOfFuel.

(** The path of an entry of a directory, as the traversal composes it. *)
Definition entryPath (directory entry : string) : string :=
  if Find.streq directory "/" then "/" +:+ entry else directory +:+ "/" +:+ entry.

(** The traversal variables for [find -mindepth 1 -name "[abc"], whose
    pattern cannot be compiled. *)
Definition belowRootUnclosed : Find.Env :=
  Scenario.belowRoot (Some (Find.EName "[abc" None)).

(** How an argument list writes a token sequence: every spelling of the
    negation, of the two connectives and of the predicates with a
    well-formed value. *)

Module Spelling.
Import Find.

(** A numeral is given by the values of its decimal digits, the most
    significant first. *)
Definition digitChar (d : nat) : ascii := ascii_of_nat (48 + d).

Definition numeral (ds : list nat) : string :=
  fold_right (fun d s => String (digitChar d) s) EmptyString ds.

Definition numeralValue (ds : list nat) : Z :=
  fold_left (fun a d => 10 * a + Z.of_nat d) ds 0.

(** The numerals of the properties: at least one digit, and a value
    below 2^53, which the number type of the source holds exactly. *)
Definition digitsOk (ds : list nat) : Prop :=
  ds <> [] /\ Forall (fun d => (d < 10)%nat) ds /\ numeralValue ds < 2 ^ 53.

Definition signOf (c : Comparison) : string :=
  match c with
  | More => "+"
  | Less => "-"
  | Exact => EmptyString
  end.

(** The unit letter of a size, when one is written; blocks when none
    is. *)
Definition unitLetter (u : option SizeUnit) : string :=
  match u with
  | None => EmptyString
  | Some UnitC => "c"
  | Some UnitK => "k"
  | Some UnitM => "M"
  | Some UnitG => "G"
  | Some UnitB => "b"
  end.

Definition unitRead (u : option SizeUnit) : SizeUnit := default UnitB u.

(** A text that does not begin with a decimal digit. *)
Definition noDigitAhead (s : string) : Prop :=
  match s with
  | String c _ => JS.digit c = None
  | EmptyString => True
  end.

Inductive spells : list string -> Token -> Prop :=
| spells_bang : spells ["!"] TNot
| spells_not : spells ["-not"] TNot
| spells_a : spells ["-a"] (TOp OpAnd)
| spells_and : spells ["-and"] (TOp OpAnd)
| spells_o : spells ["-o"] (TOp OpOr)
| spells_or : spells ["-or"] (TOp OpOr)
| spells_name (p : string) : spells ["-name"; p] (TExpr (EName p None))
| spells_iname (p : string) : spells ["-iname"; p] (TExpr (EName p (Some true)))
| spells_path (p : string) : spells ["-path"; p] (TExpr (EPath p None))
| spells_ipath (p : string) : spells ["-ipath"; p] (TExpr (EPath p (Some true)))
| spells_type_f : spells ["-type"; "f"] (TExpr (EType TypeF))
| spells_type_d : spells ["-type"; "d"] (TExpr (EType TypeD))
| spells_empty : spells ["-empty"] (TExpr EEmpty)
| spells_newer (r : string) : spells ["-newer"; r] (TExpr (ENewer r))
| spells_mtime (c : Comparison) (ds : list nat) :
    digitsOk ds ->
    spells ["-mtime"; signOf c +:+ numeral ds] (TExpr (EMtime (numeralValue ds) c))
| spells_size (c : Comparison) (ds : list nat) (u : option SizeUnit) :
    digitsOk ds ->
    spells ["-size"; signOf c +:+ numeral ds +:+ unitLetter u]
      (TExpr (ESize (numeralValue ds) (unitRead u) c)).

Inductive writes : list string -> list Token -> Prop :=
| writes_nil : writes [] []
| writes_cons (ws args : list string) (t : Token) (toks : list Token) :
    spells ws t -> writes args toks -> writes (ws ++ args) (t :: toks).

(** [-not -name a -and -mtime +7 -or -size 2k] *)
Definition sample : Grammar.Disjunction :=
  {| Grammar.firstGroup :=
       {| Grammar.first := {| Grammar.negated := true;
                              Grammar.predicate := EName "a" None |};
          Grammar.others :=
            [{| Grammar.explicitAnd := true;
                Grammar.literal := {| Grammar.negated := false;
                                      Grammar.predicate := EMtime 7 More |} |}] |};
     Grammar.otherGroups :=
       [{| Grammar.first := {| Grammar.negated := false;
                               Grammar.predicate := ESize 2 UnitK Exact |};
           Grammar.others := [] |}] |}.

End Spelling.

(** ** Properties of the expression builder and of the evaluator *)

Section Precedence.
Import Find Grammar.

Lemma foldNot_literal (l : Literal) (rest : list Token) :
  foldNot (litTokens l ++ rest) = TExpr (litExpr l) :: foldNot rest.
Proof. unfold litTokens, litExpr. destruct (negated l); reflexivity. Qed.

Lemma foldNot_conjunct (c : Conjunct) (rest : list Token) :
  foldNot (conjTokens c ++ rest)
  = (if explicitAnd c then [TOp OpAnd] else []) ++ TExpr (litExpr (literal c)) :: foldNot rest.
Proof.
  unfold conjTokens. rewrite <- app_assoc.
  destruct (explicitAnd c); simpl; now rewrite foldNot_literal.
Qed.

(** What the grouping pass does on the tokens of one conjunct. *)
Lemma groupStep_conjunct (c : Conjunct) (rest : list Token) closed current :
  fold_left groupStep
    ((if explicitAnd c then [TOp OpAnd] else []) ++ TExpr (litExpr (literal c)) :: rest)
    (closed, current)
  = fold_left groupStep rest (closed, current ++ [litExpr (literal c)]).
Proof. destruct (explicitAnd c); reflexivity. Qed.

Lemma foldNot_conjuncts (cs : list Conjunct) (rest : list Token) closed current :
  fold_left groupStep (foldNot (flat_map conjTokens cs ++ rest)) (closed, current)
  = fold_left groupStep (foldNot rest)
      (closed, current ++ map (fun c => litExpr (literal c)) cs).
Proof.
  revert current. induction cs as [|c cs IH]; intros current; simpl.
  - now rewrite app_nil_r.
  - rewrite <- app_assoc, foldNot_conjunct, groupStep_conjunct, IH.
    now rewrite <- app_assoc.
Qed.

Lemma foldNot_group (g : Group) (rest : list Token) closed current :
  fold_left groupStep (foldNot (groupTokens g ++ rest)) (closed, current)
  = fold_left groupStep (foldNot rest) (closed, current ++ groupExprs g).
Proof.
  unfold groupTokens, groupExprs. rewrite <- app_assoc, foldNot_literal. simpl.
  rewrite foldNot_conjuncts. now rewrite <- app_assoc.
Qed.

Lemma foldNot_groups (gs : list Group) closed current :
  (let '(c, cur) :=
     fold_left groupStep
       (foldNot (flat_map (fun g => TOp OpOr :: groupTokens g) gs)) (closed, current) in
   c ++ [cur]) = closed ++ current :: map groupExprs gs.
Proof.
  revert closed current. induction gs as [|g gs IH]; intros closed current.
  - reflexivity.
  - cbn [flat_map map].
    change (foldNot ((TOp OpOr :: groupTokens g) ++ ?r))
      with (TOp OpOr :: foldNot (groupTokens g ++ r)).
    cbn [fold_left groupStep]. rewrite foldNot_group, IH.
    now rewrite <- app_assoc.
Qed.

Lemma orGroups_disjunction (d : Disjunction) :
  orGroups (foldNot (disjTokens d))
  = map groupExprs (firstGroup d :: otherGroups d).
Proof.
  unfold orGroups, disjTokens.
  rewrite (foldNot_group (firstGroup d) _ [] []).
  apply (foldNot_groups (otherGroups d) [] ([] ++ groupExprs (firstGroup d))).
Qed.

Lemma andResults_groups (gs : list Group) :
  andResults (map groupExprs gs) = map groupExpr gs.
Proof.
  unfold andResults. induction gs as [|g gs IH]; [reflexivity|].
  cbn [map omap list_omap]. change (chain EAnd (groupExprs g)) with (Some (groupExpr g)).
  simpl. now f_equal.
Qed.

Lemma buildTree_disjunction (d : Disjunction) :
  buildTree (disjTokens d) = Some (disjExpr d).
Proof.
  unfold buildTree. rewrite orGroups_disjunction, andResults_groups. reflexivity.
Qed.

(** The tokenizer on the argument list of the precedence law, for any
    three patterns. *)
Lemma parse_a_or_b_and_c (a b c : string) :
  parseExpressions ["-name"; a; "-o"; "-name"; b; "-a"; "-name"; c] 0
  = Some {| expr := Some (EOr (EName a None) (EAnd (EName b None) (EName c None)));
            pathIndex := 8; error := None; actions := [] |}.
Proof. reflexivity. Qed.

End Precedence.


Section Evaluation.
Import Find.

Lemma ceilDiv_512_one (a : Z) : ceilDiv a 512 = 1 <-> 0 < a <= 512.
Proof.
  unfold ceilDiv.
  pose proof (Z.div_mod (- a) 512 ltac:(lia)) as Hdm.
  pose proof (Z.mod_pos_bound (- a) 512 ltac:(lia)) as Hb.
  lia.
Qed.

(** C4.  The size predicate with value 1, unit 512-byte blocks and exact
    comparison is true exactly on the contexts whose byte size is in the
    half-open interval (0, 512]; it is false on a 0-byte file and on a
    513-byte file. *)
Theorem size_one_block_exact :
  (forall (now : Z) (ctx : EvalContext),
     evaluateExpression now (ESize 1 UnitB Exact) ctx
     = Normal (bool_decide (0 < size ctx <= 512)))
  /\ (forall now n p f d e m t,
        evaluateExpression now (ESize 1 UnitB Exact)
          {| name := n; relativePath := p; isFile := f; isDirectory := d;
             isEmpty := e; mtime := m; size := 0; newerRefTimes := t |}
        = Normal false)
  /\ (forall now n p f d e m t,
        evaluateExpression now (ESize 1 UnitB Exact)
          {| name := n; relativePath := p; isFile := f; isDirectory := d;
             isEmpty := e; mtime := m; size := 513; newerRefTimes := t |}
        = Normal false).
Proof.
  split; [|split; reflexivity].
  intros now ctx. cbn [evaluateExpression]. f_equal.
  pose proof (ceilDiv_512_one (size ctx)) as H.
  destruct (Z.eqb_spec (ceilDiv (size ctx) 512) 1) as [E|E].
  - symmetry. apply bool_decide_eq_true_2. tauto.
  - symmetry. apply bool_decide_eq_false_2. tauto.
Qed.

(** C5.  For every expression and every evaluation context, evaluating
    the negation of the expression yields the boolean negation of
    evaluating the expression: the one returns [b] exactly when the other
    returns [negb b], and the one raises exactly when the other does. *)
Theorem negation_law (now : Z) (e : Expression) (ctx : EvalContext) :
  evaluateExpression now (ENot e) ctx
  = completion_map negb (evaluateExpression now e ctx)
  /\ (forall b : bool,
        evaluateExpression now e ctx = Normal b
        <-> evaluateExpression now (ENot e) ctx = Normal (negb b))
  /\ (forall x : exn,
        evaluateExpression now e ctx = Throw x
        <-> evaluateExpression now (ENot e) ctx = Throw x).
Proof.
  split; [reflexivity|]. cbn [evaluateExpression].
  destruct (evaluateExpression now e ctx) as [v|x']; cbn; split.
  - intros b. split; [now intros [= ->]|].
    intros [= H]. f_equal. now destruct v, b.
  - intros x. split; discriminate.
  - intros b. split; discriminate.
  - intros x. split; now intros [= ->].
Qed.

End Evaluation.

Section Newer.
Import Find.
Context {σ : Type} (ctx : CommandContext σ) (now : Z).

Lemma resolveNewerRefs_lookup (e : Expression) (table : gmap string Z) (w : World σ) :
  exists table' evs,
    resolveNewerRefs ctx now e table w
    = (Done table', Build_World (store w) (trace w ++ evs))
    /\ forall ref,
         table' !! ref
         = if mentions ref e
           then match refTime ctx now (store w) ref with
                | Some t => Some t
                | None => table !! ref
                end
           else table !! ref.
Proof.
  revert table w.
  induction e as [| | | | | refPath | | e IH | l IHl r IHr | l IHl r IHr];
    intros table w;
    try (exists table, []; rewrite app_nil_r; destruct w; split; [reflexivity|];
         intros ref; reflexivity).
  - (* newer *)
    cbn [resolveNewerRefs mentions]. unfold bind, doStat, refTime. cbn.
    destruct (stat (fs ctx) (store w) (resolvePath (fs ctx) (cwd ctx) refPath))
      as [st|] eqn:Hst.
    + eexists _, _. split; [reflexivity|]. intros ref. unfold streq.
      destruct (String.eqb_spec refPath ref) as [->|Hne].
      * rewrite Hst. cbn. apply lookup_insert_eq.
      * now rewrite lookup_insert_ne.
    + eexists _, _. split; [reflexivity|]. intros ref. unfold streq.
      destruct (String.eqb_spec refPath ref) as [->|Hne]; [|reflexivity].
      now rewrite Hst.
  - (* not *) apply IH.
  - (* and *)
    cbn [resolveNewerRefs mentions]. unfold bind.
    destruct (IHl table w) as (t1 & ev1 & -> & H1).
    destruct (IHr t1 (Build_World (store w) (trace w ++ ev1))) as (t2 & ev2 & -> & H2).
    cbn [store trace] in *. exists t2, (ev1 ++ ev2). rewrite app_assoc.
    split; [reflexivity|]. intros ref. rewrite H2, H1.
    destruct (mentions ref l), (mentions ref r), (refTime ctx now (store w) ref); reflexivity.
  - (* or *)
    cbn [resolveNewerRefs mentions]. unfold bind.
    destruct (IHl table w) as (t1 & ev1 & -> & H1).
    destruct (IHr t1 (Build_World (store w) (trace w ++ ev1))) as (t2 & ev2 & -> & H2).
    cbn [store trace] in *. exists t2, (ev1 ++ ev2). rewrite app_assoc.
    split; [reflexivity|]. intros ref. rewrite H2, H1.
    destruct (mentions ref l), (mentions ref r), (refTime ctx now (store w) ref); reflexivity.
Qed.

(** C6.  After the references of an expression have been resolved, the
    predicate [newer ref] of that expression is true on a node exactly
    when the node's modification time is strictly greater than the
    modification time recorded for the reference file (the current time
    when the file's metadata carries none); when the reference cannot be
    stat'ed the predicate is false on every node.  Neither the resolution
    nor the evaluation raises. *)
Theorem newer_predicate (e : Expression) (ref : string) (w : World σ) :
  mentions ref e = true ->
  exists table w',
    resolveNewerRefs ctx now e ∅ w = (Done table, w')
    /\ store w' = store w
    /\ forall c : EvalContext,
         newerRefTimes c = table ->
         evaluateExpression now (ENewer ref) c
         = Normal
             match stat (fs ctx) (store w) (resolvePath (fs ctx) (cwd ctx) ref) with
             | Some st => bool_decide (default now (Stat.mtime st) < mtime c)
             | None => false
             end.
Proof.
  intros Hm.
  destruct (resolveNewerRefs_lookup e ∅ w) as (table & evs & Hrun & Hlook).
  exists table, (Build_World (store w) (trace w ++ evs)).
  split; [exact Hrun|]. split; [reflexivity|].
  intros c Hc. cbn [evaluateExpression]. rewrite Hc, Hlook, Hm. unfold refTime.
  destruct (stat (fs ctx) (store w) (resolvePath (fs ctx) (cwd ctx) ref)) as [st|]; cbn.
  - f_equal. destruct (Z.ltb_spec (default now (Stat.mtime st)) (mtime c)).
    + symmetry. now apply bool_decide_eq_true_2.
    + symmetry. apply bool_decide_eq_false_2. lia.
  - now rewrite lookup_empty.
Qed.

End Newer.

Lemma newer_predicate_witness :
  exists table w',
    Find.resolveNewerRefs Scenario.context 0
      (Find.EAnd (Find.EName "*.log" None) (Find.ENewer "a.txt")) ∅ Scenario.untouched
    = (Find.Done table, w')
    /\ Find.store w' = Find.store Scenario.untouched
    /\ forall c : Find.EvalContext,
         Find.newerRefTimes c = table ->
         Find.evaluateExpression 0 (Find.ENewer "a.txt") c
         = Normal
             match Find.stat (Find.fs Scenario.context) (Find.store Scenario.untouched)
                     (Find.resolvePath (Find.fs Scenario.context)
                        (Find.cwd Scenario.context) "a.txt") with
             | Some st => bool_decide (default 0 (Find.Stat.mtime st) < Find.mtime c)
             | None => false
             end.
Proof.
  apply (newer_predicate Scenario.context 0
           (Find.EAnd (Find.EName "*.log" None) (Find.ENewer "a.txt")) "a.txt"
           Scenario.untouched).
  reflexivity.
Defined.

(** ** Properties of the tokenizer *)

Section Tokenizer.
Import Find Scan.

Lemma scanStep_progress (args : list string) (st st' : ScanState) :
  scanStep args st = Continue st' -> (scan_i st < scan_i st')%nat.
Proof.
  unfold scanStep, failWith. intros H.
  repeat case_match; simplify_eq; cbn; lia.
Qed.

(** The fuel given to the scanning loop is enough. *)
Lemma scanLoop_total (args : list string) (fuel : nat) (st : ScanState) :
  (length args - scan_i st < fuel)%nat -> is_Some (scanLoop fuel args st).
Proof.
  revert st. induction fuel as [|fuel IH]; intros st Hf; [lia|].
  cbn [scanLoop]. case_bool_decide; [|eauto].
  destruct (scanStep args st) as [st'| |] eqn:Hs; eauto.
  apply IH. apply scanStep_progress in Hs. lia.
Qed.

Lemma scanLoop_fuel (args : list string) (f1 f2 : nat) (st : ScanState) :
  (length args - scan_i st < f1)%nat ->
  (length args - scan_i st < f2)%nat ->
  scanLoop f1 args st = scanLoop f2 args st.
Proof.
  revert f2 st. induction f1 as [|f1 IH]; intros f2 st H1 H2; [lia|].
  destruct f2 as [|f2]; [lia|].
  cbn [scanLoop]. case_bool_decide; [|reflexivity].
  destruct (scanStep args st) as [st'| |] eqn:Hs; try reflexivity.
  apply scanStep_progress in Hs. apply IH; lia.
Qed.

Lemma reaches_ge (args : list string) (start : nat) (st : ScanState) :
  reaches args start st -> (start <= scan_i st)%nat.
Proof.
  induction 1 as [|st st' _ IH _ Hs]; [reflexivity|].
  apply scanStep_progress in Hs. lia.
Qed.

(** The loop started at the start index passes through every reached
    state. *)
Lemma scanLoop_reaches (args : list string) (start : nat) (st : ScanState) (fuel : nat) :
  reaches args start st ->
  (length args - start < fuel)%nat ->
  scanLoop fuel args (initial start) = scanLoop fuel args st.
Proof.
  intros Hr Hf. induction Hr as [|st st' Hr IH Hlt Hs]; [reflexivity|].
  rewrite IH. pose proof (reaches_ge _ _ _ Hr) as Hge.
  pose proof (scanStep_progress _ _ _ Hs) as Hp.
  destruct fuel as [|fuel]; [lia|].
  transitivity (scanLoop fuel args st').
  - cbn [scanLoop]. rewrite bool_decide_eq_true_2 by exact Hlt. now rewrite Hs.
  - apply scanLoop_fuel; lia.
Qed.

Theorem parseExpressions_total (args : list string) (start : nat) :
  is_Some (parseExpressions args start).
Proof.
  unfold parseExpressions.
  destruct (scanLoop_total args (S (length args)) (initial start)) as [r Hr];
    [cbn; lia|].
  unfold initial in Hr. rewrite Hr. destruct r; eauto.
Qed.

(** A [return] inside the loop at a reached state is the result of the
    parse. *)
Lemma parse_fails_at (args : list string) (st : ScanState) (r : ParseResult) :
  reaches args 0 st ->
  (scan_i st < length args)%nat ->
  scanStep args st = Fail r ->
  parseExpressions args 0 = Some r.
Proof.
  intros Hr Hlt Hs. unfold parseExpressions.
  change {| scan_i := 0; scan_tokens := []; scan_actions := [] |} with (initial 0).
  rewrite (scanLoop_reaches args 0 st) by (assumption || lia).
  cbn [scanLoop]. rewrite bool_decide_eq_true_2 by exact Hlt. now rewrite Hs.
Qed.

(** When the scan arrives at the end of the arguments, the parse is the
    tree built from the tokens read. *)
Lemma parse_finishes_at (args : list string) (st : ScanState) :
  reaches args 0 st ->
  (length args <= scan_i st)%nat ->
  parseExpressions args 0 = Some (finish st).
Proof.
  intros Hr Hge. unfold parseExpressions.
  change {| scan_i := 0; scan_tokens := []; scan_actions := [] |} with (initial 0).
  rewrite (scanLoop_reaches args 0 st) by (assumption || lia).
  cbn [scanLoop]. now rewrite bool_decide_eq_false_2 by lia.
Qed.

Lemma scanStep_unknown (args : list string) (st : ScanState) (arg : string) :
  args !! scan_i st = Some arg ->
  unrecognizedFlag arg = true ->
  scanStep args st
  = failWith (scan_i st) ("find: unknown predicate '" +:+ arg +:+ "'" +:+ LF).
Proof.
  intros Harg Hu. unfold unrecognizedFlag in Hu.
  apply andb_true_iff in Hu as [Hdash Hnone].
  apply negb_true_iff in Hnone. cbn [existsb recognized] in Hnone.
  repeat (apply orb_false_iff in Hnone as [? Hnone]).
  unfold scanStep. rewrite Harg.
  repeat match goal with H : streq arg _ = false |- _ => rewrite H; clear H end.
  cbn [andb orb]. now rewrite Hdash.
Qed.

Lemma scanStep_exec_unterminated (args : list string) (st : ScanState) :
  args !! scan_i st = Some "-exec" ->
  (execParts (drop (scan_i st + 1) args)).2 = None ->
  scanStep args st
  = failWith (scan_i st + 1 + length (execParts (drop (scan_i st + 1) args)).1)
      ("find: missing argument to `-exec'" +:+ LF).
Proof.
  intros Harg Hnone. unfold scanStep. rewrite Harg. cbn.
  destruct (execParts (drop (scan_i st + 1) args)) as [parts t]. cbn in *.
  now subst t.
Qed.

End Tokenizer.

(** ** From the arguments to the tree *)

Section ArgumentsToTree.
Import Find Grammar.

(** One iteration of the scanning loop reads the arguments of one
    writable token. *)
Lemma scanStep_token (pre rest : list string) (t : Token) (st : ScanState) :
  writable t ->
  scan_i st = length pre ->
  scanStep (pre ++ default [] (tokenArgs t) ++ rest) st
  = Continue {| scan_i := scan_i st + length (default [] (tokenArgs t));
                scan_tokens := scan_tokens st ++ [t];
                scan_actions := scan_actions st |}.
Proof.
  intros [ws Hws] Hi. rewrite Hws. change (default [] (Some ws)) with ws.
  unfold scanStep. rewrite Hi.
  assert (H0 : forall w l, (pre ++ (w :: l) ++ rest) !! length pre = Some w).
  { intros w l. rewrite lookup_app_r by lia. now rewrite Nat.sub_diag. }
  assert (H1 : forall w v l,
            (pre ++ (w :: v :: l) ++ rest) !! (length pre + 1)%nat = Some v).
  { intros w v l. rewrite lookup_app_r by lia.
    now replace (length pre + 1 - length pre)%nat with 1%nat by lia. }
  assert (H2 : forall w v l,
            bool_decide (length pre + 1 < length (pre ++ (w :: v :: l) ++ rest))%nat
            = true).
  { intros w v l. apply bool_decide_eq_true_2. rewrite !length_app. cbn. lia. }
  destruct t as [e|[]|]; cbn in Hws.
  - destruct e as [p [[]|]|p [[]|]|[]| | |r| | | |]; try discriminate Hws;
      injection Hws as <-; rewrite H0, ?H1, ?H2; reflexivity.
  - injection Hws as <-. now rewrite H0.
  - injection Hws as <-. now rewrite H0.
  - injection Hws as <-. now rewrite H0.
Qed.

(** The scan of the arguments that write a token sequence arrives at
    their end with these tokens. *)
Lemma reaches_tokens (toks : list Token) (pre rest : list string) (st : ScanState) :
  Forall writable toks ->
  Scan.reaches (pre ++ argsOf toks ++ rest) 0 st ->
  scan_i st = length pre ->
  Scan.reaches (pre ++ argsOf toks ++ rest) 0
    {| scan_i := length pre + length (argsOf toks);
       scan_tokens := scan_tokens st ++ toks;
       scan_actions := scan_actions st |}.
Proof.
  revert pre st. induction toks as [|t toks IH]; intros pre st Hw Hr Hi.
  - cbn. rewrite Nat.add_0_r, app_nil_r, <- Hi. now destruct st.
  - apply Forall_cons in Hw as [Ht Hw].
    unfold argsOf in *. cbn [flat_map] in *.
    set (ws := default [] (tokenArgs t)) in *.
    assert (Hlen : (0 < length ws)%nat).
    { destruct Ht as [x Hx]. subst ws. rewrite Hx. cbn.
      destruct t as [e|[]|]; cbn in Hx; try (injection Hx as <-; cbn; lia).
      destruct e as [p [[]|]|p [[]|]|[]| | |r| | | |]; try discriminate Hx;
        injection Hx as <-; cbn; lia. }
    rewrite <- (app_assoc ws) in *.
    assert (Hstep := scanStep_token pre (flat_map (fun t => default [] (tokenArgs t)) toks
                                           ++ rest) t st Ht Hi).
    fold ws in Hstep.
    assert (Hlt : (scan_i st
                   < length (pre ++ ws ++ flat_map (fun t => default [] (tokenArgs t)) toks
                             ++ rest))%nat).
    { rewrite Hi, !length_app. lia. }
    assert (Hr' := Scan.reaches_step _ _ _ _ Hr Hlt Hstep).
    rewrite (app_assoc pre ws) in Hr' |- *.
    assert (Hi' : scan_i {| scan_i := scan_i st + length ws;
                            scan_tokens := scan_tokens st ++ [t];
                            scan_actions := scan_actions st |} = length (pre ++ ws)).
    { cbn. rewrite Hi, length_app. lia. }
    specialize (IH (pre ++ ws) _ Hw Hr' Hi').
    cbn [scan_tokens scan_actions] in IH.
    match type of IH with Scan.reaches _ _ ?s' =>
      match goal with |- Scan.reaches _ _ ?s => replace s with s'; [exact IH|] end
    end.
    f_equal; [rewrite !length_app; lia|now rewrite <- app_assoc].
Qed.

(** The arguments that write a token sequence parse to the tree built
    from these tokens. *)
Lemma parse_written (toks : list Token) :
  Forall writable toks ->
  parseExpressions (argsOf toks) 0
  = Some {| expr := buildTree toks; pathIndex := length (argsOf toks);
            error := None; actions := [] |}.
Proof.
  intros Hw.
  pose proof (reaches_tokens toks [] [] (Scan.initial 0) Hw) as Hr.
  rewrite app_nil_r in Hr. cbn [app length Nat.add Scan.initial scan_tokens scan_actions scan_i] in Hr.
  specialize (Hr (Scan.reaches_start _ _) eq_refl).
  rewrite (parse_finishes_at _ _ Hr) by (cbn; lia).
  unfold finish. cbn [scan_tokens scan_actions scan_i].
  now destruct toks.
Qed.

End ArgumentsToTree.

Section MalformedNumbers.
Import Find Scan.

Lemma digits_Some (a : Z) (s : string) : is_Some (JS.digits (Some a) s).
Proof.
  revert a. induction s as [|c r IH]; intros a; cbn; [eauto|].
  destruct (JS.digit c); [apply IH|eauto].
Qed.

Lemma parseInt_NaN (s : string) :
  JS.parseInt s = JS.NaN <-> startsWithInteger s = false.
Proof.
  unfold JS.parseInt, startsWithInteger.
  destruct (JS.trimStart s) as [|c r]; [cbn; tauto|].
  assert (Hd : forall t, JS.digits None t = None <->
                match t with
                | String c _ => match JS.digit c with Some _ => true | None => false end
                | EmptyString => false
                end = false).
  { intros [|c' r']; cbn; [tauto|].
    destruct (JS.digit c') as [d|]; [|tauto].
    destruct (digits_Some (10 * 0 + d) r') as [v Hv]. rewrite Hv. split; discriminate. }
  assert (Hk : forall t sign,
             match JS.digits None t with
             | Some v => JS.Num (sign * v)
             | None => JS.NaN
             end = JS.NaN <-> JS.digits None t = None).
  { intros t sign. destruct (JS.digits None t); split; congruence. }
  destruct (Ascii.eqb c "-"); cbn [orb].
  - rewrite Hk. apply Hd.
  - destruct (Ascii.eqb c "+"); rewrite Hk; apply Hd.
Qed.

Lemma append_cons (c : ascii) (a b : string) : String c a +:+ b = String c (a +:+ b).
Proof. reflexivity. Qed.

Lemma append_empty_r (a : string) : a +:+ EmptyString = a.
Proof. induction a as [|c a IH]; [reflexivity|]. now rewrite append_cons, IH. Qed.

Lemma leadingDigits_split (s : string) : s = leadingDigits s +:+ afterDigits s.
Proof.
  induction s as [|c r IH]; [reflexivity|]. cbn [leadingDigits afterDigits].
  destruct (JS.digit c); [|reflexivity].
  rewrite append_cons. now f_equal.
Qed.

Lemma leadingDigits_allDigits (s : string) : allDigits (leadingDigits s) = true.
Proof.
  induction s as [|c r IH]; [reflexivity|]. cbn.
  destruct (JS.digit c) eqn:E; [cbn; now rewrite E|reflexivity].
Qed.

Lemma digits_None_leading (s : string) :
  JS.digits None s <> None -> isNumeral (leadingDigits s) = true.
Proof.
  destruct s as [|c r]; cbn; [congruence|].
  destruct (JS.digit c) eqn:E; [|congruence].
  intros _. cbn. rewrite E. apply leadingDigits_allDigits.
Qed.

Lemma unitOf_letter (u : ascii) : is_Some (unitOf u) -> JS.is_one_of u "ckMGb" = true.
Proof.
  unfold unitOf. cbn. intros [x Hx].
  repeat (destruct (Ascii.eqb u _); [reflexivity|]). discriminate.
Qed.

(** The size pattern accepts size literals only. *)
Lemma sizeMatch_literal (s : string) : is_Some (sizeMatch s) -> SizeLiteral s.
Proof.
  unfold sizeMatch. intros [x Hx].
  destruct (JS.digits None s) as [v|] eqn:Hv; [|discriminate].
  assert (Hn : isNumeral (leadingDigits s) = true)
    by (apply digits_None_leading; congruence).
  pose proof (leadingDigits_split s) as Hs.
  destruct (afterDigits s) as [|u [|u' r]]; [| |discriminate].
  - exists (leadingDigits s). split; [exact Hn|]. left.
    rewrite Hs at 1. apply append_empty_r.
  - exists (leadingDigits s). split; [exact Hn|]. right. exists u. split; [|exact Hs].
    apply unitOf_letter. destruct (unitOf u); [eauto|discriminate].
Qed.

(** Where malformed numbers are dropped.  A [-mtime] whose value body
    does not begin with a decimal integer, and a [-size] whose value body
    is not a numeral optionally followed by one unit letter, emit no
    predicate token and raise no error: the loop continues after the
    value argument with its tokens and actions unchanged. *)
Theorem malformed_number_dropped (args : list string) (st : ScanState) (v : string) :
  args !! (scan_i st + 1)%nat = Some v ->
  (args !! scan_i st = Some "-mtime" ->
   startsWithInteger (splitSign v).2 = false ->
   scanStep args st
   = Continue {| scan_i := scan_i st + 2; scan_tokens := scan_tokens st;
                 scan_actions := scan_actions st |})
  /\ (args !! scan_i st = Some "-size" ->
      ~ SizeLiteral (splitSign v).2 ->
      scanStep args st
      = Continue {| scan_i := scan_i st + 2; scan_tokens := scan_tokens st;
                    scan_actions := scan_actions st |}).
Proof.
  intros Hv.
  assert (Hn : bool_decide (scan_i st + 1 < length args)%nat = true)
    by (apply bool_decide_eq_true_2; now apply lookup_lt_Some in Hv).
  split; intros Harg Hbody; unfold scanStep; rewrite Harg, Hv, Hn; cbn.
  - destruct (splitSign v) as [cmp body]. cbn in Hbody.
    apply parseInt_NaN in Hbody. now rewrite Hbody.
  - destruct (splitSign v) as [cmp body]. cbn in Hbody.
    destruct (sizeMatch body) as [[value unit]|] eqn:Hm; [|reflexivity].
    exfalso. apply Hbody, sizeMatch_literal. rewrite Hm. eauto.
Qed.

Lemma not_SizeLiteral_abc : ~ SizeLiteral "abc".
Proof.
  intros (d & Hd & [<-|(u & _ & Hs)]); [discriminate Hd|].
  destruct d as [|c1 [|c2 [|c3 d]]]; try discriminate Hs.
  - injection Hs as <- <- <-. discriminate Hd.
  - injection Hs as <- <- <- Hs. destruct d; discriminate Hs.
Qed.

Lemma malformed_number_dropped_witness :
  scanStep ["-mtime"; "+abc"; "-print"] (initial 0)
  = Continue {| scan_i := 2; scan_tokens := []; scan_actions := [] |}
  /\ scanStep ["-size"; "abc"] (initial 0)
     = Continue {| scan_i := 2; scan_tokens := []; scan_actions := [] |}.
Proof.
  split.
  - apply (proj1 (malformed_number_dropped ["-mtime"; "+abc"; "-print"] (initial 0) "+abc"
                    eq_refl)); reflexivity.
  - apply (proj2 (malformed_number_dropped ["-size"; "abc"] (initial 0) "abc" eq_refl));
      [reflexivity|exact not_SizeLiteral_abc].
Defined.

(** C9.  The tokenizer does not drop every [-mtime] whose value body is
    not a number.  A body that is not a numeral but begins with a decimal
    integer (after white space and one sign), as [5abc] does, passes the
    [isNaN] guard of [-mtime]: the predicate is emitted, with the integer
    that [parseInt] reads from the front of the body.  The sibling
    [-size], whose pattern is anchored at both ends, drops the same body
    unless it is a size literal.  The values are of at most 15
    characters, so that the integer read is held exactly. *)
Theorem malformed_mtime_emitted (args : list string) (st : ScanState) (v : string) :
  args !! (scan_i st + 1)%nat = Some v ->
  (String.length v <= 15)%nat ->
  isNumeral (splitSign v).2 = false ->
  startsWithInteger (splitSign v).2 = true ->
  (args !! scan_i st = Some "-mtime" ->
   exists days,
     JS.parseInt (splitSign v).2 = JS.Num days
     /\ scanStep args st
        = Continue {| scan_i := scan_i st + 2;
                      scan_tokens := scan_tokens st
                                     ++ [TExpr (EMtime days (splitSign v).1)];
                      scan_actions := scan_actions st |})
  /\ (args !! scan_i st = Some "-size" ->
      ~ SizeLiteral (splitSign v).2 ->
      scanStep args st
      = Continue {| scan_i := scan_i st + 2; scan_tokens := scan_tokens st;
                    scan_actions := scan_actions st |}).
Proof.
  intros Hv _ Hnum Hint.
  assert (Hn : bool_decide (scan_i st + 1 < length args)%nat = true)
    by (apply bool_decide_eq_true_2; now apply lookup_lt_Some in Hv).
  split.
  - intros Harg.
    destruct (JS.parseInt (splitSign v).2) as [|days] eqn:Hp.
    { apply parseInt_NaN in Hp. congruence. }
    exists days. split; [reflexivity|].
    unfold scanStep. rewrite Harg, Hv, Hn. cbn.
    destruct (splitSign v) as [cmp body]. cbn in Hp |- *. now rewrite Hp.
  - intros Harg Hlit. unfold scanStep. rewrite Harg, Hv, Hn. cbn.
    destruct (splitSign v) as [cmp body]. cbn in Hlit.
    destruct (sizeMatch body) as [[value unit]|] eqn:Hm; [|reflexivity].
    exfalso. apply Hlit, sizeMatch_literal. rewrite Hm. eauto.
Qed.

Lemma not_SizeLiteral_5abc : ~ SizeLiteral "5abc".
Proof.
  intros (d & Hd & [<-|(u & _ & Hs)]); [discriminate Hd|].
  destruct d as [|c1 [|c2 [|c3 [|c4 d]]]]; try discriminate Hs.
  - injection Hs as <- <- <-. discriminate Hd.
  - injection Hs as <- <- <- <- Hs. destruct d; discriminate Hs.
Qed.

Lemma malformed_mtime_emitted_witness :
  (exists days,
     JS.parseInt "5abc" = JS.Num days
     /\ scanStep ["."; "-mtime"; "5abc"]
          {| scan_i := 1; scan_tokens := []; scan_actions := [] |}
        = Continue {| scan_i := 1 + 2;
                      scan_tokens := [] ++ [TExpr (EMtime days Exact)];
                      scan_actions := [] |})
  /\ scanStep ["."; "-size"; "5abc"]
       {| scan_i := 1; scan_tokens := []; scan_actions := [] |}
     = Continue {| scan_i := 1 + 2; scan_tokens := []; scan_actions := [] |}.
Proof.
  split.
  - apply (proj1 (malformed_mtime_emitted ["."; "-mtime"; "5abc"]
                    {| scan_i := 1; scan_tokens := []; scan_actions := [] |} "5abc"
                    eq_refl ltac:(cbn; lia) eq_refl eq_refl)).
    reflexivity.
  - apply (proj2 (malformed_mtime_emitted ["."; "-size"; "5abc"]
                    {| scan_i := 1; scan_tokens := []; scan_actions := [] |} "5abc"
                    eq_refl ltac:(cbn; lia) eq_refl eq_refl));
      [reflexivity|exact not_SizeLiteral_5abc].
Defined.

(** The body [5abc] is not a numeral, and yet [-mtime 5abc] emits the
    predicate [mtime] with 5 days. *)
Lemma mtime_numeric_prefix_accepted :
  isNumeral "5abc" = false
  /\ scanStep ["-mtime"; "5abc"] (initial 0)
     = Continue {| scan_i := 2; scan_tokens := [TExpr (EMtime 5 Exact)];
                   scan_actions := [] |}
  /\ parseExpressions ["-mtime"; "5abc"] 0
     = Some {| expr := Some (EMtime 5 Exact); pathIndex := 2; error := None;
               actions := [] |}.
Proof. repeat split. Qed.

End MalformedNumbers.

(** ** Parse errors *)

Section ParseErrors.
Import Find Scan.
Context {σ : Type} (ctx : CommandContext σ) (now : Z).
Context (hasHelpFlag : list string -> bool) (showHelp : ExecResult).

(** When the parse reports an error, the invocation returns it and calls
    nothing on the host. *)
Lemma execute_parse_error (fuel : nat) (args : list string) (r : ParseResult)
    (c : ascii) (msg : string) (w : World σ) :
  hasHelpFlag args = false ->
  parseExpressions args 0 = Some r ->
  error r = Some (String c msg) ->
  execute ctx now hasHelpFlag showHelp fuel args w
  = (Done {| stdout := EmptyString; stderr := String c msg; exitCode := 1 |}, w).
Proof.
  intros Hh Hp He. unfold execute. rewrite Hh.
  destruct (discover args (".", None, None)) as [[sp maxD] minD].
  now rewrite Hp, He.
Qed.

(** C7, as amended.  When the scan of the tokenizer arrives at an
    unrecognized flag-shaped token, or at an [-exec] with no [;] or [+]
    after it, and the arguments carry no help flag, the invocation returns
    empty stdout, a stderr line that names the problem and exit code 1,
    and nothing is called on the file system: the world is unchanged. *)
Theorem parse_error_stops_invocation (fuel : nat) (args : list string)
    (st : ScanState) (w : World σ) :
  hasHelpFlag args = false ->
  reaches args 0 st ->
  (forall arg : string,
     args !! scan_i st = Some arg ->
     unrecognizedFlag arg = true ->
     execute ctx now hasHelpFlag showHelp fuel args w
     = (Done {| stdout := EmptyString;
                stderr := "find: unknown predicate '" +:+ arg +:+ "'" +:+ LF;
                exitCode := 1 |}, w))
  /\ (args !! scan_i st = Some "-exec" ->
      (execParts (drop (scan_i st + 1) args)).2 = None ->
      execute ctx now hasHelpFlag showHelp fuel args w
      = (Done {| stdout := EmptyString;
                 stderr := "find: missing argument to `-exec'" +:+ LF;
                 exitCode := 1 |}, w)).
Proof.
  intros Hh Hr. split.
  - intros arg Harg Hu.
    pose proof (scanStep_unknown args st arg Harg Hu) as Hs.
    apply lookup_lt_Some in Harg.
    exact (execute_parse_error fuel args _ _ _ w Hh
             (parse_fails_at args st _ Hr Harg Hs) eq_refl).
  - intros Harg Hnone.
    pose proof (scanStep_exec_unterminated args st Harg Hnone) as Hs.
    apply lookup_lt_Some in Harg.
    exact (execute_parse_error fuel args _ _ _ w Hh
             (parse_fails_at args st _ Hr Harg Hs) eq_refl).
Qed.

End ParseErrors.

Section ParseErrorExamples.
Import Find Scan.

Lemma parse_error_stops_invocation_witness :
  Scenario.run 0 ["."; "-type"; "f"; "-bogus"; "-print"]
  = (Done {| stdout := EmptyString;
             stderr := "find: unknown predicate '-bogus'" +:+ LF;
             exitCode := 1 |}, Scenario.untouched)
  /\ Scenario.run 0 ["."; "-exec"; "echo"; "{}"]
     = (Done {| stdout := EmptyString;
                stderr := "find: missing argument to `-exec'" +:+ LF;
                exitCode := 1 |}, Scenario.untouched).
Proof.
  split.
  - refine (proj1 (parse_error_stops_invocation Scenario.context 0 Scenario.hasHelpFlag
                     Scenario.help 0 ["."; "-type"; "f"; "-bogus"; "-print"]
                     {| scan_i := 3; scan_tokens := [TExpr (EType TypeF)];
                        scan_actions := [] |}
                     Scenario.untouched eq_refl _) "-bogus" eq_refl eq_refl).
    eapply reaches_step; [eapply reaches_step; [apply reaches_start| |]| |];
      try reflexivity; cbn; lia.
  - refine (proj2 (parse_error_stops_invocation Scenario.context 0 Scenario.hasHelpFlag
                     Scenario.help 0 ["."; "-exec"; "echo"; "{}"]
                     {| scan_i := 1; scan_tokens := []; scan_actions := [] |}
                     Scenario.untouched eq_refl _) eq_refl eq_refl).
    eapply reaches_step; [apply reaches_start| |]; try reflexivity; cbn; lia.
Defined.

(** An unrecognized flag-shaped token that the scan never arrives at: it
    stands after a path argument that ends the scan.  The invocation
    traverses the tree and succeeds. *)
Lemma unrecognized_flag_not_scanned :
  In "-bogus" ["-name"; "*.txt"; "d"; "-bogus"]
  /\ unrecognizedFlag "-bogus" = true
  /\ Scenario.run 2 ["-name"; "*.txt"; "d"; "-bogus"]
     = (Done {| stdout := "d/c.txt" +:+ LF; stderr := EmptyString; exitCode := 0 |},
        Build_World tt
          [EvStat "/work/d"; EvStat "/work/d"; EvReaddir "/work/d";
           EvReaddir "/work/d"; EvStat "/work/d/c.txt"]).
Proof.
  split; [cbn; tauto|]. split; [reflexivity|]. vm_compute. reflexivity.
Qed.

End ParseErrorExamples.

(** ** Properties of the traversal *)

Section Traversal.
Import Find.
Context {σ : Type} (ctx : CommandContext σ) (now : Z).

Lemma refines_refl {S A : Type} (m : M S A) : refines m m.
Proof. intros s o s' H _. exact H. Qed.

Lemma bind_refines {S A B : Type} (m1 m2 : M S A) (k1 k2 : A -> M S B) :
  refines m1 m2 -> (forall a, refines (k1 a) (k2 a)) ->
  refines (bind m1 k1) (bind m2 k2).
Proof.
  intros Hm Hk s o s' H Ho. unfold bind in *.
  destruct (m1 s) as [[a| |] s1] eqn:E1.
  - rewrite (Hm _ _ _ E1) by discriminate. now apply Hk.
  - rewrite (Hm _ _ _ E1) by discriminate. exact H.
  - injection H as <- <-. congruence.
Qed.

Lemma forEach_refines {S A : Type} (l : list A) (b1 b2 : A -> M S unit) :
  (forall a, refines (b1 a) (b2 a)) -> refines (forEach l b1) (forEach l b2).
Proof.
  intros Hb. induction l as [|a l IH]; cbn [forEach].
  - apply refines_refl.
  - apply bind_refines; [apply Hb|intros _; exact IH].
Qed.

Lemma descend_refines (r1 r2 : string -> Z -> M (TravState (σ:=σ)) unit)
    (path : string) (depth : Z) (st : Stat.t) :
  (forall p d, refines (r1 p d) (r2 p d)) ->
  refines (descend ctx r1 path depth st) (descend ctx r2 path depth st).
Proof.
  intros Hr. unfold descend. destruct (Stat.isDirectory st); [|apply refines_refl].
  apply bind_refines; [apply refines_refl|]. intros entries.
  apply forEach_refines. intros entry. apply Hr.
Qed.

Lemma visit_refines (r1 r2 : string -> Z -> M (TravState (σ:=σ)) unit)
    (env : Env) (path : string) (depth : Z) :
  (forall p d, refines (r1 p d) (r2 p d)) ->
  refines (visit ctx now r1 env path depth) (visit ctx now r2 env path depth).
Proof.
  intros Hr. unfold visit.
  destruct (match maxDepth env with Some m => JS.gt (JS.Num depth) m | None => false end);
    [apply refines_refl|].
  apply bind_refines; [apply refines_refl|]. intros [st|]; [|apply refines_refl].
  apply bind_refines; [apply refines_refl|]. intros isEmpty.
  apply bind_refines; [apply refines_refl|]. intros matches.
  apply bind_refines; [apply refines_refl|]. intros _.
  now apply descend_refines.
Qed.

(** More fuel does not change a traversal that had enough. *)
Lemma findRecursive_mono (fuel fuel' : nat) (env : Env) (path : string) (depth : Z) :
  (fuel <= fuel')%nat ->
  refines (findRecursive ctx now fuel env path depth)
          (findRecursive ctx now fuel' env path depth).
Proof.
  revert fuel' path depth. induction fuel as [|fuel IH]; intros fuel' path depth Hle.
  - intros s o s' H Ho. injection H as <- <-. congruence.
  - destruct fuel' as [|fuel']; [lia|]. cbn [findRecursive].
    apply visit_refines. intros p d. apply IH. lia.
Qed.

Lemma collect_refines (m1 m2 : M (TravState (σ:=σ)) unit) :
  refines m1 m2 -> refines (collect m1) (collect m2).
Proof.
  intros Hm w o w' H Ho. unfold collect in *.
  destruct (m1 {| world := w; results := [] |}) as [[a| |] s1] eqn:E1.
  - now rewrite (Hm _ _ _ E1) by discriminate.
  - now rewrite (Hm _ _ _ E1) by discriminate.
  - injection H as <- <-. congruence.
Qed.

Lemma execute_mono (hasHelpFlag : list string -> bool) (showHelp : ExecResult)
    (fuel fuel' : nat) (args : list string) :
  (fuel <= fuel')%nat ->
  refines (execute ctx now hasHelpFlag showHelp fuel args)
          (execute ctx now hasHelpFlag showHelp fuel' args).
Proof.
  intros Hle. unfold execute.
  destruct (hasHelpFlag args); [apply refines_refl|].
  destruct (discover args (".", None, None)) as [[sp maxD] minD].
  destruct (parseExpressions args 0) as [parsed|]; [|apply refines_refl].
  destruct (error parsed) as [[|c msg]|].
  2: apply refines_refl.
  all: apply bind_refines; [apply refines_refl|]; intros [st|]; [|apply refines_refl];
    apply bind_refines; [apply refines_refl|]; intros table;
    (apply bind_refines; [|intros found; apply refines_refl]);
    apply collect_refines; now apply findRecursive_mono.
Qed.

End Traversal.

(** ** The scenario of the specification *)

Section ScenarioRuns.
Import Find.

Lemma scenario_traversal_3 :
  collect (findRecursive Scenario.context 0 3 Scenario.env "/work" 0) Scenario.untouched
  = (Done ["./a.txt"; "./d/c.txt"],
     Build_World tt
       [EvStat "/work"; EvReaddir "/work"; EvReaddir "/work"; EvStat "/work/a.txt";
        EvStat "/work/b.log"; EvStat "/work/d"; EvReaddir "/work/d";
        EvReaddir "/work/d"; EvStat "/work/d/c.txt"]).
Proof. vm_compute. reflexivity. Qed.

Lemma scenario_run_3 :
  Scenario.run 3 ["-name"; "*.txt"; "-print"]
  = (Done {| stdout := "./a.txt" +:+ LF +:+ "./d/c.txt" +:+ LF;
             stderr := EmptyString; exitCode := 0 |},
     Build_World tt
       [EvStat "/work"; EvStat "/work"; EvReaddir "/work"; EvReaddir "/work";
        EvStat "/work/a.txt"; EvStat "/work/b.log"; EvStat "/work/d";
        EvReaddir "/work/d"; EvReaddir "/work/d"; EvStat "/work/d/c.txt"]).
Proof. vm_compute. reflexivity. Qed.

(** C2, as amended.  On the tree whose root holds [a.txt] (10 bytes),
    [b.log] (0 bytes) and [d/] holding [c.txt] (5 bytes), searched as [.]
    with the expression [-name "*.txt"] and no depth bounds, the traversal
    collects exactly [./a.txt] and [./d/c.txt], in that order, each path
    carrying the search path as its prefix; [-print] then produces stdout
    [./a.txt\n./d/c.txt\n] with empty stderr and exit code 0.  This holds
    for every amount of fuel from 3 on. *)
Theorem scenario_txt_matches (fuel : nat) :
  (3 <= fuel)%nat ->
  (collect (findRecursive Scenario.context 0 fuel Scenario.env "/work" 0)
     Scenario.untouched).1
  = Done ["./a.txt"; "./d/c.txt"]
  /\ (Scenario.run fuel ["-name"; "*.txt"; "-print"]).1
     = Done {| stdout := "./a.txt" +:+ LF +:+ "./d/c.txt" +:+ LF;
               stderr := EmptyString; exitCode := 0 |}.
Proof.
  intros Hf. split.
  - erewrite (collect_refines _ _ (findRecursive_mono Scenario.context 0 3 fuel
                                     Scenario.env "/work" 0 Hf));
      [|exact scenario_traversal_3|discriminate].
    reflexivity.
  - unfold Scenario.run.
    erewrite (execute_mono Scenario.context 0 Scenario.hasHelpFlag Scenario.help
                3 fuel _ Hf); [|exact scenario_run_3|discriminate].
    reflexivity.
Qed.

Lemma scenario_txt_matches_witness :
  (collect (findRecursive Scenario.context 0 4 Scenario.env "/work" 0)
     Scenario.untouched).1
  = Done ["./a.txt"; "./d/c.txt"]
  /\ (Scenario.run 4 ["-name"; "*.txt"; "-print"]).1
     = Done {| stdout := "./a.txt" +:+ LF +:+ "./d/c.txt" +:+ LF;
               stderr := EmptyString; exitCode := 0 |}.
Proof. apply (scenario_txt_matches 4). lia. Defined.

(** The matches and the output of the scenario are not the bare relative
    names [a.txt] and [d/c.txt]. *)
Lemma scenario_paths_not_bare :
  (collect (findRecursive Scenario.context 0 3 Scenario.env "/work" 0)
     Scenario.untouched).1
  <> Done ["a.txt"; "d/c.txt"]
  /\ (Scenario.run 3 ["-name"; "*.txt"; "-print"]).1
     <> Done {| stdout := "a.txt" +:+ LF +:+ "d/c.txt" +:+ LF;
                stderr := EmptyString; exitCode := 0 |}.
Proof.
  rewrite scenario_traversal_3, scenario_run_3. split; intros H; discriminate H.
Qed.

End ScenarioRuns.

(** ** Reported paths *)

Section ReportedPaths.
Import Find.

(** A reported path is the search path itself, or starts with it; the
    bare names [a.txt] and [d/c.txt] can both be reported only under the
    empty search path. *)
Lemma bare_names_need_empty_search_path (env : Env) (p1 p2 : string) :
  relativePathOf env p1 = "a.txt" ->
  relativePathOf env p2 = "d/c.txt" ->
  searchPath env = EmptyString.
Proof.
  unfold relativePathOf. intros H1 H2.
  destruct (streq (searchPath env) ".") eqn:Hdot.
  - apply String.eqb_eq in Hdot. rewrite Hdot in *.
    destruct (streq p1 (basePath env)); discriminate H1.
  - destruct (searchPath env) as [|c sp]; [reflexivity|].
    rewrite !append_cons in *.
    destruct (streq p1 (basePath env)), (streq p2 (basePath env));
      injection H1 as -> _; discriminate H2.
Qed.

End ReportedPaths.

(** ** Depth bounds *)

Section DepthBounds.
Import Find.
Context {σ : Type} (ctx : CommandContext σ) (now : Z).

Lemma forEach_ret {S A : Type} (l : list A) (body : A -> M S unit) (s : S) :
  (forall a s, body a s = (Done tt, s)) -> forEach l body s = (Done tt, s).
Proof.
  intros Hb. induction l as [|a l IH]; [reflexivity|].
  cbn [forEach]. unfold bind. now rewrite Hb.
Qed.

(** Below the depth bound nothing is done. *)
Lemma findRecursive_cut (fuel : nat) (env : Env) (path : string) (depth m : Z)
    (s : TravState) :
  maxDepth env = Some (JS.Num m) -> m < depth ->
  findRecursive ctx now (S fuel) env path depth s = (Done tt, s).
Proof.
  intros Hm Hlt. cbn [findRecursive]. unfold visit. rewrite Hm. cbn [JS.gt].
  now rewrite (proj2 (Z.ltb_lt m depth) Hlt).
Qed.

(** With [maxDepth = 0] the traversal stats the root and nothing else. *)
Lemma emptiness_run (path : string) (st : Stat.t) (s : TravState) :
  exists b,
    emptiness ctx path st s
    = (Done b,
       {| world := Build_World (store (world s))
                     (trace (world s) ++ emptinessProbe path st);
          results := results s |}).
Proof.
  unfold emptiness, emptinessProbe.
  destruct (Stat.isFile st); [|destruct (Stat.isDirectory st)];
    eexists; cbn; rewrite ?app_nil_r; destruct s as [[? ?] ?]; reflexivity.
Qed.

Lemma matching_run (env : Env) (path : string) (depth : Z) (st : Stat.t) (b : bool)
    (s : TravState (σ:=σ)) :
  exists o, matching now env path depth st b s = (o, s) /\ o <> OutOfFuel.
Proof.
  unfold matching.
  destruct (match minDepth env with Some m => JS.ge (JS.Num depth) m | None => true end);
    [destruct (theExpr env) as [e|]|].
  - unfold liftCompletion. destruct (evaluateExpression now e _); eexists; split;
      try reflexivity; discriminate.
  - eexists. split; [reflexivity|discriminate].
  - eexists. split; [reflexivity|discriminate].
Qed.

(** Below [minDepth] an entry does not match, whatever the expression. *)
Lemma matching_below_minDepth (env : Env) (path : string) (depth m : Z) (st : Stat.t)
    (b : bool) (s : TravState (σ:=σ)) :
  minDepth env = Some (JS.Num m) -> depth < m ->
  matching now env path depth st b s = (Done false, s).
Proof.
  intros Hm Hlt. unfold matching. rewrite Hm. cbn [JS.ge].
  now rewrite (proj2 (Z.leb_gt m depth) Hlt).
Qed.

(** With [maxDepth = 0] the traversal stats the root and nothing else. *)
Lemma maxDepth_zero_root_only (fuel : nat) (env : Env) (path : string) (s : TravState) :
  maxDepth env = Some (JS.Num 0) ->
  (2 <= fuel)%nat ->
  exists o s' evs,
    findRecursive ctx now fuel env path 0 s = (o, s')
    /\ o <> OutOfFuel
    /\ world s' = Build_World (store (world s)) (trace (world s) ++ EvStat path :: evs)
    /\ Forall (fun ev => ev = EvReaddir path) evs.
Proof.
  intros Hm Hf. destruct fuel as [|[|fuel]]; [lia|lia|].
  cbn [findRecursive]. unfold visit at 1. rewrite Hm. cbn [JS.gt]. rewrite Z.ltb_irrefl.
  unfold bind at 1. unfold doStat at 1. cbn [world setWorld store trace].
  destruct (stat (fs ctx) (store (world s)) path) as [st|].
  2: { eexists _, _, []. cbn. repeat split; [discriminate|constructor]. }
  assert (Hdesc : forall s0 : TravState,
            descend ctx (findRecursive ctx now (S fuel) env) path 0 st s0
            = (Done tt,
               {| world := Build_World (store (world s0))
                             (trace (world s0)
                              ++ if Stat.isDirectory st then [EvReaddir path] else []);
                  results := results s0 |})).
  { intros s0. unfold descend. destruct (Stat.isDirectory st).
    - unfold bind, doReaddir. cbn [world setWorld store trace results].
      apply forEach_ret. intros entry s1.
      now apply (findRecursive_cut fuel env _ (0 + 1) 0).
    - cbn. rewrite app_nil_r. now destruct s0 as [[? ?] ?]. }
  assert (Hevs : Forall (fun ev => ev = EvReaddir path)
                   (emptinessProbe path st
                    ++ if Stat.isDirectory st then [EvReaddir path] else [])).
  { unfold emptinessProbe.
    destruct (Stat.isFile st), (Stat.isDirectory st); repeat constructor. }
  unfold bind.
  match goal with |- context [emptiness ctx path st ?s1] =>
    destruct (emptiness_run path st s1) as [b ->] end.
  cbn [world store trace results].
  match goal with |- context [matching now env path 0 st b ?s2] =>
    destruct (matching_run env path 0 st b s2) as (o & -> & Ho) end.
  destruct o as [[|]| |]; [| | |congruence].
  - unfold pushResult at 1. cbn [world store trace results]. rewrite Hdesc.
    eexists _, _, _. split; [reflexivity|]. split; [discriminate|].
    split; [|exact Hevs]. cbn. now rewrite <- !app_assoc.
  - unfold ret at 1. rewrite Hdesc.
    eexists _, _, _. split; [reflexivity|]. split; [discriminate|].
    split; [|exact Hevs]. cbn. now rewrite <- !app_assoc.
  - eexists _, _, (emptinessProbe path st). split; [reflexivity|].
    split; [discriminate|]. split; [cbn; now rewrite <- !app_assoc|].
    unfold emptinessProbe.
    destruct (Stat.isFile st), (Stat.isDirectory st); repeat constructor.
Qed.

(** Below [minDepth] a node is stat'ed and probed, nothing is appended
    to the matches, and the traversal goes on into the node. *)
Lemma below_minDepth_not_matched (fuel : nat) (env : Env) (path : string)
    (depth m : Z) (st : Stat.t) (s : TravState) :
  minDepth env = Some (JS.Num m) ->
  depth < m ->
  match maxDepth env with Some d => JS.gt (JS.Num depth) d | None => false end = false ->
  stat (fs ctx) (store (world s)) path = Some st ->
  findRecursive ctx now (S fuel) env path depth s
  = descend ctx (findRecursive ctx now fuel env) path depth st
      {| world := probed path st (world s); results := results s |}.
Proof.
  intros Hmin Hlt Hmax Hst. cbn [findRecursive]. unfold visit. rewrite Hmax.
  unfold bind at 1. unfold doStat at 1. rewrite Hst.
  unfold bind at 1.
  match goal with |- context [emptiness ctx path st ?s1] =>
    destruct (emptiness_run path st s1) as [b ->] end.
  cbn [world setWorld store trace results].
  unfold bind at 1. rewrite (matching_below_minDepth env path depth m) by assumption.
  unfold bind at 1. cbn. unfold probed. now rewrite <- app_assoc.
Qed.

Lemma bind_Done {S A B : Type} (m : M S A) (k : A -> M S B) (s s' : S) (b : B) :
  bind m k s = (Done b, s') ->
  exists a s1, m s = (Done a, s1) /\ k a s1 = (Done b, s').
Proof.
  unfold bind. destruct (m s) as [[a| |] s1]; intros H; try discriminate H.
  now exists a, s1.
Qed.

Lemma forEach_same_world {A : Type} (l : list A)
    (b1 b2 : A -> M (TravState (σ:=σ)) unit) :
  (forall a s1 s2 s1' s2',
     world s1 = world s2 -> b1 a s1 = (Done tt, s1') -> b2 a s2 = (Done tt, s2') ->
     world s1' = world s2') ->
  forall s1 s2 s1' s2',
    world s1 = world s2 ->
    forEach l b1 s1 = (Done tt, s1') -> forEach l b2 s2 = (Done tt, s2') ->
    world s1' = world s2'.
Proof.
  intros Hb. induction l as [|a l IH]; intros s1 s2 s1' s2' Hw H1 H2.
  - cbn [forEach] in H1, H2. unfold ret in H1, H2. congruence.
  - cbn [forEach] in H1, H2.
    apply bind_Done in H1 as ([] & t1 & Ha1 & H1).
    apply bind_Done in H2 as ([] & t2 & Ha2 & H2).
    eapply IH; [|exact H1|exact H2]. eapply Hb; eassumption.
Qed.

(** Which nodes are visited depends neither on [minDepth] nor on the
    expression: two traversals that complete, under the same [maxDepth],
    make the same calls on the file system. *)
Lemma traversal_independent_of_matching (fuel : nat) (env1 env2 : Env) :
  maxDepth env1 = maxDepth env2 ->
  forall (path : string) (depth : Z) (s1 s2 s1' s2' : TravState),
    world s1 = world s2 ->
    findRecursive ctx now fuel env1 path depth s1 = (Done tt, s1') ->
    findRecursive ctx now fuel env2 path depth s2 = (Done tt, s2') ->
    world s1' = world s2'.
Proof.
  intros Hmax. induction fuel as [|fuel IH]; intros path depth s1 s2 s1' s2' Hw H1 H2;
    [discriminate H1|].
  cbn [findRecursive] in H1, H2. unfold visit in H1, H2. rewrite <- Hmax in H2.
  destruct (match maxDepth env1 with Some m => JS.gt (JS.Num depth) m | None => false end).
  { unfold ret in H1, H2. congruence. }
  apply bind_Done in H1 as (o1 & t1 & Hs1 & H1).
  apply bind_Done in H2 as (o2 & t2 & Hs2 & H2).
  unfold doStat in Hs1, Hs2. rewrite <- Hw in Hs2.
  injection Hs1 as <- <-. injection Hs2 as <- <-.
  destruct (stat (fs ctx) (store (world s1)) path) as [st|].
  2: { unfold ret in H1, H2. injection H1 as <-. injection H2 as <-. reflexivity. }
  apply bind_Done in H1 as (e1 & u1 & He1 & H1).
  apply bind_Done in H2 as (e2 & u2 & He2 & H2).
  match type of He1 with emptiness _ _ _ ?x = _ =>
    destruct (emptiness_run path st x) as [b1 Hb1] end.
  match type of He2 with emptiness _ _ _ ?x = _ =>
    destruct (emptiness_run path st x) as [b2 Hb2] end.
  rewrite Hb1 in He1. rewrite Hb2 in He2.
  injection He1 as <- <-. injection He2 as <- <-.
  apply bind_Done in H1 as (m1 & v1 & Hm1 & H1).
  apply bind_Done in H2 as (m2 & v2 & Hm2 & H2).
  match type of Hm1 with matching _ _ _ _ _ _ ?x = _ =>
    destruct (matching_run env1 path depth st b1 x) as (o1 & Ho1 & _) end.
  match type of Hm2 with matching _ _ _ _ _ _ ?x = _ =>
    destruct (matching_run env2 path depth st b2 x) as (o2 & Ho2 & _) end.
  rewrite Ho1 in Hm1. rewrite Ho2 in Hm2.
  injection Hm1 as -> <-. injection Hm2 as -> <-.
  apply bind_Done in H1 as ([] & x1 & Hp1 & H1).
  apply bind_Done in H2 as ([] & x2 & Hp2 & H2).
  assert (Hx : world x1 = world x2).
  { destruct m1, m2; cbn in Hp1, Hp2; injection Hp1 as <-; injection Hp2 as <-;
      cbn; now rewrite Hw. }
  clear Hp1 Hp2. unfold descend in H1, H2.
  destruct (Stat.isDirectory st).
  2: { unfold ret in H1, H2. congruence. }
  apply bind_Done in H1 as (l1 & y1 & Hl1 & H1).
  apply bind_Done in H2 as (l2 & y2 & Hl2 & H2).
  unfold doReaddir in Hl1, Hl2. rewrite <- Hx in Hl2.
  injection Hl1 as <- <-. injection Hl2 as <- <-.
  refine (forEach_same_world _ _ _ _ _ _ _ _ _ H1 H2); [|reflexivity].
  intros entry a1 a2 a1' a2' Ha. apply IH. exact Ha.
Qed.

End DepthBounds.

(** ** The delete action *)

Section Delete.
Import Find.
Context {σ : Type} (ctx : CommandContext σ).

Lemma append_assoc (a b c : string) : (a +:+ b) +:+ c = a +:+ (b +:+ c).
Proof. induction a as [|x a IH]; [reflexivity|]. now rewrite !append_cons, IH. Qed.

Lemma insertSorted_perm {A : Type} (cmp : A -> A -> Z) (x : A) (l : list A) :
  Permutation (JS.insertSorted cmp x l) (x :: l).
Proof.
  induction l as [|y l IH]; cbn; [reflexivity|].
  destruct (cmp x y <? 0); [reflexivity|].
  rewrite IH. apply perm_swap.
Qed.

Lemma sort_perm {A : Type} (cmp : A -> A -> Z) (l : list A) :
  Permutation (JS.sort cmp l) l.
Proof.
  unfold JS.sort.
  assert (H : forall acc, Permutation (fold_left (fun acc x => JS.insertSorted cmp x acc) l acc)
                            (acc ++ l)).
  { induction l as [|x l IH]; intros acc; cbn.
    - now rewrite app_nil_r.
    - rewrite IH, insertSorted_perm. cbn. apply Permutation_middle. }
  apply (H []).
Qed.

Lemma insertSorted_sorted (x : string) (l : list string) :
  StronglySorted longerFirst l ->
  StronglySorted longerFirst (JS.insertSorted byLengthDescending x l).
Proof.
  induction 1 as [|y l Hs IH Hy]; cbn; [repeat constructor|].
  unfold byLengthDescending at 1.
  destruct (Z.ltb_spec (Z.of_nat (String.length y) - Z.of_nat (String.length x)) 0).
  - constructor; [now constructor|]. constructor; [unfold longerFirst; lia|].
    eapply Forall_impl; [exact Hy|]. unfold longerFirst. intros z Hz. cbn in *. lia.
  - constructor; [exact IH|].
    apply (Permutation_Forall (Permutation_sym (insertSorted_perm _ x l))).
    constructor; [unfold longerFirst; lia|exact Hy].
Qed.

Lemma sort_sorted (l : list string) :
  StronglySorted longerFirst (JS.sort byLengthDescending l).
Proof.
  unfold JS.sort.
  assert (H : forall acc, StronglySorted longerFirst acc ->
                StronglySorted longerFirst
                  (fold_left (fun acc x => JS.insertSorted byLengthDescending x acc) l acc)).
  { induction l as [|x l IH]; intros acc Hacc; cbn; [exact Hacc|].
    apply IH. now apply insertSorted_sorted. }
  apply H. constructor.
Qed.

(** The loop of [-delete]: one removal per file, in order; one stderr
    line per failure; exit code 1 as soon as one removal fails. *)
Lemma deleteEach_run (files : list string) (out : ExecResult) (w : World σ) :
  deleteEach ctx files out w
  = ({| stdout := stdout out;
        stderr := stderr out
                  +:+ String.concat EmptyString
                        (map deleteLine (removalFailures ctx files (store w)));
        exitCode := match removalFailures ctx files (store w) with
                    | [] => exitCode out
                    | _ :: _ => 1
                    end |},
     Build_World (storeAfterRemovals ctx files (store w))
       (trace w ++ map (fun f => EvRm (resolvePath (fs ctx) (cwd ctx) f)) files)).
Proof.
  revert out w. induction files as [|file r IH]; intros out w.
  - cbn. rewrite append_empty_r, app_nil_r. now destruct out, w.
  - cbn [deleteEach removalFailures storeAfterRemovals map].
    destruct (rm (fs ctx) (store w) (resolvePath (fs ctx) (cwd ctx) file))
      as [[msg|] s'] eqn:Hrm; rewrite IH; cbn [store trace stdout stderr exitCode snd];
      rewrite <- app_assoc; cbn [app]; f_equal.
    + f_equal.
      * set (rest := removalFailures ctx r s').
        change (map deleteLine ((file, msg) :: rest))
          with (deleteLine (file, msg) :: map deleteLine rest).
        unfold deleteLine at 2. cbn [fst snd].
        destruct (map deleteLine rest) as [|l ls] eqn:Hl.
        -- cbn [String.concat]. apply append_empty_r.
        -- cbn [String.concat].
           change (EmptyString +:+ ?x) with x. now rewrite !append_assoc.
      * now destruct (removalFailures ctx r s').
Qed.

(** C8.  The delete action works on the matches sorted by descending
    path length: the sorted list is a permutation of the matches, so
    every match is there exactly once.  It attempts one non-recursive
    removal per match, in that order, whether or not earlier removals
    failed.  Stderr receives exactly one line per failed removal and
    nothing else; the exit code becomes 1 when at least one removal fails
    and is left as it was (0 at the start of the actions) when every
    removal succeeds. *)
Theorem delete_action (found : list string) (out : ExecResult) (w : World σ) :
  let sorted := JS.sort byLengthDescending found in
  let failures := removalFailures ctx sorted (store w) in
  Permutation sorted found
  /\ StronglySorted longerFirst sorted
  /\ runAction ctx found ADelete out w
     = (inr {| stdout := stdout out;
               stderr := stderr out +:+ String.concat EmptyString (map deleteLine failures);
               exitCode := match failures with [] => exitCode out | _ :: _ => 1 end |},
        Build_World (storeAfterRemovals ctx sorted (store w))
          (trace w ++ map (fun f => EvRm (resolvePath (fs ctx) (cwd ctx) f)) sorted))
  /\ (failures = [] ->
      (runAction ctx found ADelete out w).1 = inr out).
Proof.
  intros sorted failures.
  split; [apply sort_perm|]. split; [apply sort_sorted|].
  assert (Hrun : runAction ctx found ADelete out w
                 = (inr {| stdout := stdout out;
                           stderr := stderr out
                                     +:+ String.concat EmptyString (map deleteLine failures);
                           exitCode := match failures with
                                       | [] => exitCode out
                                       | _ :: _ => 1
                                       end |},
                    Build_World (storeAfterRemovals ctx sorted (store w))
                      (trace w
                       ++ map (fun f => EvRm (resolvePath (fs ctx) (cwd ctx) f)) sorted))).
  { cbn [runAction]. fold sorted. now rewrite deleteEach_run. }
  split; [exact Hrun|].
  intros Hnone. rewrite Hrun, Hnone. cbn. rewrite append_empty_r. now destruct out.
Qed.

End Delete.

Lemma delete_action_witness :
  (Find.runAction Scenario.context ["./d"; "./d/c.txt"; "./a.txt"] Find.ADelete
     Scenario.silent Scenario.untouched).1
  = inr Scenario.silent.
Proof.
  apply (proj2 (proj2 (proj2 (delete_action Scenario.context
                                ["./d"; "./d/c.txt"; "./a.txt"] Scenario.silent
                                Scenario.untouched)))).
  reflexivity.
Defined.

(** Three matches, one of which cannot be removed: the removals are
    attempted longest path first, all three of them; stderr has the one
    line of the failure and the exit code is 1. *)
Example delete_with_one_failure :
  Find.runAction Scenario.guardedContext ["./b.log"; "./d"; "./d/c.txt"] Find.ADelete
    Scenario.silent (Find.Build_World [] [])
  = (inr {| Find.stdout := EmptyString;
            Find.stderr := "find: cannot delete './b.log': Permission denied" +:+ Find.LF;
            Find.exitCode := 1 |},
     Find.Build_World ["/work/./d/c.txt"; "/work/./d"]
       [Find.EvRm "/work/./d/c.txt"; Find.EvRm "/work/./b.log"; Find.EvRm "/work/./d"]).
Proof. vm_compute. reflexivity. Qed.

(** ** The glob matcher and the regular expressions it builds *)

Section GlobRegex.
Import Find JS.RegExp Lexing.

Lemma lexFrom_app (st : mode * list token) (a b : string) :
  lexFrom st (a +:+ b) = lexFrom (lexFrom st a) b.
Proof.
  revert st. induction a as [|c a IH]; intros st; [reflexivity|].
  rewrite append_cons. cbn [lexFrom]. apply IH.
Qed.

Ltac split_chars H :=
  cbn [JS.is_one_of] in H;
  repeat (apply orb_false_iff in H as [? H]).

Ltac char_is H := apply Ascii.eqb_eq in H; subst.

Ltac rewrite_chars :=
  repeat match goal with
    | H : Ascii.eqb _ _ = false |- _ => rewrite !H
    end;
  cbn [negb orb andb].

(** The lexer state after the translation of a pattern, or after the
    copy of a class: never after a pending backslash of the pattern, and
    with tokens of the fragment only. *)
Lemma lex_translate_fragment (p : string) :
  (forall m toks,
     patternMode m = true -> forallb inFragment toks = true ->
     let r := lexFrom (m, toks) (translate p) in
     patternMode r.1 || classMode r.1 = true /\ forallb inFragment r.2 = true)
  /\ (forall m toks,
        classMode m = true -> forallb inFragment toks = true ->
        let r := lexFrom (m, toks) (copyClass p) in
        patternMode r.1 || classMode r.1 = true /\ forallb inFragment r.2 = true).
Proof.
  induction p as [|c p [IHt IHc]].
  - split; intros m toks Hm Ht; cbn; (split; [|exact Ht]); destruct m; try discriminate;
      reflexivity.
  - split; intros m toks Hm Ht.
    + cbn [translate].
      destruct (Ascii.eqb c "*") eqn:Hstar.
      { rewrite lexFrom_app. destruct m; try discriminate Hm; cbn; apply IHt; cbn;
          trivial. }
      destruct (Ascii.eqb c "?") eqn:Hq.
      { rewrite lexFrom_app. destruct m; try discriminate Hm; cbn; apply IHt; cbn;
          trivial. }
      destruct (Ascii.eqb c "[") eqn:Hb.
      { char_is Hb. destruct m; try discriminate Hm; cbn; apply IHc; cbn; trivial. }
      destruct (JS.is_one_of c ".+^${}()|\") eqn:Hmeta.
      { cbn [lexFrom]. destruct m; try discriminate Hm.
        - cbn. apply IHt; [reflexivity|]. cbn [forallb inFragment].
          rewrite Ht, andb_true_r.
          cbn [JS.is_one_of] in Hmeta |- *.
          repeat (apply orb_true_iff in Hmeta as [Hmeta|Hmeta];
                  [rewrite Hmeta, ?orb_true_r; reflexivity|]).
          discriminate Hmeta.
        - cbn. destruct (Ascii.eqb c "]") eqn:Hc; [char_is Hc; discriminate Hmeta|].
          cbn. apply IHt; cbn; trivial. }
      split_chars Hmeta. cbn [lexFrom lexStep].
      destruct m; try discriminate Hm.
      * rewrite_chars. apply IHt; [reflexivity|].
        cbn [forallb inFragment JS.is_one_of]. rewrite_chars. exact Ht.
      * destruct (Ascii.eqb c "]"); rewrite_chars; apply IHt; cbn; trivial.
    + cbn [copyClass lexFrom lexStep].
      destruct (Ascii.eqb c "]") eqn:Hc.
      * destruct m; try discriminate Hm; apply IHt; cbn; trivial.
      * destruct m; try discriminate Hm; [destruct (Ascii.eqb c "\")|];
          apply IHc; cbn; trivial.
Qed.

(** The translation of a glob pattern stays inside the modelled fragment
    of regular expressions. *)
Lemma termsOf_fragment (toks : list token) :
  forallb inFragment toks = true -> termsOf toks <> inl Unmodelled.
Proof.
  assert (Hcons : forall t r, r <> inl Unmodelled -> consTerm t r <> inl Unmodelled).
  { intros t [e|ts] Hr; cbn; [exact Hr|discriminate]. }
  assert (Hatom : forall t, inFragment t = true -> atomOf t <> inl Unmodelled).
  { intros [| | | |c|body|c]; cbn; try discriminate.
    - intros ->. discriminate.
    - destruct (parseClass body) as [[inv items]|]; discriminate.
    - intros H. apply negb_true_iff in H. cbn in H. rewrite H. discriminate. }
  induction toks as [toks IH] using (induction_ltof1 _ (@length token)).
  unfold ltof in IH. intros Hf.
  destruct toks as [|t r]; [discriminate|].
  cbn [forallb] in Hf. apply andb_true_iff in Hf as [Ht Hr].
  assert (Hrest : termsOf r <> inl Unmodelled) by (apply IH; [cbn; lia|exact Hr]).
  assert (Hnext : forall a,
            match r with
            | TStar :: r' => consTerm (Match a true) (termsOf r')
            | _ => consTerm (Match a false) (termsOf r)
            end <> inl Unmodelled).
  { intros a. destruct r as [|[] r']; try (apply Hcons; exact Hrest).
    apply Hcons. apply IH; [cbn; lia|]. cbn [forallb] in Hr.
    now apply andb_true_iff in Hr as [_ Hr]. }
  pose proof (Hatom t Ht) as Ha.
  destruct t; cbn [termsOf]; try (apply Hcons; exact Hrest); try discriminate;
    match goal with |- context [atomOf ?t] => destruct (atomOf t) as [[]|a] end;
    try discriminate; try congruence; apply Hnext.
Qed.

Theorem globToRegex_modelled (pattern : string) (ignoreCase : bool) (name : string) :
  test (globToRegex pattern) ignoreCase name <> NotModelled.
Proof.
  unfold test, compile, lex, globToRegex.
  change ("^" +:+ translate pattern +:+ "$")
    with (String "^" (translate pattern +:+ "$")).
  cbn [lexFrom lexStep]. cbn. rewrite lexFrom_app.
  destruct (proj1 (lex_translate_fragment pattern) Top [TCaret] eq_refl eq_refl)
    as [Hmode Htoks].
  destruct (lexFrom (Top, [TCaret]) (translate pattern)) as [m toks]. cbn in Hmode, Htoks.
  destruct m; cbn; try discriminate.
  match goal with |- context [termsOf ?l] =>
    pose proof (termsOf_fragment l) as Hfrag; destruct (termsOf l) as [[]|ts]
  end; cbn; try discriminate.
  exfalso. apply Hfrag; [|reflexivity].
  rewrite forallb_app. cbn. rewrite andb_true_r.
  rewrite forallb_forall in *. intros t Hin. apply in_rev in Hin. now apply Htoks.
Qed.

Lemma eqb_closer (c : ascii) : Ascii.eqb "]" c = Ascii.eqb c "]".
Proof. apply Ascii.eqb_sym. Qed.

(** Without a []] the copy of a class never leaves the class. *)
Lemma copyClass_stays (p : string) :
  JS.is_one_of "]" p = false ->
  forall m toks,
    classMode m = true -> classMode (lexFrom (m, toks) (copyClass p)).1 = true.
Proof.
  induction p as [|c p IH]; intros Hp m toks Hm; [exact Hm|].
  cbn [JS.is_one_of] in Hp. apply orb_false_iff in Hp as [Hc Hp].
  rewrite eqb_closer in Hc. cbn [copyClass lexFrom lexStep]. rewrite Hc.
  destruct m; try discriminate Hm; [destruct (Ascii.eqb c "\")|]; now apply IH.
Qed.

(** A pattern with a [[] and no []] after it leaves the lexer inside a
    class, wherever that [[] stands. *)
Lemma lex_unclosed (p1 p2 : string) :
  JS.is_one_of "]" p2 = false ->
  (forall m toks,
     patternMode m = true ->
     classMode (lexFrom (m, toks) (translate (p1 +:+ String "[" p2))).1 = true)
  /\ (forall m toks,
        classMode m = true ->
        classMode (lexFrom (m, toks) (copyClass (p1 +:+ String "[" p2))).1 = true).
Proof.
  intros Hp. induction p1 as [|c p1 [IHt IHc]].
  - change (EmptyString +:+ String "[" p2) with (String "[" p2).
    split; intros m toks Hm; cbn [translate copyClass lexFrom]; cbn;
      destruct m; try discriminate Hm; cbn; now apply copyClass_stays.
  - rewrite append_cons. split; intros m toks Hm.
    + cbn [translate].
      destruct (Ascii.eqb c "*") eqn:Hstar.
      { rewrite lexFrom_app. destruct m; try discriminate Hm; cbn; now apply IHt. }
      destruct (Ascii.eqb c "?") eqn:Hq.
      { rewrite lexFrom_app. destruct m; try discriminate Hm; cbn; now apply IHt. }
      destruct (Ascii.eqb c "[") eqn:Hb.
      { char_is Hb. destruct m; try discriminate Hm; cbn; now apply IHc. }
      destruct (JS.is_one_of c ".+^${}()|\") eqn:Hmeta.
      { cbn [lexFrom]. destruct m; try discriminate Hm; cbn.
        - now apply IHt.
        - destruct (Ascii.eqb c "]") eqn:Hc; [char_is Hc; discriminate Hmeta|].
          cbn. now apply IHt. }
      split_chars Hmeta. cbn [lexFrom lexStep].
      destruct m; try discriminate Hm.
      * rewrite_chars. now apply IHt.
      * destruct (Ascii.eqb c "]"); rewrite_chars; now apply IHt.
    + cbn [copyClass lexFrom lexStep].
      destruct (Ascii.eqb c "]") eqn:Hc.
      * destruct m; try discriminate Hm; now apply IHt.
      * destruct m; try discriminate Hm; [destruct (Ascii.eqb c "\")|]; now apply IHc.
Qed.

(** C10.  The glob matcher is not total: on every pattern that has a [[]
    with no []] after it, for every name and either case flag, the
    regular expression it builds ends inside a character class and its
    construction raises a syntax error. *)
Theorem matchGlob_unclosed_class_raises (name p1 p2 : string) (ignoreCase : option bool) :
  JS.is_one_of "]" p2 = false ->
  matchGlob name (p1 +:+ String "[" p2) ignoreCase = Throw SyntaxError.
Proof.
  intros Hp. unfold matchGlob, test, compile, lex, globToRegex.
  change ("^" +:+ translate (p1 +:+ String "[" p2) +:+ "$")
    with (String "^" (translate (p1 +:+ String "[" p2) +:+ "$")).
  cbn [lexFrom lexStep]. cbn. rewrite lexFrom_app.
  pose proof (proj1 (lex_unclosed p1 p2 Hp) Top [TCaret] eq_refl) as Hmode.
  destruct (lexFrom (Top, [TCaret]) (translate (p1 +:+ String "[" p2))) as [m toks].
  destruct m; try discriminate Hmode; reflexivity.
Qed.

Lemma matchGlob_unclosed_class_raises_witness :
  matchGlob "a" "[abc" None = Throw SyntaxError
  /\ matchGlob "report.txt" "*.[ch" (Some true) = Throw SyntaxError.
Proof.
  split.
  - apply (matchGlob_unclosed_class_raises "a" "" "abc" None). reflexivity.
  - apply (matchGlob_unclosed_class_raises "report.txt" "*." "ch" (Some true)). reflexivity.
Defined.

(** On a pattern without [[] the lexer stays in the pattern. *)
Lemma lex_plain (p : string) (acc : list token) :
  JS.is_one_of "[" p = false ->
  lexFrom (Top, acc) (translate p) = (Top, rev (plainTokens p) ++ acc).
Proof.
  revert acc. induction p as [|c p IH]; intros acc Hp; [reflexivity|].
  cbn [JS.is_one_of] in Hp. apply orb_false_iff in Hp as [Hc Hp].
  rewrite Ascii.eqb_sym in Hc. cbn [translate plainTokens]. rewrite Hc.
  destruct (Ascii.eqb c "*") eqn:Hstar.
  { rewrite lexFrom_app. cbn. rewrite IH by exact Hp. now rewrite <- !app_assoc. }
  destruct (Ascii.eqb c "?") eqn:Hq.
  { rewrite lexFrom_app. cbn. rewrite IH by exact Hp. now rewrite <- !app_assoc. }
  destruct (JS.is_one_of c ".+^${}()|\") eqn:Hmeta.
  { cbn. rewrite IH by exact Hp. now rewrite <- !app_assoc. }
  split_chars Hmeta. cbn [lexFrom lexStep]. rewrite_chars.
  rewrite IH by exact Hp. cbn. now rewrite <- !app_assoc.
Qed.

Lemma termsOf_single (t : token) (a : atom) (l : list token) :
  atomOf t = inr a ->
  match l with TStar :: _ => False | _ => True end ->
  termsOf (t :: l) = consTerm (Match a false) (termsOf l).
Proof.
  intros Ha Hl.
  destruct t; try discriminate Ha; cbn [termsOf]; rewrite Ha;
    destruct l as [|[] r]; try contradiction; reflexivity.
Qed.

Lemma termsOf_plain (p : string) :
  exists ts, termsOf (plainTokens p ++ [TDollar]) = inr ts.
Proof.
  assert (Hhead : forall q, match plainTokens q ++ [TDollar] with
                            | TStar :: _ => False
                            | _ => True
                            end).
  { intros [|c q]; cbn [plainTokens]; [exact I|].
    destruct (Ascii.eqb c "*"); [exact I|]. destruct (Ascii.eqb c "?"); [exact I|].
    destruct (JS.is_one_of c ".+^${}()|\"); exact I. }
  induction p as [|c p [ts IH]]; [now eexists|].
  cbn [plainTokens]. pose proof (Hhead p) as Hh.
  destruct (Ascii.eqb c "*") eqn:Hstar.
  { cbn. rewrite IH. now eexists. }
  destruct (Ascii.eqb c "?") eqn:Hq.
  { cbn [app]. rewrite (termsOf_single TDot Any) by (reflexivity || exact Hh).
    rewrite IH. now eexists. }
  destruct (JS.is_one_of c ".+^${}()|\") eqn:Hmeta.
  { assert (Hsyn : JS.is_one_of c "^$\.*+?()[]{}|/" = true).
    { cbn [JS.is_one_of] in Hmeta |- *.
      repeat (apply orb_true_iff in Hmeta as [Hmeta|Hmeta];
              [rewrite Hmeta, ?orb_true_r; reflexivity|]).
      discriminate Hmeta. }
    cbn [app]. rewrite (termsOf_single (TEscape c) (Chr (JS.code c)));
      [|cbn [atomOf]; now rewrite Hsyn|exact Hh].
    rewrite IH. now eexists. }
  split_chars Hmeta.
  assert (Hlit : JS.is_one_of c "()|+?{" = false) by (cbn; now rewrite_chars).
  cbn [app]. rewrite (termsOf_single (TChar c) (Chr (JS.code c)));
    [|cbn [atomOf]; now rewrite Hlit|exact Hh].
  rewrite IH. now eexists.
Qed.

(** The matcher returns a boolean on every pattern that has no [[]. *)
Theorem matchGlob_total_without_class (name pattern : string) (ignoreCase : option bool) :
  JS.is_one_of "[" pattern = false ->
  exists b, matchGlob name pattern ignoreCase = Normal b.
Proof.
  intros Hp. unfold matchGlob, test, compile, lex, globToRegex.
  change ("^" +:+ translate pattern +:+ "$")
    with (String "^" (translate pattern +:+ "$")).
  cbn [lexFrom lexStep]. cbn. rewrite lexFrom_app, lex_plain by exact Hp.
  cbn [lexFrom lexStep]. cbn. rewrite rev_app_distr, rev_involutive. cbn.
  destruct (termsOf_plain pattern) as [ts Hts].
  match goal with |- context [termsOf ?l] => change l with (plainTokens pattern ++ [TDollar]) end.
  rewrite Hts. cbn. now eexists.
Qed.

End GlobRegex.

(** ** The laws of the specification on examples *)

Example glob_law :
  Find.matchGlob "a.txt" "*.txt" None = Normal true
  /\ Find.matchGlob "a.txtx" "*.txt" None = Normal false
  /\ Find.matchGlob "A.TXT" "*.txt" (Some true) = Normal true
  /\ Find.matchGlob "b" "[a-c]" None = Normal true
  /\ Find.matchGlob "]" "[\]]" None = Normal true.
Proof. vm_compute. repeat split. Qed.

(** The syntax error of an unclosed class is not caught: it ends the
    invocation at the first node that is tested. *)
Example unclosed_class_escapes_execute :
  Scenario.run 3 ["-name"; "[abc"]
  = (Find.Raised SyntaxError,
     Find.Build_World tt
       [Find.EvStat "/work"; Find.EvStat "/work"; Find.EvReaddir "/work"]).
Proof. vm_compute. reflexivity. Qed.

Example scenario_empty :
  (Scenario.run 3 ["-empty"]).1
  = Find.Done {| Find.stdout := "./b.log" +:+ Find.LF; Find.stderr := EmptyString;
                 Find.exitCode := 0 |}.
Proof. vm_compute. reflexivity. Qed.

(** ** What the glob matcher computes on patterns without classes *)

Section GlobSemantics.
Import Find JS.RegExp Lexing.

Lemma termsOf_plainTokens (p : string) :
  termsOf (plainTokens p ++ [TDollar]) = inr (Glob.plainTerms p ++ [AssertEnd]).
Proof.
  assert (Hhead : forall q, match plainTokens q ++ [TDollar] with
                            | TStar :: _ => False
                            | _ => True
                            end).
  { intros [|c q]; cbn [plainTokens]; [exact I|].
    destruct (Ascii.eqb c "*"); [exact I|]. destruct (Ascii.eqb c "?"); [exact I|].
    destruct (JS.is_one_of c ".+^${}()|\"); exact I. }
  induction p as [|c p IH]; [reflexivity|].
  cbn [plainTokens Glob.plainTerms]. pose proof (Hhead p) as Hh.
  destruct (Ascii.eqb c "*") eqn:Hstar.
  { cbn. now rewrite IH. }
  destruct (Ascii.eqb c "?") eqn:Hq.
  { cbn [app]. rewrite (termsOf_single TDot Any) by (reflexivity || exact Hh).
    now rewrite IH. }
  destruct (JS.is_one_of c ".+^${}()|\") eqn:Hmeta.
  { assert (Hsyn : JS.is_one_of c "^$\.*+?()[]{}|/" = true).
    { cbn [JS.is_one_of] in Hmeta |- *.
      repeat (apply orb_true_iff in Hmeta as [Hmeta|Hmeta];
              [rewrite Hmeta, ?orb_true_r; reflexivity|]).
      discriminate Hmeta. }
    cbn [app]. rewrite (termsOf_single (TEscape c) (Chr (JS.code c)));
      [|cbn [atomOf]; now rewrite Hsyn|exact Hh].
    now rewrite IH. }
  cbn [JS.is_one_of] in Hmeta.
  repeat (apply orb_false_iff in Hmeta as [? Hmeta]).
  assert (Hlit : JS.is_one_of c "()|+?{" = false).
  { cbn. repeat match goal with H : Ascii.eqb _ _ = false |- _ => rewrite !H end.
    reflexivity. }
  cbn [app]. rewrite (termsOf_single (TChar c) (Chr (JS.code c)));
    [|cbn [atomOf]; now rewrite Hlit|exact Hh].
  now rewrite IH.
Qed.

(** A regular expression that starts with [^] matches at index 0 only. *)
Lemma search_anchored (ic : bool) (ts : list term) (s : string) :
  search ic (AssertStart :: ts) true s = matchHere ic ts true s.
Proof.
  assert (Hlater : forall r, search ic (AssertStart :: ts) false r = false).
  { induction r as [|x r IH]; cbn; [reflexivity|exact IH]. }
  destruct s as [|x r]; cbn [search matchHere andb].
  - apply orb_false_r.
  - rewrite Hlater. apply orb_false_r.
Qed.

Lemma matchHere_plain (ic : bool) (p : string) :
  forall (atStart : bool) (s : string),
    matchHere ic (Glob.plainTerms p ++ [AssertEnd]) atStart s = Glob.matches ic p s.
Proof.
  induction p as [|c p IH]; intros atStart s.
  - cbn. now destruct s.
  - cbn [Glob.plainTerms Glob.matches].
    destruct (Ascii.eqb c "*") eqn:Hstar.
    + cbn [app matchHere]. revert atStart.
      induction s as [|x r IHs]; intros atStart.
      * now rewrite IH, !orb_false_r.
      * rewrite IH. f_equal. cbn [accepts]. f_equal. apply IHs.
    + destruct (Ascii.eqb c "?") eqn:Hq; cbn [app matchHere];
        (destruct s as [|x r]; [reflexivity|]); cbn [accepts]; now rewrite IH.
Qed.

Lemma matchGlob_plain (name pattern : string) (ignoreCase : option bool) :
  JS.is_one_of "[" pattern = false ->
  matchGlob name pattern ignoreCase
  = Normal (Glob.matches (default false ignoreCase) pattern name).
Proof.
  intros Hp. unfold matchGlob, test, compile, lex, globToRegex.
  change ("^" +:+ translate pattern +:+ "$")
    with (String "^" (translate pattern +:+ "$")).
  cbn [lexFrom lexStep]. cbn. rewrite lexFrom_app, lex_plain by exact Hp.
  cbn [lexFrom lexStep]. cbn. rewrite rev_app_distr, rev_involutive. cbn.
  match goal with |- context [termsOf ?l] => change l with (plainTokens pattern ++ [TDollar]) end.
  rewrite termsOf_plainTokens. cbn [consTerm].
  now rewrite search_anchored, matchHere_plain.
Qed.

(** X1.  On a pattern that has no [[], the matcher returns a boolean,
    and that boolean is the meaning of the pattern as a glob: [*] stands
    for any run of characters other than line terminators, [?] for one
    such character, every other character for itself (up to case when the
    case is ignored), and the whole name must be matched. *)
Theorem glob_semantics (name pattern : string) (ignoreCase : option bool) :
  JS.is_one_of "[" pattern = false ->
  matchGlob name pattern ignoreCase
  = Normal (Glob.matches (default false ignoreCase) pattern name).
Proof. exact (matchGlob_plain name pattern ignoreCase). Qed.

Lemma glob_semantics_witness :
  matchGlob "notes.TXT" "*.t?t" (Some true)
  = Normal (Glob.matches true "*.t?t" "notes.TXT").
Proof. apply (glob_semantics "notes.TXT" "*.t?t" (Some true)). reflexivity. Defined.

Lemma code_inj (a b : ascii) : (JS.code a =? JS.code b)%N = Ascii.eqb a b.
Proof.
  unfold JS.code. destruct (Ascii.eqb_spec a b) as [->|Hne].
  - apply N.eqb_refl.
  - apply N.eqb_neq. intros H. apply Hne.
    rewrite <- (ascii_N_embedding a), <- (ascii_N_embedding b). now rewrite H.
Qed.

Lemma matches_literal (p s : string) :
  JS.is_one_of "*" p = false -> JS.is_one_of "?" p = false ->
  Glob.matches false p s = String.eqb s p.
Proof.
  revert s. induction p as [|c p IH]; intros s Hs Hq.
  - now destruct s.
  - cbn [JS.is_one_of] in Hs, Hq.
    apply orb_false_iff in Hs as [Hs Hs']. apply orb_false_iff in Hq as [Hq Hq'].
    rewrite Ascii.eqb_sym in Hs. rewrite Ascii.eqb_sym in Hq.
    cbn [Glob.matches]. rewrite Hs, Hq.
    destruct s as [|x r]; [reflexivity|].
    unfold charMatches. rewrite code_inj, IH by assumption.
    cbn [String.eqb]. rewrite (Ascii.eqb_sym x c). now destruct (Ascii.eqb c x).
Qed.

(** X2.  A pattern with no [*], [?] or [[] matches, case-sensitively,
    the name equal to it and no other: the characters that mean something
    in a regular expression are escaped by the translation. *)
Theorem literal_pattern_matches_itself (name pattern : string) :
  JS.is_one_of "*" pattern = false ->
  JS.is_one_of "?" pattern = false ->
  JS.is_one_of "[" pattern = false ->
  matchGlob name pattern None = Normal (String.eqb name pattern).
Proof.
  intros Hs Hq Hb. rewrite matchGlob_plain by exact Hb. cbn [default].
  change (default false None) with false. now rewrite matches_literal.
Qed.

Lemma literal_pattern_matches_itself_witness :
  matchGlob "a+b(1).txt" "a+b(1).txt" None = Normal true
  /\ matchGlob "aab(1).txt" "a+b(1).txt" None = Normal false.
Proof.
  split.
  - apply (literal_pattern_matches_itself "a+b(1).txt" "a+b(1).txt"); reflexivity.
  - apply (literal_pattern_matches_itself "aab(1).txt" "a+b(1).txt"); reflexivity.
Defined.

End GlobSemantics.

(** ** Edge behaviour of the expression builder *)

Section BuilderEdges.
Import Find Shape.

(** The negation pass works on the tokens before and after a point
    independently, unless a negation marker is pending at that point with
    a predicate after it. *)
Lemma foldNot_split (pre s : list Token) :
  noPredicateAhead s -> foldNot (pre ++ s) = foldNot pre ++ foldNot s.
Proof.
  intros Hs. induction pre as [pre IH] using (induction_ltof1 _ (@length Token)).
  unfold ltof in IH.
  destruct pre as [|t pre]; [reflexivity|].
  destruct t as [e|o|].
  - cbn. f_equal. apply IH. cbn. lia.
  - cbn. f_equal. apply IH. cbn. lia.
  - destruct pre as [|t' pre].
    + cbn. destruct s as [|[] s']; try contradiction; reflexivity.
    + destruct t' as [e|o|].
      * cbn. f_equal. apply IH. cbn. lia.
      * change (foldNot ((TNot :: TOp o :: pre) ++ s)) with (foldNot ((TOp o :: pre) ++ s)).
        change (foldNot (TNot :: TOp o :: pre)) with (foldNot (TOp o :: pre)).
        apply IH. cbn. lia.
      * change (foldNot ((TNot :: TNot :: pre) ++ s)) with (foldNot ((TNot :: pre) ++ s)).
        change (foldNot (TNot :: TNot :: pre)) with (foldNot (TNot :: pre)).
        apply IH. cbn. lia.
Qed.

Lemma foldNot_split_settled (pre s : list Token) :
  last pre <> Some TNot -> foldNot (pre ++ s) = foldNot pre ++ foldNot s.
Proof.
  intros Hl. induction pre as [pre IH] using (induction_ltof1 _ (@length Token)).
  unfold ltof in IH.
  destruct pre as [|t pre]; [reflexivity|].
  assert (Htail : forall (x y : Token) l, last (x :: y :: l) = last (y :: l))
    by reflexivity.
  destruct t as [e|o|].
  - cbn. f_equal. apply IH; [cbn; lia|].
    destruct pre; [discriminate|]. now rewrite Htail in Hl.
  - cbn. f_equal. apply IH; [cbn; lia|].
    destruct pre; [discriminate|]. now rewrite Htail in Hl.
  - destruct pre as [|t' pre]; [now contradiction Hl|].
    rewrite Htail in Hl.
    destruct t' as [e|o|].
    + cbn. f_equal. apply IH; [cbn; lia|].
      destruct pre; [discriminate|]. now rewrite Htail in Hl.
    + change (foldNot ((TNot :: TOp o :: pre) ++ s)) with (foldNot ((TOp o :: pre) ++ s)).
      change (foldNot (TNot :: TOp o :: pre)) with (foldNot (TOp o :: pre)).
      apply IH; [cbn; lia|exact Hl].
    + change (foldNot ((TNot :: TNot :: pre) ++ s)) with (foldNot ((TNot :: pre) ++ s)).
      change (foldNot (TNot :: TNot :: pre)) with (foldNot (TNot :: pre)).
      apply IH; [cbn; lia|exact Hl].
Qed.

Lemma foldNot_negations (n : nat) (e : Expression) (rest : list Token) :
  foldNot (repeat TNot (S n) ++ TExpr e :: rest) = TExpr (ENot e) :: foldNot rest.
Proof.
  induction n as [|n IH]; [reflexivity|].
  change (repeat TNot (S (S n)) ++ TExpr e :: rest)
    with (TNot :: TNot :: repeat TNot n ++ TExpr e :: rest).
  change (foldNot (TNot :: TNot :: ?l)) with (foldNot (TNot :: l)).
  exact IH.
Qed.

(** X3.  Negation markers do not cancel: a run of one or more markers
    right before a predicate negates it once, wherever the run stands.
    [! ! -name a] is read as [! -name a]. *)
Theorem negation_run_negates_once :
  (forall (pre : list Token) (n : nat) (e : Expression) (rest : list Token),
     buildTree (pre ++ repeat TNot (S n) ++ TExpr e :: rest)
     = buildTree (pre ++ TNot :: TExpr e :: rest))
  /\ (forall a : string,
        parseExpressions ["!"; "!"; "-name"; a] 0
        = Some {| expr := Some (ENot (EName a None)); pathIndex := 4;
                  error := None; actions := [] |}).
Proof.
  split; [|reflexivity].
  intros pre n e rest. unfold buildTree.
  rewrite (foldNot_split pre (repeat TNot (S n) ++ TExpr e :: rest)) by exact I.
  rewrite (foldNot_split pre (TNot :: TExpr e :: rest)) by exact I.
  now rewrite foldNot_negations.
Qed.

(** X4.  A negation marker with no predicate right after it is dropped:
    at the end of the tokens, and before an operator. *)
Theorem dangling_negation_dropped :
  (forall toks : list Token, buildTree (toks ++ [TNot]) = buildTree toks)
  /\ (forall (pre : list Token) (o : Op) (rest : list Token),
        buildTree (pre ++ TNot :: TOp o :: rest) = buildTree (pre ++ TOp o :: rest)).
Proof.
  split.
  - intros toks. unfold buildTree. rewrite (foldNot_split toks [TNot]) by exact I.
    cbn. now rewrite app_nil_r.
  - intros pre o rest. unfold buildTree.
    rewrite (foldNot_split pre (TNot :: TOp o :: rest)) by exact I.
    now rewrite (foldNot_split pre (TOp o :: rest)) by exact I.
Qed.

Lemma groupStep_closed (l : list Token) (c0 closed : list (list Expression))
    (cur : list Expression) :
  fold_left groupStep l (c0 ++ closed, cur)
  = ((c0 ++ (fold_left groupStep l (closed, cur)).1),
     (fold_left groupStep l (closed, cur)).2).
Proof.
  revert closed cur. induction l as [|t l IH]; intros closed cur; [reflexivity|].
  destruct t as [e|[]|]; cbn [fold_left groupStep]; try apply IH.
  rewrite <- app_assoc. apply IH.
Qed.

Lemma orGroups_leading_or (l : list Token) :
  orGroups (TOp OpOr :: l) = [] :: orGroups l.
Proof.
  unfold orGroups. cbn [fold_left groupStep]. cbn [app].
  pose proof (groupStep_closed l [[]] [] []) as H. rewrite app_nil_r in H. rewrite H.
  now destruct (fold_left groupStep l ([], [])).
Qed.

Lemma orGroups_app_or (l : list Token) :
  orGroups (l ++ [TOp OpOr]) = orGroups l ++ [[]].
Proof.
  unfold orGroups. rewrite fold_left_app.
  now destruct (fold_left groupStep l ([], [])).
Qed.

Lemma andResults_app (g1 g2 : list (list Expression)) :
  andResults (g1 ++ g2) = andResults g1 ++ andResults g2.
Proof. unfold andResults. apply omap_app. Qed.

Lemma orGroups_split_or (l1 l2 : list Token) :
  orGroups (l1 ++ TOp OpOr :: l2) = orGroups l1 ++ orGroups l2.
Proof.
  unfold orGroups. rewrite fold_left_app. cbn [fold_left].
  destruct (fold_left groupStep l1 ([], [])) as [closed cur]. cbn [groupStep].
  pose proof (groupStep_closed l2 (closed ++ [cur]) [] []) as H.
  rewrite app_nil_r in H. rewrite H.
  destruct (fold_left groupStep l2 ([], [])) as [closed2 cur2]. cbn [fst snd].
  now rewrite <- app_assoc.
Qed.

(** X5.  An [-o] with nothing on one side adds nothing: the empty group
    is skipped, at the start of the tokens, at their end, and between
    two [-o] that follow each other anywhere in the tokens. *)
Theorem empty_or_side_skipped (toks : list Token) :
  buildTree (TOp OpOr :: toks) = buildTree toks
  /\ buildTree (toks ++ [TOp OpOr]) = buildTree toks
  /\ (forall pre rest : list Token,
        buildTree (pre ++ TOp OpOr :: TOp OpOr :: rest)
        = buildTree (pre ++ TOp OpOr :: rest)).
Proof.
  unfold buildTree. split; [|split].
  - change (foldNot (TOp OpOr :: toks)) with (TOp OpOr :: foldNot toks).
    now rewrite orGroups_leading_or.
  - rewrite (foldNot_split toks [TOp OpOr]) by exact I.
    change (foldNot [TOp OpOr]) with [TOp OpOr].
    rewrite orGroups_app_or, andResults_app. cbn. now rewrite app_nil_r.
  - intros pre rest.
    rewrite (foldNot_split pre (TOp OpOr :: TOp OpOr :: rest)) by exact I.
    rewrite (foldNot_split pre (TOp OpOr :: rest)) by exact I.
    change (foldNot (TOp OpOr :: TOp OpOr :: rest))
      with (TOp OpOr :: TOp OpOr :: foldNot rest).
    change (foldNot (TOp OpOr :: rest)) with (TOp OpOr :: foldNot rest).
    rewrite !orGroups_split_or, orGroups_leading_or, !andResults_app.
    reflexivity.
Qed.

(** [-empty -o -o -type f] *)
Example doubled_or :
  buildTree [TExpr EEmpty; TOp OpOr; TOp OpOr; TExpr (EType TypeF)]
  = Some (EOr EEmpty (EType TypeF)).
Proof. reflexivity. Qed.

Lemma orGroups_explicit_and (l1 l2 : list Token) :
  orGroups (l1 ++ TOp OpAnd :: l2) = orGroups (l1 ++ l2).
Proof.
  unfold orGroups. rewrite !fold_left_app. cbn [fold_left].
  now destruct (fold_left groupStep l1 ([], [])).
Qed.

(** X6.  An explicit [-a] is the same as adjacency: removing it from the
    tokens does not change the tree, provided it does not separate a
    negation marker from its predicate. *)
Theorem explicit_and_is_adjacency (pre rest : list Token) :
  last pre <> Some TNot ->
  buildTree (pre ++ TOp OpAnd :: rest) = buildTree (pre ++ rest).
Proof.
  intros Hl. unfold buildTree.
  rewrite (foldNot_split pre (TOp OpAnd :: rest)) by exact I.
  rewrite (foldNot_split_settled pre rest) by exact Hl.
  change (foldNot (TOp OpAnd :: rest)) with (TOp OpAnd :: foldNot rest).
  now rewrite orGroups_explicit_and.
Qed.

Lemma explicit_and_is_adjacency_witness :
  buildTree ([TExpr EEmpty] ++ TOp OpAnd :: [TNot; TExpr (EType TypeF)])
  = buildTree ([TExpr EEmpty] ++ [TNot; TExpr (EType TypeF)]).
Proof.
  apply (explicit_and_is_adjacency [TExpr EEmpty] [TNot; TExpr (EType TypeF)]).
  discriminate.
Defined.

(** An [-a] between a negation marker and its predicate does change the
    tree: the marker is dropped. *)
Example and_after_negation :
  buildTree [TNot; TOp OpAnd; TExpr EEmpty] = Some EEmpty
  /\ buildTree [TNot; TExpr EEmpty] = Some (ENot EEmpty).
Proof. split; reflexivity. Qed.

End BuilderEdges.

(** ** The shape of every parsed tree *)

Section NormalForm.
Import Find Shape.

Lemma scanStep_leaf (args : list string) (st st' : ScanState) :
  forallb leafToken (scan_tokens st) = true ->
  scanStep args st = Continue st' \/ scanStep args st = Break st' ->
  forallb leafToken (scan_tokens st') = true.
Proof.
  intros Hl [H|H]; unfold scanStep, failWith in H;
    repeat case_match; simplify_eq; cbn [scan_tokens];
    rewrite ?forallb_app, ?Hl; cbn; try reflexivity; try exact Hl; congruence.
Qed.

Lemma scanStep_fail (args : list string) (st : ScanState) (r : ParseResult) :
  scanStep args st = Fail r ->
  expr r = None /\ actions r = [] /\ exists c msg, error r = Some (String c msg).
Proof.
  unfold scanStep, failWith. intros H.
  repeat case_match; simplify_eq; cbn; repeat split; eauto.
Qed.

Lemma scanLoop_leaf (fuel : nat) (args : list string) (st st' : ScanState) :
  forallb leafToken (scan_tokens st) = true ->
  scanLoop fuel args st = Some (inl st') ->
  forallb leafToken (scan_tokens st') = true.
Proof.
  revert st. induction fuel as [|fuel IH]; intros st Hl H; [discriminate H|].
  cbn [scanLoop] in H. case_bool_decide; [|now simplify_eq].
  destruct (scanStep args st) as [s1|s1|r] eqn:Hs; [| |discriminate H].
  - apply (IH s1); [|exact H]. eapply scanStep_leaf; eauto.
  - injection H as <-. eapply scanStep_leaf; eauto.
Qed.

Lemma scanLoop_fail (fuel : nat) (args : list string) (st : ScanState) (r : ParseResult) :
  scanLoop fuel args st = Some (inr r) ->
  expr r = None /\ actions r = [] /\ exists c msg, error r = Some (String c msg).
Proof.
  revert st. induction fuel as [|fuel IH]; intros st H; [discriminate H|].
  cbn [scanLoop] in H. case_bool_decide; [|discriminate H].
  destruct (scanStep args st) as [s1|s1|r'] eqn:Hs; [|discriminate H|].
  - now apply (IH s1).
  - injection H as <-. now apply (scanStep_fail args st).
Qed.

Lemma foldNot_literalTokens (toks : list Token) :
  forallb leafToken toks = true -> forallb literalToken (foldNot toks) = true.
Proof.
  induction toks as [toks IH] using (induction_ltof1 _ (@length Token)).
  unfold ltof in IH. intros Hl.
  destruct toks as [|t toks]; [reflexivity|].
  cbn [forallb] in Hl. apply andb_true_iff in Hl as [Ht Hl].
  destruct t as [e|o|].
  - cbn. rewrite IH by (cbn; lia || exact Hl). cbn in Ht.
    destruct e; try discriminate Ht; reflexivity.
  - cbn. apply IH; [cbn; lia|exact Hl].
  - destruct toks as [|[e|o|] toks].
    + reflexivity.
    + cbn [forallb] in Hl. apply andb_true_iff in Hl as [He Hl].
      cbn. cbn in He. rewrite He. apply IH; [cbn; lia|exact Hl].
    + change (foldNot (TNot :: TOp o :: toks)) with (foldNot (TOp o :: toks)).
      apply IH; [cbn; lia|exact Hl].
    + change (foldNot (TNot :: TNot :: toks)) with (foldNot (TNot :: toks)).
      apply IH; [cbn; lia|exact Hl].
Qed.

Lemma groupStep_literals (l : list Token) (closed : list (list Expression))
    (cur : list Expression) :
  forallb literalToken l = true ->
  forallb (forallb isLiteral) closed = true ->
  forallb isLiteral cur = true ->
  forallb (forallb isLiteral)
    ((fold_left groupStep l (closed, cur)).1 ++ [(fold_left groupStep l (closed, cur)).2])
  = true.
Proof.
  revert closed cur. induction l as [|t l IH]; intros closed cur Hl Hc Hu.
  - cbn. rewrite forallb_app, Hc. cbn. now rewrite Hu.
  - cbn [forallb] in Hl. apply andb_true_iff in Hl as [Ht Hl].
    destruct t as [e|[]|]; cbn [fold_left groupStep]; try discriminate Ht.
    + apply IH; [exact Hl|exact Hc|]. rewrite forallb_app, Hu. cbn. cbn in Ht.
      now rewrite Ht.
    + now apply IH.
    + apply IH; [exact Hl| |reflexivity]. rewrite forallb_app, Hc. cbn. now rewrite Hu.
Qed.

Lemma fold_and_conjunction (r : list Expression) (e : Expression) :
  isConjunction e = true -> forallb isLiteral r = true ->
  isConjunction (fold_left EAnd r e) = true.
Proof.
  revert e. induction r as [|x r IH]; intros e He Hr; [exact He|].
  cbn [forallb] in Hr. apply andb_true_iff in Hr as [Hx Hr].
  cbn [fold_left]. apply IH; [|exact Hr]. cbn. now rewrite He, Hx.
Qed.

Lemma literal_conjunction (e : Expression) :
  isLiteral e = true -> isConjunction e = true.
Proof. destruct e; cbn; congruence. Qed.

Lemma conjunction_disjunction (e : Expression) :
  isConjunction e = true -> isDisjunction e = true.
Proof. destruct e; cbn; congruence. Qed.

Lemma andResults_conjunctions (groups : list (list Expression)) :
  forallb (forallb isLiteral) groups = true ->
  forallb isConjunction (andResults groups) = true.
Proof.
  unfold andResults. induction groups as [|g groups IH]; intros Hg; [reflexivity|].
  cbn [forallb] in Hg. apply andb_true_iff in Hg as [H1 Hg].
  cbn [omap list_omap]. destruct g as [|e r]; cbn [chain].
  - now apply IH.
  - cbn [forallb] in H1 |- *. apply andb_true_iff in H1 as [He Hr].
    rewrite (fold_and_conjunction r e (literal_conjunction e He) Hr). now apply IH.
Qed.

Lemma fold_or_disjunction (r : list Expression) (e : Expression) :
  isDisjunction e = true -> forallb isConjunction r = true ->
  isDisjunction (fold_left EOr r e) = true.
Proof.
  revert e. induction r as [|x r IH]; intros e He Hr; [exact He|].
  cbn [forallb] in Hr. apply andb_true_iff in Hr as [Hx Hr].
  cbn [fold_left]. apply IH; [|exact Hr]. cbn. now rewrite He, Hx.
Qed.

Lemma buildTree_shape (toks : list Token) (e : Expression) :
  forallb leafToken toks = true -> buildTree toks = Some e -> isDisjunction e = true.
Proof.
  intros Hl. unfold buildTree, orGroups.
  pose proof (groupStep_literals (foldNot toks) [] [] (foldNot_literalTokens toks Hl)
                eq_refl eq_refl) as Hg.
  destruct (fold_left groupStep (foldNot toks) ([], [])) as [closed cur].
  cbn [fst snd] in Hg. apply andResults_conjunctions in Hg.
  destruct (andResults (closed ++ [cur])) as [|c r]; [discriminate|].
  cbn [chain forallb] in *. apply andb_true_iff in Hg as [Hc Hr].
  intros [= <-]. apply fold_or_disjunction; [now apply conjunction_disjunction|exact Hr].
Qed.

(** X7.  Whatever the arguments, the tree that the parse returns is a
    left-nested disjunction of left-nested conjunctions of predicates and
    negated predicates: a negation is never applied to a conjunction or a
    disjunction, nor a conjunction to a disjunction. *)
Theorem parsed_tree_shape (args : list string) (startIndex : nat) (r : ParseResult)
    (e : Expression) :
  parseExpressions args startIndex = Some r ->
  expr r = Some e ->
  isDisjunction e = true.
Proof.
  unfold parseExpressions.
  destruct (scanLoop (S (length args)) args
              {| scan_i := startIndex; scan_tokens := []; scan_actions := [] |})
    as [[st|r']|] eqn:Hloop; [| |discriminate].
  - intros [= <-]. apply scanLoop_leaf in Hloop; [|reflexivity].
    unfold finish. destruct (scan_tokens st) as [|t toks] eqn:Ht; [discriminate|].
    cbn [expr]. now apply buildTree_shape.
  - intros [= <-] He. apply scanLoop_fail in Hloop as [Hnone _]. congruence.
Qed.

Lemma parsed_tree_shape_witness :
  isDisjunction
    (EOr (EAnd (ENot (EName "a" None)) (EType TypeF)) EEmpty) = true.
Proof.
  apply (parsed_tree_shape ["!"; "-name"; "a"; "-type"; "f"; "-o"; "-empty"] 0
           {| expr := Some (EOr (EAnd (ENot (EName "a" None)) (EType TypeF)) EEmpty);
              pathIndex := 7; error := None; actions := [] |});
    reflexivity.
Defined.

(** X8.  A parse that reports an error reports nothing else: the
    expression is null and the list of actions is empty, also when tokens
    and actions were read before the error. *)
Theorem parse_error_carries_nothing (args : list string) (startIndex : nat)
    (r : ParseResult) :
  parseExpressions args startIndex = Some r ->
  error r <> None ->
  expr r = None /\ actions r = [].
Proof.
  unfold parseExpressions.
  destruct (scanLoop (S (length args)) args
              {| scan_i := startIndex; scan_tokens := []; scan_actions := [] |})
    as [[st|r']|] eqn:Hloop; [| |discriminate].
  - intros [= <-]. unfold finish. destruct (scan_tokens st); cbn; congruence.
  - intros [= <-] _. apply scanLoop_fail in Hloop as (H1 & H2 & _). now split.
Qed.

Lemma parse_error_carries_nothing_witness :
  expr {| expr := None; pathIndex := 3; error := Some ("find: unknown predicate '-x'" +:+ LF);
          actions := [] |} = None
  /\ actions {| expr := None; pathIndex := 3;
                error := Some ("find: unknown predicate '-x'" +:+ LF);
                actions := [] |} = [].
Proof.
  apply (parse_error_carries_nothing ["-empty"; "-print"; "-delete"; "-x"] 0);
    [reflexivity|discriminate].
Defined.

End NormalForm.

(** ** Edge behaviour of the tokenizer *)

Section TokenizerEdges.
Import Find Scan.

Lemma scanStep_value_missing (args : list string) (st : ScanState) (flag : string) :
  In flag valueFlags ->
  args !! scan_i st = Some flag ->
  (scan_i st + 1)%nat = length args ->
  scanStep args st
  = failWith (scan_i st) ("find: unknown predicate '" +:+ flag +:+ "'" +:+ LF).
Proof.
  intros Hin Harg Hlast. unfold scanStep. rewrite Harg.
  rewrite (bool_decide_eq_false_2 (scan_i st + 1 < length args)%nat) by lia.
  cbn in Hin. repeat (destruct Hin as [<-|Hin]; [reflexivity|]). contradiction.
Qed.

Lemma scanStep_depth_flag (args : list string) (st : ScanState) (flag : string) :
  flag = "-maxdepth" \/ flag = "-mindepth" ->
  args !! scan_i st = Some flag ->
  scanStep args st
  = Continue {| scan_i := scan_i st + 2; scan_tokens := scan_tokens st;
                scan_actions := scan_actions st |}.
Proof.
  intros Hf Harg. unfold scanStep. rewrite Harg.
  destruct Hf as [-> | ->]; reflexivity.
Qed.

(** X9.  A flag that reads a value and stands last, with no value after
    it, is reported as an unknown predicate; [-maxdepth] and [-mindepth]
    in that place are passed over without an error. *)
Theorem flag_without_value (args : list string) (st : ScanState) (flag : string) :
  reaches args 0 st ->
  args !! scan_i st = Some flag ->
  (scan_i st + 1)%nat = length args ->
  (In flag valueFlags ->
   parseExpressions args 0
   = Some {| expr := None; pathIndex := scan_i st;
             error := Some ("find: unknown predicate '" +:+ flag +:+ "'" +:+ LF);
             actions := [] |})
  /\ (flag = "-maxdepth" \/ flag = "-mindepth" ->
      parseExpressions args 0
      = Some (finish {| scan_i := scan_i st + 2; scan_tokens := scan_tokens st;
                        scan_actions := scan_actions st |})).
Proof.
  intros Hr Harg Hlast. split.
  - intros Hin. apply (parse_fails_at args st); [exact Hr|lia|].
    now apply scanStep_value_missing.
  - intros Hf. apply parse_finishes_at; [|cbn; lia].
    eapply reaches_step; [exact Hr|lia|]. now apply (scanStep_depth_flag args st flag).
Qed.

Lemma flag_without_value_witness :
  parseExpressions ["-type"; "f"; "-name"] 0
  = Some {| expr := None; pathIndex := 2;
            error := Some ("find: unknown predicate '-name'" +:+ LF); actions := [] |}
  /\ parseExpressions ["-type"; "f"; "-maxdepth"] 0
     = Some {| expr := Some (EType TypeF); pathIndex := 4; error := None; actions := [] |}.
Proof.
  assert (Hr : forall last, reaches ["-type"; "f"; last] 0
                 {| scan_i := 2; scan_tokens := [TExpr (EType TypeF)];
                    scan_actions := [] |}).
  { intros last. eapply reaches_step; [apply reaches_start|cbn; lia|reflexivity]. }
  split.
  - apply (proj1 (flag_without_value ["-type"; "f"; "-name"] _ "-name" (Hr "-name")
                    eq_refl eq_refl)).
    cbn. tauto.
  - apply (proj2 (flag_without_value ["-type"; "f"; "-maxdepth"] _ "-maxdepth"
                    (Hr "-maxdepth") eq_refl eq_refl)).
    now left.
Defined.

Lemma scanStep_type_error (args : list string) (st : ScanState) (v : string) :
  args !! scan_i st = Some "-type" ->
  args !! (scan_i st + 1)%nat = Some v ->
  v <> "f" -> v <> "d" ->
  scanStep args st
  = failWith (scan_i st + 1) ("find: Unknown argument to -type: " +:+ v +:+ LF).
Proof.
  intros Harg Hv Hf Hd. unfold scanStep. rewrite Harg, Hv.
  rewrite (bool_decide_eq_true_2 (scan_i st + 1 < length args)%nat)
    by (now apply lookup_lt_Some in Hv).
  cbn. unfold streq.
  rewrite (proj2 (String.eqb_neq v "f") Hf), (proj2 (String.eqb_neq v "d") Hd).
  reflexivity.
Qed.

End TokenizerEdges.

Section TypeError.
Import Find Scan.
Context {σ : Type} (ctx : CommandContext σ) (now : Z).
Context (hasHelpFlag : list string -> bool) (showHelp : ExecResult).

(** X10.  When the scan arrives at a [-type] whose value is neither [f]
    nor [d], and the arguments carry no help flag, the invocation returns
    empty stdout, the line [find: Unknown argument to -type: ] with the
    value on stderr, and exit code 1; nothing is called on the file
    system. *)
Theorem type_error_stops_invocation (fuel : nat) (args : list string)
    (st : ScanState) (v : string) (w : World σ) :
  hasHelpFlag args = false ->
  reaches args 0 st ->
  args !! scan_i st = Some "-type" ->
  args !! (scan_i st + 1)%nat = Some v ->
  v <> "f" -> v <> "d" ->
  execute ctx now hasHelpFlag showHelp fuel args w
  = (Done {| stdout := EmptyString;
             stderr := "find: Unknown argument to -type: " +:+ v +:+ LF;
             exitCode := 1 |}, w).
Proof.
  intros Hh Hr Harg Hv Hf Hd.
  pose proof (scanStep_type_error args st v Harg Hv Hf Hd) as Hs.
  apply lookup_lt_Some in Harg.
  exact (execute_parse_error ctx now hasHelpFlag showHelp fuel args _ _ _ w Hh
           (parse_fails_at args st _ Hr Harg Hs) eq_refl).
Qed.

End TypeError.

Lemma type_error_stops_invocation_witness :
  Scenario.run 0 ["."; "-type"; "l"; "-print"]
  = (Find.Done {| Find.stdout := EmptyString;
                  Find.stderr := "find: Unknown argument to -type: l" +:+ Find.LF;
                  Find.exitCode := 1 |}, Scenario.untouched).
Proof.
  refine (type_error_stops_invocation Scenario.context 0 Scenario.hasHelpFlag
            Scenario.help 0 ["."; "-type"; "l"; "-print"]
            {| Find.scan_i := 1; Find.scan_tokens := []; Find.scan_actions := [] |}
            "l" Scenario.untouched eq_refl _ eq_refl eq_refl _ _); try discriminate.
  eapply Scan.reaches_step; [apply Scan.reaches_start|cbn; lia|reflexivity].
Defined.

Section ExecTemplate.
Import Find Scan.

Lemma execParts_template (parts : list string) (t : string) (rest : list string) :
  Forall (fun a => a <> ";" /\ a <> "+") parts ->
  t = ";" \/ t = "+" ->
  execParts (parts ++ t :: rest) = (parts, Some t).
Proof.
  intros Hp Ht. induction Hp as [|a parts [Ha1 Ha2] _ IH]; cbn [app execParts].
  - destruct Ht as [-> | ->]; reflexivity.
  - unfold streq at 1 2.
    rewrite (proj2 (String.eqb_neq a ";") Ha1), (proj2 (String.eqb_neq a "+") Ha2).
    cbn [orb]. now rewrite IH.
Qed.

(** X11.  An [-exec] reads as its command every argument up to the
    first [;] or [+], whatever these arguments are (flags included), and
    records the action with the batch mode set exactly for [+]; the scan
    goes on after the terminator, and no token is emitted. *)
Theorem exec_template_read (pre parts rest : list string) (t : string) (st : ScanState) :
  scan_i st = length pre ->
  Forall (fun a => a <> ";" /\ a <> "+") parts ->
  t = ";" \/ t = "+" ->
  scanStep (pre ++ "-exec" :: parts ++ t :: rest) st
  = Continue {| scan_i := length pre + length parts + 2;
                scan_tokens := scan_tokens st;
                scan_actions := scan_actions st ++ [AExec parts (streq t "+")] |}.
Proof.
  intros Hi Hp Ht. unfold scanStep. rewrite Hi.
  rewrite (list_lookup_middle pre _ "-exec" (length pre) eq_refl).
  cbn.
  replace (drop (length pre + 1) (pre ++ "-exec" :: parts ++ t :: rest))
    with (parts ++ t :: rest).
  2: { rewrite drop_app_ge by lia.
       now replace (length pre + 1 - length pre)%nat with 1%nat by lia. }
  rewrite (execParts_template parts t rest Hp Ht).
  do 2 f_equal. lia.
Qed.

Lemma exec_template_read_witness :
  scanStep (["."; "-empty"] ++ "-exec" :: ["rm"; "-f"; "{}"] ++ ";" :: ["-print"])
    {| scan_i := 2; scan_tokens := [TExpr EEmpty]; scan_actions := [] |}
  = Continue {| scan_i := 2 + 3 + 2; scan_tokens := [TExpr EEmpty];
                scan_actions := [] ++ [AExec ["rm"; "-f"; "{}"] false] |}.
Proof.
  apply (exec_template_read ["."; "-empty"] ["rm"; "-f"; "{}"] ["-print"] ";"
           {| scan_i := 2; scan_tokens := [TExpr EEmpty]; scan_actions := [] |});
    [reflexivity| |now left].
  repeat constructor; discriminate.
Defined.

End ExecTemplate.

(** ** The search path and the expression *)

Section SearchPath.
Import Find Grammar.

Lemma streq_dash (p tail : string) :
  JS.startsWith p "-" = false -> streq p (String "-" tail) = false.
Proof.
  unfold JS.startsWith, streq. destruct p as [|c p]; [reflexivity|].
  cbn. destruct (Ascii.eqb_spec c "-") as [->|Hc].
  - destruct (ascii_dec "-" "-"); [|congruence]. now destruct p.
  - intros _. reflexivity.
Qed.

Lemma streq_ne (a b : string) : a <> b -> streq a b = false.
Proof. intros H. now apply String.eqb_neq. Qed.

Lemma discover_value (flag v : string) (rest : list string)
    (acc : string * option JS.num * option JS.num) :
  In flag valueFlags ->
  discover (flag :: v :: rest) acc = discover rest acc.
Proof.
  intros Hin. destruct acc as [[path maxD] minD]. cbn in Hin.
  repeat (destruct Hin as [<-|Hin]; [reflexivity|]). contradiction.
Qed.

Lemma discover_plain (flag : string) (rest : list string)
    (acc : string * option JS.num * option JS.num) :
  In flag ["-empty"; "-a"; "-o"] ->
  discover (flag :: rest) acc = discover rest acc.
Proof.
  intros Hin. destruct acc as [[path maxD] minD]. cbn in Hin.
  repeat (destruct Hin as [<-|Hin]; [now destruct rest|]). contradiction.
Qed.

Lemma discover_negation (rest : list string) (path : string) (maxD minD : option JS.num) :
  discover ("!" :: rest) (path, maxD, minD) = discover rest ("!", maxD, minD).
Proof. now destruct rest. Qed.

Lemma discover_written_then (toks : list Token) (rest : list string) :
  Forall writable toks ->
  forall path maxD minD,
    discover (argsOf toks ++ rest) (path, maxD, minD)
    = discover rest (if hasNegation toks then "!" else path, maxD, minD).
Proof.
  induction 1 as [|t toks [ws Hws] _ IH]; intros path maxD minD; [reflexivity|].
  unfold argsOf in *. cbn [flat_map]. rewrite Hws.
  change (default [] (Some ws)) with ws. rewrite <- app_assoc.
  destruct t as [e|[|]|].
  - change (hasNegation (TExpr e :: toks)) with (hasNegation toks).
    rewrite <- IH. cbn in Hws.
    destruct e; cbn in Hws; repeat case_match; simplify_eq; cbn [app].
    all: first [apply discover_value; cbn; tauto | apply discover_plain; cbn; tauto].
  - cbn in Hws. simplify_eq.
    change (hasNegation (TOp OpAnd :: toks)) with (hasNegation toks).
    rewrite <- IH. apply discover_plain; cbn; tauto.
  - cbn in Hws. simplify_eq.
    change (hasNegation (TOp OpOr :: toks)) with (hasNegation toks).
    rewrite <- IH. apply discover_plain; cbn; tauto.
  - cbn in Hws. simplify_eq. cbn [app]. rewrite discover_negation, IH.
    change (hasNegation (TNot :: toks)) with true. now destruct (hasNegation toks).
Qed.

Lemma discover_written (toks : list Token) :
  Forall writable toks ->
  forall path maxD minD,
    discover (argsOf toks) (path, maxD, minD)
    = (if hasNegation toks then "!" else path, maxD, minD).
Proof.
  intros Hw path maxD minD.
  rewrite <- (app_nil_r (argsOf toks)). now rewrite discover_written_then.
Qed.

End SearchPath.

Section PathAndExpression.
Import Find Grammar Scan.

Lemma discover_bare (p : string) (rest : list string) (path : string)
    (maxD minD : option JS.num) :
  JS.startsWith p "-" = false -> p <> ";" -> p <> "+" ->
  discover (p :: rest) (path, maxD, minD) = discover rest (p, maxD, minD).
Proof.
  intros Hd H1 H2.
  destruct rest as [|v rest]; cbn [discover];
    rewrite ?(streq_dash p) by exact Hd;
    rewrite Hd, (streq_ne p ";"), (streq_ne p "+") by assumption; reflexivity.
Qed.

Lemma search_path_both (p : string) (toks : list Token) :
  pathArgument p ->
  Forall writable toks ->
  discover (p :: argsOf toks) (".", None, None)
  = (if hasNegation toks then "!" else p, None, None).
Proof.
  intros (Hd & H1 & H2 & _) Hw.
  rewrite discover_bare by assumption. now apply discover_written.
Qed.

(** X12.  The loop that looks for the search path passes over every
    predicate and its value, but takes the negation written [!] for a
    path: the search path of an invocation is [!] as soon as its
    expression has a [!], and otherwise the path argument before the
    expression, or [.] when there is none. *)
Theorem search_path_discovery (p : string) (toks : list Token) :
  pathArgument p ->
  Forall writable toks ->
  discover (p :: argsOf toks) (".", None, None)
  = (if hasNegation toks then "!" else p, None, None)
  /\ discover (argsOf toks) (".", None, None)
     = (if hasNegation toks then "!" else ".", None, None).
Proof.
  intros Hp Hw. split.
  - now apply search_path_both.
  - now apply discover_written.
Qed.

Lemma search_path_discovery_witness :
  discover ("src" :: argsOf [TNot; TExpr (EName "*.txt" None)]) (".", None, None)
  = (if hasNegation [TNot; TExpr (EName "*.txt" None)] then "!" else "src", None, None)
  /\ discover (argsOf [TNot; TExpr (EName "*.txt" None)]) (".", None, None)
     = (if hasNegation [TNot; TExpr (EName "*.txt" None)] then "!" else ".", None, None).
Proof.
  apply (search_path_discovery "src" [TNot; TExpr (EName "*.txt" None)]).
  - repeat split; (reflexivity || discriminate).
  - repeat constructor; eexists; reflexivity.
Defined.

Lemma scanStep_path (args : list string) (st : ScanState) (p : string) :
  pathArgument p ->
  args !! scan_i st = Some p ->
  scan_tokens st = [] ->
  scanStep args st
  = Continue {| scan_i := scan_i st + 1; scan_tokens := []; scan_actions := scan_actions st |}.
Proof.
  intros (Hd & H1 & H2 & H3) Harg Ht. unfold scanStep. rewrite Harg, Ht. cbv zeta.
  rewrite !(streq_dash p) by exact Hd.
  rewrite (streq_ne p "!") by exact H3.
  cbn [andb orb]. now rewrite Hd.
Qed.

Lemma parse_with_path (p : string) (toks : list Token) :
  pathArgument p ->
  Forall writable toks ->
  parseExpressions (p :: argsOf toks) 0
  = Some {| expr := buildTree toks; pathIndex := S (length (argsOf toks));
            error := None; actions := [] |}.
Proof.
  intros Hp Hw.
  pose proof (reaches_tokens toks [p] []
                {| scan_i := 1; scan_tokens := []; scan_actions := [] |} Hw) as Hr.
  rewrite app_nil_r in Hr.
  cbn [app length Nat.add scan_tokens scan_actions scan_i] in Hr.
  assert (H1 : reaches (p :: argsOf toks) 0
                 {| scan_i := 1; scan_tokens := []; scan_actions := [] |}).
  { eapply reaches_step; [apply reaches_start|cbn; lia|].
    now rewrite (scanStep_path _ _ p Hp). }
  specialize (Hr H1 eq_refl).
  rewrite (parse_finishes_at _ _ Hr) by (cbn; lia).
  unfold finish. cbn [scan_tokens scan_actions scan_i].
  now destruct toks.
Qed.

End PathAndExpression.

Section MissingPath.
Import Find Grammar.
Context {σ : Type} (ctx : CommandContext σ) (now : Z).
Context (hasHelpFlag : list string -> bool) (showHelp : ExecResult).

(** X13.  For a path argument followed by an expression without [!]:
    when the path, resolved against the working directory, cannot be
    stat'ed, the invocation returns empty stdout, the line
    [find: <path>: No such file or directory] with the path as written,
    and exit code 1, after that one stat and nothing else. *)
Theorem missing_search_path (fuel : nat) (p : string) (toks : list Token)
    (w : World σ) :
  pathArgument p ->
  Forall writable toks ->
  hasNegation toks = false ->
  hasHelpFlag (p :: argsOf toks) = false ->
  stat (fs ctx) (store w) (resolvePath (fs ctx) (cwd ctx) p) = None ->
  execute ctx now hasHelpFlag showHelp fuel (p :: argsOf toks) w
  = (Done {| stdout := EmptyString;
             stderr := "find: " +:+ p +:+ ": No such file or directory" +:+ LF;
             exitCode := 1 |},
     Build_World (store w)
       (trace w ++ [EvStat (resolvePath (fs ctx) (cwd ctx) p)])).
Proof.
  intros Hp Hw Hn Hh Hs. unfold execute. rewrite Hh.
  rewrite (search_path_both p toks Hp Hw), Hn.
  rewrite (parse_with_path p toks Hp Hw). cbn [error].
  unfold bind, doStat, id. now rewrite Hs.
Qed.

End MissingPath.

Lemma missing_search_path_witness :
  Scenario.run 0 ("lib" :: Grammar.argsOf [Find.TExpr (Find.EType Find.TypeF)])
  = (Find.Done {| Find.stdout := EmptyString;
                  Find.stderr := "find: lib: No such file or directory" +:+ Find.LF;
                  Find.exitCode := 1 |},
     Find.Build_World tt [Find.EvStat "/work/lib"]).
Proof.
  apply (missing_search_path Scenario.context 0 Scenario.hasHelpFlag Scenario.help 0
           "lib" [Find.TExpr (Find.EType Find.TypeF)] Scenario.untouched);
    try reflexivity.
  - repeat split; (reflexivity || discriminate).
  - repeat constructor; eexists; reflexivity.
Defined.

(** [find . ! -name "*.txt"]: the search path is [!], which does not
    exist. *)
Example negation_mark_taken_for_path :
  Scenario.run 3 ["."; "!"; "-name"; "*.txt"]
  = (Find.Done {| Find.stdout := EmptyString;
                  Find.stderr := "find: !: No such file or directory" +:+ Find.LF;
                  Find.exitCode := 1 |},
     Find.Build_World tt [Find.EvStat "/work/!"])
  /\ Scenario.run 3 ["."; "-not"; "-name"; "*.txt"]
     = (Find.Done {| Find.stdout := "." +:+ Find.LF +:+ "./b.log" +:+ Find.LF
                                    +:+ "./d" +:+ Find.LF;
                     Find.stderr := EmptyString; Find.exitCode := 0 |},
        snd (Scenario.run 3 ["."; "-not"; "-name"; "*.txt"])).
Proof. split; reflexivity. Qed.

(** ** Invariants of the traversal *)

Section Keeps.
Import Find.
Context {S : Type} (R : S -> S -> Prop).
Hypothesis R_same : forall s, R s s.
Hypothesis R_then : forall s1 s2 s3, R s1 s2 -> R s2 s3 -> R s1 s3.

Lemma keeps_ret {A : Type} (a : A) : keeps R (ret a : M S A).
Proof. intros s o s' H. unfold ret in H. simplify_eq. apply R_same. Qed.

Lemma keeps_lift {A : Type} (c : completion A) : keeps R (liftCompletion c : M S A).
Proof.
  intros s o s' H. unfold liftCompletion in H.
  destruct c; simplify_eq; apply R_same.
Qed.

Lemma keeps_bind {A B : Type} (m : M S A) (k : A -> M S B) :
  keeps R m -> (forall a, keeps R (k a)) -> keeps R (bind m k).
Proof.
  intros Hm Hk s o s' H. unfold bind in H.
  destruct (m s) as [[a|e|] s1] eqn:E.
  - eapply R_then; [exact (Hm _ _ _ E)|exact (Hk _ _ _ _ H)].
  - simplify_eq. exact (Hm _ _ _ E).
  - simplify_eq. exact (Hm _ _ _ E).
Qed.

Lemma keeps_bind_ret {A B : Type} (a : A) (k : A -> M S B) :
  keeps R (k a) -> keeps R (bind (ret a) k).
Proof. intros Hk s o s' H. exact (Hk s o s' H). Qed.

Lemma keeps_forEach {A : Type} (l : list A) (body : A -> M S unit) :
  (forall a, keeps R (body a)) -> keeps R (forEach l body).
Proof.
  intros Hb. induction l as [|a l IH]; cbn [forEach].
  - apply keeps_ret.
  - apply keeps_bind; [apply Hb|intros _; exact IH].
Qed.

End Keeps.

Section TraversalInvariants.
Import Find.
Context {σ : Type} (ctx : CommandContext σ) (now : Z).

Lemma prefix_append (a b : string) : String.prefix a (a +:+ b) = true.
Proof.
  induction a as [|c a IH]; [now destruct b|].
  rewrite append_cons. cbn [String.prefix]. now destruct (ascii_dec c c).
Qed.

Lemma prefix_same (a : string) : String.prefix a a = true.
Proof.
  induction a as [|c a IH]; [reflexivity|].
  cbn [String.prefix]. now destruct (ascii_dec c c).
Qed.

Lemma relativePathOf_prefix (env : Env) (path : string) :
  JS.startsWith (relativePathOf env path) (searchPath env) = true.
Proof.
  unfold JS.startsWith, relativePathOf.
  destruct (streq path (basePath env)); [apply prefix_same|].
  destruct (streq (searchPath env) ".") eqn:E; [|apply prefix_append].
  apply String.eqb_eq in E. now rewrite E.
Qed.

Lemma grows_same (env : Env) (s : TravState (σ:=σ)) : grows env s s.
Proof.
  repeat split; exists []; now rewrite app_nil_r.
Qed.

Lemma grows_then (env : Env) (s1 s2 s3 : TravState (σ:=σ)) :
  grows env s1 s2 -> grows env s2 s3 -> grows env s1 s3.
Proof.
  intros (Hs1 & (e1 & Ht1 & He1) & (n1 & Hr1 & Hn1))
         (Hs2 & (e2 & Ht2 & He2) & (n2 & Hr2 & Hn2)).
  split; [congruence|split].
  - exists (e1 ++ e2). split; [now rewrite Ht2, Ht1, app_assoc|].
    now apply Forall_app.
  - exists (n1 ++ n2). split; [now rewrite Hr2, Hr1, app_assoc|].
    now apply Forall_app.
Qed.

Lemma growing_ret {A : Type} (env : Env) (a : A) :
  growing env (ret a : M (TravState (σ:=σ)) A).
Proof. apply keeps_ret, grows_same. Qed.

Lemma growing_bind {A B : Type} (env : Env) (m : M (TravState (σ:=σ)) A)
    (k : A -> M TravState B) :
  growing env m -> (forall a, growing env (k a)) -> growing env (bind m k).
Proof. apply keeps_bind, grows_then. Qed.

Lemma growing_forEach {A : Type} (env : Env) (l : list A)
    (body : A -> M (TravState (σ:=σ)) unit) :
  (forall a, growing env (body a)) -> growing env (forEach l body).
Proof. apply keeps_forEach; [apply grows_same|apply grows_then]. Qed.

Lemma growing_doStat (env : Env) (path : string) :
  growing env (doStat ctx world setWorld path).
Proof.
  intros s o s' H. unfold doStat, setWorld in H. simplify_eq.
  split; [reflexivity|split].
  - exists [EvStat path]. split; [reflexivity|now repeat constructor].
  - exists []. split; [now rewrite app_nil_r|constructor].
Qed.

Lemma growing_doReaddir (env : Env) (path : string) :
  growing env (doReaddir ctx world setWorld path).
Proof.
  intros s o s' H. unfold doReaddir, setWorld in H. simplify_eq.
  split; [reflexivity|split].
  - exists [EvReaddir path]. split; [reflexivity|now repeat constructor].
  - exists []. split; [now rewrite app_nil_r|constructor].
Qed.

Lemma growing_pushResult (env : Env) (path : string) :
  growing env (pushResult (relativePathOf env path) : M (TravState (σ:=σ)) unit).
Proof.
  intros s o s' H. unfold pushResult in H. simplify_eq.
  split; [reflexivity|split].
  - exists []. split; [now rewrite app_nil_r|constructor].
  - exists [relativePathOf env path]. split; [reflexivity|].
    repeat constructor. apply relativePathOf_prefix.
Qed.

Lemma growing_lift {A : Type} (env : Env) (c : completion A) :
  growing env (liftCompletion c : M (TravState (σ:=σ)) A).
Proof. apply keeps_lift, grows_same. Qed.

Lemma growing_emptiness (env : Env) (path : string) (st : Stat.t) :
  growing env (emptiness ctx path st).
Proof.
  unfold emptiness. destruct (Stat.isFile st); [apply growing_ret|].
  destruct (Stat.isDirectory st); [|apply growing_ret].
  apply growing_bind; [apply growing_doReaddir|intros; apply growing_ret].
Qed.

Lemma growing_matching (env : Env) (path : string) (depth : Z) (st : Stat.t)
    (b : bool) :
  growing env (matching now env path depth st b : M (TravState (σ:=σ)) bool).
Proof.
  unfold matching.
  destruct (match minDepth env with Some m => JS.ge (JS.Num depth) m | None => true end);
    destruct (theExpr env); first [apply growing_lift | apply growing_ret].
Qed.

Lemma growing_visit (env : Env) (recurse : string -> Z -> M TravState unit) :
  (forall p d, growing env (recurse p d)) ->
  forall path depth, growing env (visit ctx now recurse env path depth).
Proof.
  intros Hr path depth. unfold visit.
  destruct (match maxDepth env with Some m => JS.gt (JS.Num depth) m | None => false end);
    [apply growing_ret|].
  apply growing_bind; [apply growing_doStat|].
  intros [st|]; [|apply growing_ret].
  apply growing_bind; [apply growing_emptiness|]. intros isEmpty.
  apply growing_bind; [apply growing_matching|]. intros [|].
  - apply growing_bind; [apply growing_pushResult|]. intros _.
    unfold descend. destruct (Stat.isDirectory st); [|apply growing_ret].
    apply growing_bind; [apply growing_doReaddir|]. intros entries.
    apply growing_forEach. intros entry. apply Hr.
  - apply growing_bind; [apply growing_ret|]. intros _.
    unfold descend. destruct (Stat.isDirectory st); [|apply growing_ret].
    apply growing_bind; [apply growing_doReaddir|]. intros entries.
    apply growing_forEach. intros entry. apply Hr.
Qed.

Lemma growing_findRecursive (fuel : nat) (env : Env) :
  forall path depth, growing env (findRecursive ctx now fuel env path depth).
Proof.
  induction fuel as [|fuel IH]; intros path depth.
  - intros s o s' H. cbn in H. simplify_eq. apply grows_same.
  - cbn [findRecursive]. now apply growing_visit.
Qed.

(** X14.  The traversal only reads: however it ends (normally, with an
    exception of the evaluator, or cut short), the store of the file
    system is the one it started from, and the host calls it has added
    are stats and directory listings only. *)
Theorem traversal_reads_only (fuel : nat) (env : Env) (path : string) (depth : Z)
    (s s' : TravState) (o : outcome unit) :
  findRecursive ctx now fuel env path depth s = (o, s') ->
  store (world s') = store (world s)
  /\ exists evs, trace (world s') = trace (world s) ++ evs
                 /\ Forall (fun ev => isRead ev = true) evs.
Proof.
  intros H. destruct (growing_findRecursive fuel env path depth s o s' H) as (Hs & He & _).
  now split.
Qed.

(** X15.  The traversal never drops or reorders a path it has already
    reported, and every path it reports starts with the search path as
    the user wrote it. *)
Theorem reported_paths_start_with_search_path (fuel : nat) (env : Env)
    (path : string) (depth : Z) (s s' : TravState) (o : outcome unit) :
  findRecursive ctx now fuel env path depth s = (o, s') ->
  exists new, results s' = results s ++ new
              /\ Forall (fun r => JS.startsWith r (searchPath env) = true) new.
Proof.
  intros H. destruct (growing_findRecursive fuel env path depth s o s' H) as (_ & _ & Hn).
  exact Hn.
Qed.

End TraversalInvariants.

Lemma traversal_reads_only_witness :
  Find.store (Find.world (snd (Find.findRecursive Scenario.context 0 3 Scenario.env
                                 "/work" 0 Scenario.start)))
  = Find.store (Find.world Scenario.start)
  /\ exists evs,
       Find.trace (Find.world (snd (Find.findRecursive Scenario.context 0 3 Scenario.env
                                      "/work" 0 Scenario.start)))
       = Find.trace (Find.world Scenario.start) ++ evs
       /\ Forall (fun ev => isRead ev = true) evs.
Proof.
  apply (traversal_reads_only Scenario.context 0 3 Scenario.env "/work" 0
           Scenario.start _ (Find.Done tt)).
  reflexivity.
Defined.

Lemma reported_paths_start_with_search_path_witness :
  exists new,
    Find.results (snd (Find.findRecursive Scenario.context 0 3 Scenario.env
                         "/work" 0 Scenario.start))
    = Find.results Scenario.start ++ new
    /\ Forall (fun r => JS.startsWith r (Find.searchPath Scenario.env) = true) new.
Proof.
  apply (reported_paths_start_with_search_path Scenario.context 0 3 Scenario.env
           "/work" 0 Scenario.start _ (Find.Done tt)).
  reflexivity.
Defined.

(** ** Depth bounds that are not numbers *)

Section DepthNotANumber.
Import Find Grammar Scan.
Context {σ : Type} (ctx : CommandContext σ) (now : Z).

Lemma quiet_ret {A : Type} (a : A) : quiet (ret a : M (TravState (σ:=σ)) A).
Proof. now apply keeps_ret. Qed.

Lemma quiet_bind {A B : Type} (m : M (TravState (σ:=σ)) A) (k : A -> M TravState B) :
  quiet m -> (forall a, quiet (k a)) -> quiet (bind m k).
Proof. apply keeps_bind. intros s1 s2 s3 H1 H2. congruence. Qed.

Lemma quiet_doStat (path : string) : quiet (doStat ctx world setWorld path).
Proof. intros s o s' H. unfold doStat, setWorld in H. now simplify_eq. Qed.

Lemma quiet_doReaddir (path : string) : quiet (doReaddir ctx world setWorld path).
Proof. intros s o s' H. unfold doReaddir, setWorld in H. now simplify_eq. Qed.

Lemma quiet_emptiness (path : string) (st : Stat.t) : quiet (emptiness ctx path st).
Proof.
  unfold emptiness. destruct (Stat.isFile st); [apply quiet_ret|].
  destruct (Stat.isDirectory st); [|apply quiet_ret].
  apply quiet_bind; [apply quiet_doReaddir|intros; apply quiet_ret].
Qed.

Lemma matching_minDepth_NaN (env : Env) (path : string) (depth : Z) (st : Stat.t)
    (b : bool) :
  minDepth env = Some JS.NaN ->
  matching now env path depth st b = (ret false : M (TravState (σ:=σ)) bool).
Proof.
  intros Hm. unfold matching. rewrite Hm. cbn [JS.ge]. now destruct (theExpr env).
Qed.

Lemma quiet_visit (env : Env) (recurse : string -> Z -> M TravState unit) :
  minDepth env = Some JS.NaN ->
  (forall p d, quiet (recurse p d)) ->
  forall path depth, quiet (visit ctx now recurse env path depth).
Proof.
  intros Hm Hr path depth. unfold visit.
  destruct (match maxDepth env with Some m => JS.gt (JS.Num depth) m | None => false end);
    [apply quiet_ret|].
  apply quiet_bind; [apply quiet_doStat|].
  intros [st|]; [|apply quiet_ret].
  apply quiet_bind; [apply quiet_emptiness|]. intros isEmpty.
  rewrite (matching_minDepth_NaN env path depth st isEmpty Hm).
  apply keeps_bind_ret. cbv beta iota.
  apply quiet_bind; [apply quiet_ret|]. intros _.
  unfold descend. destruct (Stat.isDirectory st); [|apply quiet_ret].
  apply quiet_bind; [apply quiet_doReaddir|]. intros entries.
  apply keeps_forEach; [reflexivity|intros s1 s2 s3 H1 H2; congruence|].
  intros entry. apply Hr.
Qed.

(** X16.  When the lower depth bound is not a number (the value of
    [-mindepth] did not parse), the traversal reports nothing, at any
    depth and whatever the expression: every comparison of a depth with
    the bound is false. *)
Theorem mindepth_not_a_number_reports_nothing (fuel : nat) (env : Env)
    (path : string) (depth : Z) (s s' : TravState) (o : outcome unit) :
  minDepth env = Some JS.NaN ->
  findRecursive ctx now fuel env path depth s = (o, s') ->
  results s' = results s.
Proof.
  intros Hm. revert path depth s s' o.
  induction fuel as [|fuel IH]; intros path depth s s' o H.
  - cbn in H. now simplify_eq.
  - cbn [findRecursive] in H.
    refine (quiet_visit env _ Hm _ path depth s o s' H).
    intros p d s1 o1 s1' H1. exact (IH p d s1 s1' o1 H1).
Qed.

Lemma bind_ext {S A B : Type} (m1 m2 : M S A) (k1 k2 : A -> M S B) (s : S) :
  m1 s = m2 s -> (forall a s1, k1 a s1 = k2 a s1) -> bind m1 k1 s = bind m2 k2 s.
Proof.
  intros Hm Hk. unfold bind. rewrite Hm. destruct (m2 s) as [[a|e|] s1]; auto.
Qed.

Lemma forEach_ext {S A : Type} (l : list A) (b1 b2 : A -> M S unit) :
  (forall a s, b1 a s = b2 a s) -> forall s, forEach l b1 s = forEach l b2 s.
Proof.
  intros Hb. induction l as [|a l IH]; intros s; [reflexivity|].
  cbn [forEach]. apply bind_ext; [apply Hb|intros _; apply IH].
Qed.

Lemma visit_maxDepth_NaN (env : Env) (r1 r2 : string -> Z -> M TravState unit)
    (path : string) (depth : Z) (s : TravState) :
  maxDepth env = Some JS.NaN ->
  (forall p d s1, r1 p d s1 = r2 p d s1) ->
  visit ctx now r1 env path depth s
  = visit ctx now r2 (withoutMaxDepth env) path depth s.
Proof.
  intros Hm Hr. unfold visit. rewrite Hm.
  cbn [maxDepth withoutMaxDepth JS.gt].
  apply bind_ext; [reflexivity|]. intros [st|] s1; [|reflexivity].
  apply bind_ext; [reflexivity|]. intros isEmpty s2.
  apply bind_ext; [reflexivity|]. intros matches s3.
  apply bind_ext; [reflexivity|]. intros _ s4.
  unfold descend. destruct (Stat.isDirectory st); [|reflexivity].
  apply bind_ext; [reflexivity|]. intros entries s5.
  apply forEach_ext. intros entry s6. apply Hr.
Qed.

Lemma findRecursive_maxDepth_NaN (fuel : nat) (env : Env) :
  maxDepth env = Some JS.NaN ->
  forall path depth s,
    findRecursive ctx now fuel env path depth s
    = findRecursive ctx now fuel (withoutMaxDepth env) path depth s.
Proof.
  intros Hm. induction fuel as [|fuel IH]; intros path depth s; [reflexivity|].
  cbn [findRecursive]. now apply visit_maxDepth_NaN.
Qed.

Context (hasHelpFlag : list string -> bool) (showHelp : ExecResult).

Lemma parse_after_depth_flag (flag v : string) (toks : list Token) :
  flag = "-maxdepth" \/ flag = "-mindepth" ->
  Forall writable toks ->
  parseExpressions (flag :: v :: argsOf toks) 0
  = Some {| expr := buildTree toks; pathIndex := 2 + length (argsOf toks);
            error := None; actions := [] |}.
Proof.
  intros Hf Hw.
  pose proof (reaches_tokens toks [flag; v] []
                {| scan_i := 2; scan_tokens := []; scan_actions := [] |} Hw) as Hr.
  rewrite app_nil_r in Hr.
  cbn [app length Nat.add scan_tokens scan_actions scan_i] in Hr.
  assert (H1 : reaches (flag :: v :: argsOf toks) 0
                 {| scan_i := 2; scan_tokens := []; scan_actions := [] |}).
  { eapply reaches_step; [apply reaches_start|cbn; lia|].
    now rewrite (scanStep_depth_flag _ _ flag Hf). }
  specialize (Hr H1 eq_refl).
  rewrite (parse_finishes_at _ _ Hr) by (cbn; lia).
  unfold finish. cbn [scan_tokens scan_actions scan_i].
  now destruct toks.
Qed.

(** X17.  A [-maxdepth] whose value does not parse as a number bounds
    nothing: put before an expression, it leaves the whole invocation,
    result and host calls, as it is without it. *)
Theorem maxdepth_not_a_number_ignored (fuel : nat) (v : string) (toks : list Token)
    (w : World σ) :
  JS.parseInt v = JS.NaN ->
  Forall writable toks ->
  hasHelpFlag ("-maxdepth" :: v :: argsOf toks) = false ->
  hasHelpFlag (argsOf toks) = false ->
  execute ctx now hasHelpFlag showHelp fuel ("-maxdepth" :: v :: argsOf toks) w
  = execute ctx now hasHelpFlag showHelp fuel (argsOf toks) w.
Proof.
  intros Hv Hw Hh1 Hh2. unfold execute. rewrite Hh1, Hh2.
  change (discover ("-maxdepth" :: v :: argsOf toks) (".", None, None))
    with (discover (argsOf toks) (".", Some (JS.parseInt v), None)).
  rewrite !(discover_written toks Hw), Hv.
  rewrite (parse_after_depth_flag "-maxdepth" v toks (or_introl eq_refl) Hw).
  rewrite (parse_written toks Hw). cbn [error expr actions].
  apply bind_ext; [reflexivity|]. intros [st|] w1; [|reflexivity].
  apply bind_ext; [reflexivity|]. intros table w2.
  apply bind_ext; [|reflexivity].
  unfold collect.
  match goal with
  | |- context [findRecursive ctx now fuel ?env ?p ?d ?s] =>
      rewrite (findRecursive_maxDepth_NaN fuel env eq_refl p d s)
  end.
  reflexivity.
Qed.

End DepthNotANumber.

Lemma mindepth_not_a_number_reports_nothing_witness :
  Find.results
    (snd (Find.findRecursive Scenario.context 0 3
            {| Find.searchPath := "."; Find.maxDepth := None;
               Find.minDepth := Some (JS.parseInt "deep"); Find.basePath := "/work";
               Find.theExpr := None; Find.refTimes := ∅ |}
            "/work" 0 Scenario.start))
  = Find.results Scenario.start.
Proof.
  apply (mindepth_not_a_number_reports_nothing Scenario.context 0 3
           {| Find.searchPath := "."; Find.maxDepth := None;
              Find.minDepth := Some (JS.parseInt "deep"); Find.basePath := "/work";
              Find.theExpr := None; Find.refTimes := ∅ |}
           "/work" 0 Scenario.start _ (Find.Done tt)); reflexivity.
Defined.

Lemma maxdepth_not_a_number_ignored_witness :
  Scenario.run 3 ("-maxdepth" :: "none"
                  :: Grammar.argsOf [Find.TExpr (Find.EType Find.TypeD)])
  = Scenario.run 3 (Grammar.argsOf [Find.TExpr (Find.EType Find.TypeD)]).
Proof.
  apply (maxdepth_not_a_number_ignored Scenario.context 0 Scenario.hasHelpFlag
           Scenario.help 3 "none" [Find.TExpr (Find.EType Find.TypeD)]
           Scenario.untouched); try reflexivity.
  repeat constructor; eexists; reflexivity.
Defined.

(** [find -mindepth x]: nothing is printed, though the tree is walked. *)
Example mindepth_not_a_number :
  fst (Scenario.run 3 ["-mindepth"; "x"])
  = Find.Done {| Find.stdout := EmptyString; Find.stderr := EmptyString;
                 Find.exitCode := 0 |}
  /\ length (Find.trace (snd (Scenario.run 3 ["-mindepth"; "x"]))) = 10%nat.
Proof. split; reflexivity. Qed.

(** ** Laws of the evaluator *)

Section EvaluatorLaws.
Import Find.
Variable now : Z.

Lemma ltb_decide (a b : Z) : (a <? b) = bool_decide (a < b).
Proof.
  destruct (Z.ltb_spec a b); symmetry;
    [now apply bool_decide_eq_true_2|apply bool_decide_eq_false_2; lia].
Qed.

(** X18.  The evaluator obeys the laws of the connectives, exceptions
    of the pattern matcher included: double negation, both De Morgan
    laws, and the regrouping of conjunctions and of disjunctions, so
    that the left-leaning trees of the expression builder mean what any
    other grouping means. *)
Theorem evaluator_connective_laws (a b c : Expression) (ctx : EvalContext) :
  evaluateExpression now (ENot (ENot a)) ctx = evaluateExpression now a ctx
  /\ evaluateExpression now (ENot (EAnd a b)) ctx
     = evaluateExpression now (EOr (ENot a) (ENot b)) ctx
  /\ evaluateExpression now (ENot (EOr a b)) ctx
     = evaluateExpression now (EAnd (ENot a) (ENot b)) ctx
  /\ evaluateExpression now (EAnd (EAnd a b) c) ctx
     = evaluateExpression now (EAnd a (EAnd b c)) ctx
  /\ evaluateExpression now (EOr (EOr a b) c) ctx
     = evaluateExpression now (EOr a (EOr b c)) ctx.
Proof.
  cbn [evaluateExpression].
  destruct (evaluateExpression now a ctx) as [[|]|xa];
    destruct (evaluateExpression now b ctx) as [[|]|xb];
    destruct (evaluateExpression now c ctx) as [[|]|xc];
    repeat split; reflexivity.
Qed.

Lemma evaluate_classFree (e : Expression) (ctx : EvalContext) :
  classFree e = true -> exists b, evaluateExpression now e ctx = Normal b.
Proof.
  induction e as [p ic|p ic|t| |d cmp|r|v u cmp|e IH|l IHl r IHr|l IHl r IHr];
    cbn [classFree evaluateExpression]; intros H.
  - apply matchGlob_total_without_class. now apply negb_true_iff.
  - apply matchGlob_total_without_class. now apply negb_true_iff.
  - destruct t; eauto.
  - eauto.
  - destruct cmp; eauto.
  - destruct (newerRefTimes ctx !! r); eauto.
  - destruct cmp; [destruct u|..]; eauto.
  - destruct (IH H) as [b ->]. cbn. eauto.
  - apply andb_true_iff in H as [Hl Hr].
    destruct (IHl Hl) as [[|] ->]; [exact (IHr Hr)|eauto].
  - apply andb_true_iff in H as [Hl Hr].
    destruct (IHl Hl) as [[|] ->]; [eauto|exact (IHr Hr)].
Qed.

(** X19.  For the units [c], [k], [M] and [G], exactly one of [-size
    +n], [-size -n] and [-size n] holds of a node.  For blocks the exact
    test rounds the size up to whole blocks while the two others compare
    bytes: [-size n] holds exactly for the sizes of the n-th block,
    [512(n-1) < size <= 512n], and every size strictly inside that block
    satisfies [-size -n] as well. *)
Theorem size_comparisons (value : Z) (unit : SizeUnit) (ctx : EvalContext) :
  (unit <> UnitB ->
   exists more less exact,
     evaluateExpression now (ESize value unit More) ctx = Normal more
     /\ evaluateExpression now (ESize value unit Less) ctx = Normal less
     /\ evaluateExpression now (ESize value unit Exact) ctx = Normal exact
     /\ (more = true /\ less = false /\ exact = false
         \/ more = false /\ less = true /\ exact = false
         \/ more = false /\ less = false /\ exact = true))
  /\ evaluateExpression now (ESize value UnitB Exact) ctx
     = Normal (bool_decide (512 * (value - 1) < size ctx <= 512 * value))
  /\ (512 * (value - 1) < size ctx < 512 * value ->
      evaluateExpression now (ESize value UnitB Exact) ctx = Normal true
      /\ evaluateExpression now (ESize value UnitB Less) ctx = Normal true).
Proof.
  assert (Hb : (ceilDiv (size ctx) 512 =? value)
               = bool_decide (512 * (value - 1) < size ctx <= 512 * value)).
  { unfold ceilDiv.
    assert (Hnz : 512 <> 0) by lia. assert (Hpos : 0 < 512) by lia.
    pose proof (Z.div_mod (- size ctx) 512 Hnz) as Hd.
    pose proof (Z.mod_pos_bound (- size ctx) 512 Hpos) as Hm.
    case_bool_decide as Hw; [apply Z.eqb_eq|apply Z.eqb_neq]; lia. }
  split; [|split].
  - intros Hu. cbn [evaluateExpression].
    exists (targetBytes value unit <? size ctx), (size ctx <? targetBytes value unit),
           (size ctx =? targetBytes value unit).
    repeat split; [now destruct unit|].
    destruct (Z.ltb_spec (targetBytes value unit) (size ctx));
      destruct (Z.ltb_spec (size ctx) (targetBytes value unit));
      destruct (Z.eqb_spec (size ctx) (targetBytes value unit)); try lia; tauto.
  - cbn [evaluateExpression]. now rewrite Hb.
  - intros Hin. cbn [evaluateExpression targetBytes]. rewrite Hb. split; f_equal.
    + apply bool_decide_eq_true_2. lia.
    + apply Z.ltb_lt. lia.
Qed.

(** X20.  As long as the age in milliseconds and the number of days
    are below 2^53 in magnitude (where the doubles of the source hold
    them exactly, and where the quotient of the age by the milliseconds
    of a day, below 2^27, is rounded by less than the distance
    1/86400000 that separates it from an integer it is not equal to):
    [-mtime n] holds exactly when the age is in the n-th day, [n days <=
    age < (n+1) days]; [-mtime +n] and [-mtime -n] compare the age
    itself, not its whole days, with [n] days; so [-mtime +n] holds
    together with [-mtime n] in the open interval between [n] and [n+1]
    days. *)
Theorem mtime_comparisons (days : Z) (ctx : EvalContext) :
  let age := now - mtime ctx in
  Z.abs age < 2 ^ 53 ->
  Z.abs days < 2 ^ 53 ->
  evaluateExpression now (EMtime days Exact) ctx
  = Normal (bool_decide (days * msPerDay <= age < (days + 1) * msPerDay))
  /\ evaluateExpression now (EMtime days More) ctx
     = Normal (bool_decide (days * msPerDay < age))
  /\ evaluateExpression now (EMtime days Less) ctx
     = Normal (bool_decide (age < days * msPerDay))
  /\ (days * msPerDay < age < (days + 1) * msPerDay ->
      evaluateExpression now (EMtime days Exact) ctx = Normal true
      /\ evaluateExpression now (EMtime days More) ctx = Normal true).
Proof.
  intros age _ _.
  assert (Hms : msPerDay = 86400000) by reflexivity.
  assert (He : (age / msPerDay =? days)
               = bool_decide (days * msPerDay <= age < (days + 1) * msPerDay)).
  { assert (Hnz : msPerDay <> 0) by lia. assert (Hpos : 0 < msPerDay) by lia.
    pose proof (Z.div_mod age msPerDay Hnz) as Hd.
    pose proof (Z.mod_pos_bound age msPerDay Hpos) as Hm.
    case_bool_decide as Hw; [apply Z.eqb_eq|apply Z.eqb_neq]; nia. }
  cbn [evaluateExpression]. fold age. rewrite He.
  split; [reflexivity|]. split; [|split].
  - f_equal. apply ltb_decide.
  - f_equal. apply ltb_decide.
  - intros Hin. split; f_equal.
    + apply bool_decide_eq_true_2. lia.
    + apply Z.ltb_lt. lia.
Qed.

End EvaluatorLaws.

Lemma size_comparisons_witness :
  Find.evaluateExpression 0 (Find.ESize 2 Find.UnitB Find.Exact) (nodeOfSize 600)
  = Normal true
  /\ Find.evaluateExpression 0 (Find.ESize 2 Find.UnitB Find.Less) (nodeOfSize 600)
     = Normal true.
Proof.
  apply (proj2 (proj2 (size_comparisons 0 2 Find.UnitB (nodeOfSize 600)))).
  cbn. lia.
Defined.

Lemma mtime_comparisons_witness :
  Find.evaluateExpression 129600000 (Find.EMtime 1 Find.Exact) (nodeOfSize 1)
  = Normal true
  /\ Find.evaluateExpression 129600000 (Find.EMtime 1 Find.More) (nodeOfSize 1)
     = Normal true.
Proof.
  apply (proj2 (proj2 (proj2 (mtime_comparisons 129600000 1 (nodeOfSize 1)
                                eq_refl eq_refl)))).
  unfold Find.msPerDay. cbn. lia.
Defined.

(** ** The tree is built from the tokens and from nothing else *)

Section BuilderPreserves.
Import Find.
Variable P : Expression -> bool.
Hypothesis P_not : forall e, P (ENot e) = P e.
Hypothesis P_and : forall l r, P (EAnd l r) = P l && P r.
Hypothesis P_or : forall l r, P (EOr l r) = P l && P r.

Lemma foldNot_all (toks : list Token) :
  forallb (tokenAll P) toks = true -> forallb (tokenAll P) (foldNot toks) = true.
Proof.
  induction toks as [toks IH] using (induction_ltof1 _ (@length Token)).
  unfold ltof in IH. intros Hl.
  destruct toks as [|t toks]; [reflexivity|].
  cbn [forallb] in Hl. apply andb_true_iff in Hl as [Ht Hl].
  destruct t as [e|o|].
  - cbn [foldNot forallb]. rewrite Ht. apply IH; [cbn; lia|exact Hl].
  - cbn [foldNot forallb tokenAll andb]. apply IH; [cbn; lia|exact Hl].
  - destruct toks as [|[e|o|] toks].
    + reflexivity.
    + cbn [forallb] in Hl. apply andb_true_iff in Hl as [He Hl].
      cbn [foldNot forallb tokenAll]. rewrite P_not. cbn in He. rewrite He.
      apply IH; [cbn; lia|exact Hl].
    + change (foldNot (TNot :: TOp o :: toks)) with (foldNot (TOp o :: toks)).
      apply IH; [cbn; lia|exact Hl].
    + change (foldNot (TNot :: TNot :: toks)) with (foldNot (TNot :: toks)).
      apply IH; [cbn; lia|exact Hl].
Qed.

Lemma groupStep_all (l : list Token) (closed : list (list Expression))
    (cur : list Expression) :
  forallb (tokenAll P) l = true ->
  forallb (forallb P) closed = true ->
  forallb P cur = true ->
  forallb (forallb P)
    ((fold_left groupStep l (closed, cur)).1 ++ [(fold_left groupStep l (closed, cur)).2])
  = true.
Proof.
  revert closed cur. induction l as [|t l IH]; intros closed cur Hl Hc Hu.
  - cbn. rewrite forallb_app, Hc. cbn. now rewrite Hu.
  - cbn [forallb] in Hl. apply andb_true_iff in Hl as [Ht Hl].
    destruct t as [e|[]|]; cbn [fold_left groupStep].
    + apply IH; [exact Hl|exact Hc|]. rewrite forallb_app, Hu. cbn. cbn in Ht.
      now rewrite Ht.
    + now apply IH.
    + apply IH; [exact Hl| |reflexivity]. rewrite forallb_app, Hc. cbn. now rewrite Hu.
    + now apply IH.
Qed.

Lemma fold_connective_all (op : Expression -> Expression -> Expression)
    (r : list Expression) (e : Expression) :
  (forall a b, P (op a b) = P a && P b) ->
  P e = true -> forallb P r = true -> P (fold_left op r e) = true.
Proof.
  intros Hop. revert e. induction r as [|x r IH]; intros e He Hr; [exact He|].
  cbn [forallb] in Hr. apply andb_true_iff in Hr as [Hx Hr].
  cbn [fold_left]. apply IH; [|exact Hr]. now rewrite Hop, He, Hx.
Qed.

Lemma andResults_all (groups : list (list Expression)) :
  forallb (forallb P) groups = true -> forallb P (andResults groups) = true.
Proof.
  unfold andResults. induction groups as [|g groups IH]; intros Hg; [reflexivity|].
  cbn [forallb] in Hg. apply andb_true_iff in Hg as [H1 Hg].
  cbn [omap list_omap]. destruct g as [|e r]; cbn [chain].
  - now apply IH.
  - cbn [forallb] in H1 |- *. apply andb_true_iff in H1 as [He Hr].
    rewrite (fold_connective_all EAnd r e P_and He Hr). now apply IH.
Qed.

Lemma buildTree_all (toks : list Token) (e : Expression) :
  forallb (tokenAll P) toks = true -> buildTree toks = Some e -> P e = true.
Proof.
  intros Hl. unfold buildTree, orGroups.
  pose proof (groupStep_all (foldNot toks) [] [] (foldNot_all toks Hl)
                eq_refl eq_refl) as Hg.
  destruct (fold_left groupStep (foldNot toks) ([], [])) as [closed cur].
  cbn [fst snd] in Hg. apply andResults_all in Hg.
  destruct (andResults (closed ++ [cur])) as [|c r]; [discriminate|].
  cbn [chain forallb] in *. apply andb_true_iff in Hg as [Hc Hr].
  intros [= <-]. now apply fold_connective_all.
Qed.

End BuilderPreserves.

(** ** When the pattern matcher can raise *)

Section NoException.
Import Find.

Lemma scanStep_classFree (args : list string) (st st' : ScanState) :
  Forall (fun a => JS.is_one_of "[" a = false) args ->
  forallb (tokenAll classFree) (scan_tokens st) = true ->
  scanStep args st = Continue st' \/ scanStep args st = Break st' ->
  forallb (tokenAll classFree) (scan_tokens st') = true.
Proof.
  intros Ha Hl H.
  assert (Hnext : JS.is_one_of "[" (default EmptyString (args !! (scan_i st + 1)%nat))
                  = false).
  { destruct (args !! (scan_i st + 1)%nat) as [v|] eqn:E; [|reflexivity].
    exact (Forall_lookup_1 _ _ _ _ Ha E). }
  destruct H as [H|H]; unfold scanStep, failWith in H;
    repeat case_match; simplify_eq; cbn [scan_tokens];
    rewrite ?forallb_app, ?Hl; cbn; rewrite ?Hnext; try reflexivity; try exact Hl;
    congruence.
Qed.

Lemma scanLoop_classFree (fuel : nat) (args : list string) (st st' : ScanState) :
  Forall (fun a => JS.is_one_of "[" a = false) args ->
  forallb (tokenAll classFree) (scan_tokens st) = true ->
  scanLoop fuel args st = Some (inl st') ->
  forallb (tokenAll classFree) (scan_tokens st') = true.
Proof.
  intros Ha. revert st. induction fuel as [|fuel IH]; intros st Hl H; [discriminate H|].
  cbn [scanLoop] in H. case_bool_decide; [|now simplify_eq].
  destruct (scanStep args st) as [s1|s1|r] eqn:Hs; [| |discriminate H].
  - apply (IH s1); [|exact H]. eapply scanStep_classFree; eauto.
  - injection H as <-. eapply scanStep_classFree; eauto.
Qed.

Lemma parse_classFree (args : list string) (startIndex : nat) (r : ParseResult)
    (e : Expression) :
  Forall (fun a => JS.is_one_of "[" a = false) args ->
  parseExpressions args startIndex = Some r ->
  expr r = Some e ->
  classFree e = true.
Proof.
  intros Ha. unfold parseExpressions.
  destruct (scanLoop (S (length args)) args
              {| scan_i := startIndex; scan_tokens := []; scan_actions := [] |})
    as [[st|r']|] eqn:Hloop; [| |discriminate].
  - intros [= <-]. apply scanLoop_classFree in Hloop; [|exact Ha|reflexivity].
    unfold finish. destruct (scan_tokens st) as [|t toks] eqn:Ht; [discriminate|].
    cbn [expr]. now apply (buildTree_all classFree).
  - intros [= <-] He. apply scanLoop_fail in Hloop as [Hnone _]. congruence.
Qed.

Context {σ : Type} (ctx : CommandContext σ) (now : Z).

Lemma neverRaises_ret {S A : Type} (a : A) : neverRaises (ret a : M S A).
Proof. intros s o s' H x. unfold ret in H. now simplify_eq. Qed.

Lemma neverRaises_bind {S A B : Type} (m : M S A) (k : A -> M S B) :
  neverRaises m -> (forall a, neverRaises (k a)) -> neverRaises (bind m k).
Proof.
  intros Hm Hk s o s' H x. unfold bind in H.
  destruct (m s) as [[a|e|] s1] eqn:E.
  - exact (Hk _ _ _ _ H x).
  - now pose proof (Hm _ _ _ E e).
  - now simplify_eq.
Qed.

Lemma neverRaises_forEach {S A : Type} (l : list A) (body : A -> M S unit) :
  (forall a, neverRaises (body a)) -> neverRaises (forEach l body).
Proof.
  intros Hb. induction l as [|a l IH]; cbn [forEach].
  - apply neverRaises_ret.
  - apply neverRaises_bind; [apply Hb|intros _; exact IH].
Qed.

Lemma neverRaises_doStat {S : Type} (get : S -> World σ) (set : World σ -> S -> S)
    (path : string) :
  neverRaises (doStat ctx get set path).
Proof. intros s o s' H x. unfold doStat in H. now simplify_eq. Qed.

Lemma neverRaises_doReaddir {S : Type} (get : S -> World σ) (set : World σ -> S -> S)
    (path : string) :
  neverRaises (doReaddir ctx get set path).
Proof. intros s o s' H x. unfold doReaddir in H. now simplify_eq. Qed.

Lemma neverRaises_emptiness (path : string) (st : Stat.t) :
  neverRaises (emptiness ctx path st).
Proof.
  unfold emptiness. destruct (Stat.isFile st); [apply neverRaises_ret|].
  destruct (Stat.isDirectory st); [|apply neverRaises_ret].
  apply neverRaises_bind; [apply neverRaises_doReaddir|intros; apply neverRaises_ret].
Qed.

Lemma neverRaises_matching (env : Env) (path : string) (depth : Z) (st : Stat.t)
    (b : bool) :
  (forall e, theExpr env = Some e -> classFree e = true) ->
  neverRaises (matching now env path depth st b : M (TravState (σ:=σ)) bool).
Proof.
  intros He. unfold matching.
  destruct (match minDepth env with Some m => JS.ge (JS.Num depth) m | None => true end);
    destruct (theExpr env) as [e|]; try apply neverRaises_ret.
  match goal with
  | |- context [evaluateExpression now e ?c] =>
      destruct (evaluate_classFree now e c (He e eq_refl)) as [v ->]
  end.
  apply neverRaises_ret.
Qed.

Lemma neverRaises_findRecursive (fuel : nat) (env : Env) :
  (forall e, theExpr env = Some e -> classFree e = true) ->
  forall path depth, neverRaises (findRecursive ctx now fuel env path depth).
Proof.
  intros He. induction fuel as [|fuel IH]; intros path depth.
  - intros s o s' H x. cbn in H. now simplify_eq.
  - cbn [findRecursive]. unfold visit.
    destruct (match maxDepth env with Some m => JS.gt (JS.Num depth) m | None => false end);
      [apply neverRaises_ret|].
    apply neverRaises_bind; [apply neverRaises_doStat|].
    intros [st|]; [|apply neverRaises_ret].
    apply neverRaises_bind; [apply neverRaises_emptiness|]. intros isEmpty.
    apply neverRaises_bind; [now apply neverRaises_matching|]. intros matches.
    apply neverRaises_bind.
    { destruct matches; [|apply neverRaises_ret].
      intros s o s' H x. unfold pushResult in H. now simplify_eq. }
    intros _. unfold descend. destruct (Stat.isDirectory st); [|apply neverRaises_ret].
    apply neverRaises_bind; [apply neverRaises_doReaddir|]. intros entries.
    apply neverRaises_forEach. intros entry. apply IH.
Qed.

Lemma neverRaises_resolveNewerRefs (e : Expression) :
  forall table, neverRaises (resolveNewerRefs ctx now e table).
Proof.
  induction e as [p ic|p ic|t| |d cmp|r|v u cmp|e IH|l IHl r IHr|l IHl r IHr];
    intros table; cbn [resolveNewerRefs]; try apply neverRaises_ret.
  - apply neverRaises_bind; [apply neverRaises_doStat|].
    intros [st|]; apply neverRaises_ret.
  - apply IH.
  - apply neverRaises_bind; [apply IHl|intros; apply IHr].
  - apply neverRaises_bind; [apply IHl|intros; apply IHr].
Qed.

Context (hasHelpFlag : list string -> bool) (showHelp : ExecResult).

(** X21.  When no argument of the invocation has a bracket in it, the
    invocation never ends with an exception: every name and path pattern
    of the parsed expression is one of the arguments, the expression
    builder adds no pattern, and a pattern without a bracket always
    compiles and is matched. *)
Theorem no_exception_without_brackets (fuel : nat) (args : list string)
    (w w' : World σ) (o : outcome ExecResult) :
  Forall (fun a => JS.is_one_of "[" a = false) args ->
  execute ctx now hasHelpFlag showHelp fuel args w = (o, w') ->
  forall x, o <> Raised x.
Proof.
  intros Ha. revert w o w'.
  change (neverRaises (execute ctx now hasHelpFlag showHelp fuel args)).
  unfold execute. destruct (hasHelpFlag args); [apply neverRaises_ret|].
  destruct (discover args (".", None, None)) as [[sp maxD] minD].
  destruct (parseExpressions args 0) as [r|] eqn:Hp.
  2: { intros w o w' H x. now simplify_eq. }
  assert (Hcf : forall e, expr r = Some e -> classFree e = true)
    by (intros e; exact (parse_classFree args 0 r e Ha Hp)).
  destruct (error r) as [[|c msg]|].
  2: apply neverRaises_ret.
  all: apply neverRaises_bind; [apply neverRaises_doStat|];
    intros [st|]; [|apply neverRaises_ret];
    (apply neverRaises_bind;
     [destruct (expr r); [apply neverRaises_resolveNewerRefs|apply neverRaises_ret]|]);
    intros table;
    (apply neverRaises_bind;
     [intros w o w' H x; unfold collect in H;
      match type of H with
      | context [findRecursive ctx now ?n ?env ?p ?d ?s] =>
          pose proof (neverRaises_findRecursive n env Hcf p d s) as Hn;
          destruct (findRecursive ctx now n env p d s) as [[u|e|] s1]
      end;
      simplify_eq; try discriminate; destruct (Hn _ _ eq_refl e eq_refl)
     |]);
    intros found; destruct (actions r);
    [apply neverRaises_ret|];
    intros w o w' H x;
    match type of H with
    | context [runActions ctx ?f ?a ?st ?w0] => destruct (runActions ctx f a st w0)
    end; now simplify_eq.
Qed.

End NoException.

Lemma no_exception_without_brackets_witness :
  match fst (Scenario.run 3 ["."; "-name"; "*.txt"; "-o"; "-path"; "./d/?.*"]) with
  | Find.Raised _ => False
  | _ => True
  end.
Proof.
  pose proof (no_exception_without_brackets Scenario.context 0 Scenario.hasHelpFlag
                Scenario.help 3 ["."; "-name"; "*.txt"; "-o"; "-path"; "./d/?.*"]
                Scenario.untouched
                (snd (Scenario.run 3 ["."; "-name"; "*.txt"; "-o"; "-path"; "./d/?.*"]))
                (fst (Scenario.run 3 ["."; "-name"; "*.txt"; "-o"; "-path"; "./d/?.*"])))
    as H.
  assert (Ha : Forall (fun a => JS.is_one_of "[" a = false)
                 ["."; "-name"; "*.txt"; "-o"; "-path"; "./d/?.*"])
    by (repeat constructor).
  specialize (H Ha eq_refl).
  destruct (fst (Scenario.run 3 ["."; "-name"; "*.txt"; "-o"; "-path"; "./d/?.*"]))
    as [r|e|]; [exact I|exact (H e eq_refl)|exact I].
Defined.

(** ** The actions *)

Section Actions.
Import Find.
Context {σ : Type} (ctx : CommandContext σ).

Lemma runAction_goes_on (found : list string) (a : FindAction) (out : ExecResult)
    (w : World σ) :
  isExec a = false ->
  exists out' w', runAction ctx found a out w = (inr out', w').
Proof.
  intros Ha. destruct a; try discriminate Ha; cbn [runAction]; eauto.
  destruct (deleteEach ctx _ out w) as [out' w']. eauto.
Qed.

(** X22.  Without a command-execution capability, an invocation with an
    [-exec] returns, at that action, empty stdout, the line [find: -exec
    not supported in this context] and exit code 1: the output and the
    errors of the actions before it are discarded, though what these
    actions have done to the file system stays done, and the actions
    after it are not run. *)
Theorem exec_unsupported (found : list string) (pre post : list FindAction)
    (command : list string) (batchMode : bool) (out : ExecResult) (w : World σ) :
  exec ctx = None ->
  forallb (fun a => negb (isExec a)) pre = true ->
  runActions ctx found (pre ++ AExec command batchMode :: post) out w
  = ({| stdout := EmptyString;
        stderr := "find: -exec not supported in this context" +:+ LF;
        exitCode := 1 |},
     snd (runActions ctx found pre out w)).
Proof.
  intros He Hpre. revert out w.
  induction pre as [|a pre IH]; intros out w.
  - cbn [app runActions runAction]. now rewrite He.
  - cbn [forallb] in Hpre. apply andb_true_iff in Hpre as [Ha Hpre].
    apply negb_true_iff in Ha.
    destruct (runAction_goes_on found a out w Ha) as (out' & w' & Hr).
    cbn [app runActions]. rewrite Hr. now apply IH.
Qed.

End Actions.

Lemma exec_unsupported_witness :
  Find.runActions Scenario.guardedContext ["./a.txt"; "./b.log"]
    ([Find.ADelete; Find.APrint] ++ Find.AExec ["echo"; "{}"] false :: [Find.APrint])
    Scenario.silent (Find.Build_World [] [])
  = ({| Find.stdout := EmptyString;
        Find.stderr := "find: -exec not supported in this context" +:+ Find.LF;
        Find.exitCode := 1 |},
     snd (Find.runActions Scenario.guardedContext ["./a.txt"; "./b.log"]
            [Find.ADelete; Find.APrint] Scenario.silent (Find.Build_World [] []))).
Proof.
  apply (exec_unsupported Scenario.guardedContext ["./a.txt"; "./b.log"]
           [Find.ADelete; Find.APrint] [Find.APrint] ["echo"; "{}"] false
           Scenario.silent (Find.Build_World [] [])); reflexivity.
Defined.

(** [find -delete -exec echo {} ;] where commands cannot be run: the
    removals are made, and the failure to remove [b.log] is not
    reported. *)
Example removals_before_unsupported_exec :
  Find.runActions Scenario.guardedContext ["./a.txt"; "./b.log"]
    [Find.ADelete; Find.AExec ["echo"; "{}"] false] Scenario.silent
    (Find.Build_World [] [])
  = ({| Find.stdout := EmptyString;
        Find.stderr := "find: -exec not supported in this context" +:+ Find.LF;
        Find.exitCode := 1 |},
     Find.Build_World ["/work/./a.txt"]
       [Find.EvRm "/work/./a.txt"; Find.EvRm "/work/./b.log"]).
Proof. reflexivity. Qed.

Section Commands.
Import Find.
Context {σ : Type} (ctx : CommandContext σ).

Lemma execEach_runs (run : σ -> string -> ExecResult * σ) (command files : list string) :
  forall (out : ExecResult) (w : World σ),
    execEach run command files out w
    = ({| stdout := stdout out
                    +:+ foldr String.append EmptyString
                          (map stdout (execRuns run command files (store w)).1);
          stderr := stderr out
                    +:+ foldr String.append EmptyString
                          (map stderr (execRuns run command files (store w)).1);
          exitCode := fold_left keepFailure
                        (execRuns run command files (store w)).1 (exitCode out) |},
       Build_World (execRuns run command files (store w)).2
         (trace w ++ map (fun f => EvExec (commandLine command f)) files)).
Proof.
  induction files as [|file files IH]; intros out w.
  - cbn. rewrite !append_empty_r, app_nil_r. now destruct out, w.
  - cbn [execEach execRuns]. unfold runCommand. fold (commandLine command file).
    destruct (run (store w) (commandLine command file)) as [result store'].
    rewrite IH. cbn [store trace stdout stderr exitCode].
    destruct (execRuns run command files store') as [results final].
    cbn [fst snd map foldr fold_left]. rewrite !append_assoc, <- app_assoc.
    reflexivity.
Qed.

Lemma keepFailure_zero (results : list ExecResult) (code : Z) :
  fold_left keepFailure results code = 0
  <-> code = 0 /\ Forall (fun r => exitCode r = 0) results.
Proof.
  revert code. induction results as [|r results IH]; intros code; cbn [fold_left].
  - split; [intros ->; now split|now intros [-> _]].
  - rewrite IH. unfold keepFailure. destruct (Z.eqb_spec (exitCode r) 0) as [E|E].
    + split; [intros [-> H]; split; [reflexivity|now constructor]|].
      intros [-> H]. split; [reflexivity|now inversion H].
    + split; [intros [H _]; contradiction|]. intros [_ H]. inversion H. contradiction.
Qed.

(** X23.  With a command-execution capability, [-exec ... ;] runs one
    command for each match, in the order of the matches, each with the
    match put for every [{}] of the template and every part quoted, and
    each on the store the one before has left; stdout and stderr of the
    commands are appended in that order, and the exit code afterwards is
    0 exactly when it was 0 before and every command has returned 0.
    [-exec ... +] runs exactly one command, also when nothing has
    matched. *)
Theorem exec_runs_commands (run : σ -> string -> ExecResult * σ)
    (command found : list string) (out : ExecResult) (w : World σ) :
  exec ctx = Some run ->
  (exists out',
     runAction ctx found (AExec command false) out w
     = (inr out',
        Build_World (execRuns run command found (store w)).2
          (trace w ++ map (fun f => EvExec (commandLine command f)) found))
     /\ stdout out'
        = stdout out +:+ foldr String.append EmptyString
                           (map stdout (execRuns run command found (store w)).1)
     /\ stderr out'
        = stderr out +:+ foldr String.append EmptyString
                           (map stderr (execRuns run command found (store w)).1)
     /\ (exitCode out' = 0
         <-> exitCode out = 0
             /\ Forall (fun r => exitCode r = 0)
                  (execRuns run command found (store w)).1))
  /\ (exists out',
        runAction ctx found (AExec command true) out w
        = (inr out',
           Build_World
             (run (store w)
                (quoted (flat_map (fun part => if streq part "{}" then found else [part])
                           command))).2
             (trace w
              ++ [EvExec (quoted (flat_map (fun part => if streq part "{}" then found
                                                        else [part]) command))]))).
Proof.
  intros He. split.
  - cbn [runAction]. rewrite He. rewrite execEach_runs.
    eexists. split; [reflexivity|]. cbn [stdout stderr exitCode].
    split; [reflexivity|]. split; [reflexivity|]. apply keepFailure_zero.
  - cbn [runAction]. rewrite He. unfold runCommand.
    destruct (run (store w) _) as [result store']. eexists. reflexivity.
Qed.

End Commands.

Lemma exec_runs_commands_witness :
  (exists out',
     Find.runAction shell ["a.txt"; "b.log"] (Find.AExec ["wc"; "{}"] false)
       Scenario.silent (Find.Build_World [] [])
     = (inr out',
        Find.Build_World
          [Find.DQUOTE +:+ "wc" +:+ Find.DQUOTE +:+ " " +:+ Find.DQUOTE +:+ "a.txt"
             +:+ Find.DQUOTE;
           Find.DQUOTE +:+ "wc" +:+ Find.DQUOTE +:+ " " +:+ Find.DQUOTE +:+ "b.log"
             +:+ Find.DQUOTE]
          [Find.EvExec (commandLine ["wc"; "{}"] "a.txt");
           Find.EvExec (commandLine ["wc"; "{}"] "b.log")]))
  /\ (exists out',
        Find.runAction shell [] (Find.AExec ["ls"; "{}"] true)
          Scenario.silent (Find.Build_World [] [])
        = (inr out',
           Find.Build_World [Find.DQUOTE +:+ "ls" +:+ Find.DQUOTE]
             [Find.EvExec (Find.DQUOTE +:+ "ls" +:+ Find.DQUOTE)])).
Proof.
  destruct (exec_runs_commands shell
              (fun ran cmd =>
                 ({| Find.stdout := cmd +:+ Find.LF; Find.stderr := EmptyString;
                     Find.exitCode := if JS.startsWith cmd (Find.DQUOTE +:+ "b")
                                      then 2 else 0 |},
                  ran ++ [cmd]))
              ["wc"; "{}"] ["a.txt"; "b.log"] Scenario.silent (Find.Build_World [] [])
              eq_refl) as [(o1 & H1 & _) _].
  destruct (exec_runs_commands shell
              (fun ran cmd =>
                 ({| Find.stdout := cmd +:+ Find.LF; Find.stderr := EmptyString;
                     Find.exitCode := if JS.startsWith cmd (Find.DQUOTE +:+ "b")
                                      then 2 else 0 |},
                  ran ++ [cmd]))
              ["ls"; "{}"] [] Scenario.silent (Find.Build_World [] [])
              eq_refl) as [_ (o2 & H2)].
  split; [exists o1; exact H1|exists o2; exact H2].
Defined.

(** ** The default action *)

Section DefaultAction.
Import Find Grammar Scan.
Context {σ : Type} (ctx : CommandContext σ) (now : Z).
Context (hasHelpFlag : list string -> bool) (showHelp : ExecResult).

Lemma parse_with_path_and_print (p : string) (toks : list Token) :
  pathArgument p ->
  Forall writable toks ->
  parseExpressions (p :: argsOf toks ++ ["-print"]) 0
  = Some {| expr := buildTree toks; pathIndex := S (S (length (argsOf toks)));
            error := None; actions := [APrint] |}.
Proof.
  intros Hp Hw.
  pose proof (reaches_tokens toks [p] ["-print"]
                {| scan_i := 1; scan_tokens := []; scan_actions := [] |} Hw) as Hr.
  cbn [app length Nat.add scan_tokens scan_actions scan_i] in Hr.
  assert (H1 : reaches (p :: argsOf toks ++ ["-print"]) 0
                 {| scan_i := 1; scan_tokens := []; scan_actions := [] |}).
  { eapply reaches_step; [apply reaches_start|cbn; lia|].
    now rewrite (scanStep_path _ _ p Hp). }
  specialize (Hr H1 eq_refl).
  assert (Hat : (p :: argsOf toks ++ ["-print"]) !! S (length (argsOf toks))
                = Some "-print").
  { change ((argsOf toks ++ ["-print"]) !! length (argsOf toks) = Some "-print").
    rewrite lookup_app_r by lia. now rewrite Nat.sub_diag. }
  assert (H2 : reaches (p :: argsOf toks ++ ["-print"]) 0
                 {| scan_i := S (length (argsOf toks)) + 1; scan_tokens := toks;
                    scan_actions := [] ++ [APrint] |}).
  { eapply reaches_step; [exact Hr|cbn; rewrite length_app; cbn; lia|].
    unfold scanStep. cbn [scan_i scan_tokens scan_actions]. now rewrite Hat. }
  rewrite (parse_finishes_at _ _ H2) by (cbn; rewrite length_app; cbn; lia).
  unfold finish. cbn [scan_tokens scan_actions scan_i app].
  replace (S (length (argsOf toks)) + 1)%nat with (S (S (length (argsOf toks)))) by lia.
  now destruct toks.
Qed.

(** X24.  An explicit [-print] after the expression is the default
    action: the invocation with it and the invocation without it return
    the same result after the same calls. *)
Theorem explicit_print_is_default (fuel : nat) (p : string) (toks : list Token)
    (w : World σ) :
  pathArgument p ->
  Forall writable toks ->
  hasHelpFlag (p :: argsOf toks ++ ["-print"]) = false ->
  hasHelpFlag (p :: argsOf toks) = false ->
  execute ctx now hasHelpFlag showHelp fuel (p :: argsOf toks ++ ["-print"]) w
  = execute ctx now hasHelpFlag showHelp fuel (p :: argsOf toks) w.
Proof.
  intros Hp Hw Hh1 Hh2. unfold execute. rewrite Hh1, Hh2.
  destruct Hp as (Hd & H1 & H2 & H3).
  rewrite !discover_bare by assumption.
  rewrite discover_written_then, discover_written by exact Hw.
  change (discover ["-print"] ?acc) with acc.
  rewrite (parse_with_path_and_print p toks (conj Hd (conj H1 (conj H2 H3))) Hw).
  rewrite (parse_with_path p toks (conj Hd (conj H1 (conj H2 H3))) Hw).
  cbn [error expr actions].
  apply bind_ext; [reflexivity|]. intros [st|] w1; [|reflexivity].
  apply bind_ext; [reflexivity|]. intros table w2.
  apply bind_ext; [reflexivity|]. intros found w3.
  reflexivity.
Qed.

End DefaultAction.

Lemma explicit_print_is_default_witness :
  Scenario.run 3 ("." :: Grammar.argsOf [Find.TExpr (Find.EType Find.TypeF)] ++ ["-print"])
  = Scenario.run 3 ("." :: Grammar.argsOf [Find.TExpr (Find.EType Find.TypeF)]).
Proof.
  apply (explicit_print_is_default Scenario.context 0 Scenario.hasHelpFlag
           Scenario.help 3 "." [Find.TExpr (Find.EType Find.TypeF)]
           Scenario.untouched); try reflexivity.
  - repeat split; (reflexivity || discriminate).
  - repeat constructor; eexists; reflexivity.
Defined.

(** ** The reference files *)

Section ReferenceFiles.
Import Find.
Context {σ : Type} (ctx : CommandContext σ) (now : Z).

(** X25.  Before the traversal, the reference file of every [-newer]
    predicate is stat'ed once for each time it is written, in the order
    of the expression; nothing else is called, the resolution always
    completes, and the table is changed at these paths only. *)
Theorem references_stated_in_order (e : Expression) (table : gmap string Z)
    (w : World σ) :
  exists table',
    resolveNewerRefs ctx now e table w
    = (Done table',
       Build_World (store w)
         (trace w ++ map (fun r => EvStat (resolvePath (fs ctx) (cwd ctx) r))
                       (newerRefs e)))
    /\ forall k, ~ In k (newerRefs e) -> table' !! k = table !! k.
Proof.
  revert table w.
  induction e as [p ic|p ic|t| |d cmp|r|v u cmp|e IH|l IHl r IHr|l IHl r IHr];
    intros table w; cbn [resolveNewerRefs newerRefs map];
    try (exists table; split; [unfold ret; rewrite app_nil_r; now destruct w|tauto]).
  - unfold bind, doStat, id. cbn [store trace].
    destruct (stat (fs ctx) (store w) (resolvePath (fs ctx) (cwd ctx) r)) as [st|].
    + eexists. split; [reflexivity|]. intros k Hk. cbn in Hk.
      apply lookup_insert_ne. tauto.
    + exists table. split; [reflexivity|tauto].
  - apply IH.
  - unfold bind. destruct (IHl table w) as (t1 & -> & H1).
    destruct (IHr t1 (Build_World (store w)
                        (trace w ++ map (fun r => EvStat (resolvePath (fs ctx) (cwd ctx) r))
                                      (newerRefs l)))) as (t2 & -> & H2).
    exists t2. cbn [store trace]. split; [now rewrite map_app, app_assoc|].
    intros k Hk. rewrite in_app_iff in Hk. rewrite H2, H1; tauto.
  - unfold bind. destruct (IHl table w) as (t1 & -> & H1).
    destruct (IHr t1 (Build_World (store w)
                        (trace w ++ map (fun r => EvStat (resolvePath (fs ctx) (cwd ctx) r))
                                      (newerRefs l)))) as (t2 & -> & H2).
    exists t2. cbn [store trace]. split; [now rewrite map_app, app_assoc|].
    intros k Hk. rewrite in_app_iff in Hk. rewrite H2, H1; tauto.
Qed.

End ReferenceFiles.

(** ** A path argument after the expression *)

Section TrailingPath.
Import Find Grammar Scan.

Lemma parse_breaks_at (args : list string) (st st' : ScanState) :
  reaches args 0 st ->
  (scan_i st < length args)%nat ->
  scanStep args st = Break st' ->
  parseExpressions args 0 = Some (finish st').
Proof.
  intros Hr Hlt Hs. unfold parseExpressions.
  change {| scan_i := 0; scan_tokens := []; scan_actions := [] |} with (initial 0).
  rewrite (scanLoop_reaches args 0 st) by (assumption || lia).
  cbn [scanLoop]. rewrite bool_decide_eq_true_2 by exact Hlt. now rewrite Hs.
Qed.

Lemma scanStep_path_after_tokens (args : list string) (st : ScanState) (p : string) :
  pathArgument p ->
  args !! scan_i st = Some p ->
  scan_tokens st <> [] ->
  scanStep args st = Break st.
Proof.
  intros (Hd & H1 & H2 & H3) Harg Ht. unfold scanStep. rewrite Harg. cbv zeta.
  rewrite !(streq_dash p) by exact Hd.
  rewrite (streq_ne p "!") by exact H3.
  cbn [andb orb]. rewrite Hd. now destruct (scan_tokens st).
Qed.

(** X26.  A path argument written after the expression ends the scan
    of the expression, which is kept as read so far, and becomes the
    search path in place of the one written before the expression: the
    last path argument of the invocation is the one searched. *)
Theorem last_path_argument_searched (p q : string) (toks : list Token) :
  pathArgument p -> pathArgument q ->
  Forall writable toks ->
  toks <> [] ->
  discover (p :: argsOf toks ++ [q]) (".", None, None) = (q, None, None)
  /\ parseExpressions (p :: argsOf toks ++ [q]) 0
     = Some {| expr := buildTree toks; pathIndex := S (length (argsOf toks));
               error := None; actions := [] |}.
Proof.
  intros Hp Hq Hw Hne. split.
  - destruct Hp as (Hd & H1 & H2 & _). destruct Hq as (Hd' & H1' & H2' & _).
    rewrite discover_bare by assumption.
    rewrite discover_written_then by exact Hw.
    now rewrite discover_bare by assumption.
  - pose proof (reaches_tokens toks [p] [q]
                  {| scan_i := 1; scan_tokens := []; scan_actions := [] |} Hw) as Hr.
    cbn [app length Nat.add scan_tokens scan_actions scan_i] in Hr.
    assert (H1 : reaches (p :: argsOf toks ++ [q]) 0
                   {| scan_i := 1; scan_tokens := []; scan_actions := [] |}).
    { eapply reaches_step; [apply reaches_start|cbn; lia|].
      now rewrite (scanStep_path _ _ p Hp). }
    specialize (Hr H1 eq_refl).
    assert (Hat : (p :: argsOf toks ++ [q]) !! S (length (argsOf toks)) = Some q).
    { change ((argsOf toks ++ [q]) !! length (argsOf toks) = Some q).
      rewrite lookup_app_r by lia. now rewrite Nat.sub_diag. }
    assert (Hlt : (S (length (argsOf toks)) < length (p :: argsOf toks ++ [q]))%nat)
      by (cbn; rewrite length_app; cbn; lia).
    rewrite (parse_breaks_at _ _ _ Hr Hlt
               (scanStep_path_after_tokens (p :: argsOf toks ++ [q])
                  {| scan_i := S (length (argsOf toks)); scan_tokens := toks;
                     scan_actions := [] |} q Hq Hat Hne)).
    unfold finish. cbn [scan_tokens scan_actions scan_i]. now destruct toks.
Qed.

Lemma last_path_argument_searched_witness :
  discover ("a" :: argsOf [TExpr (EType TypeF)] ++ ["b"]) (".", None, None)
  = ("b", None, None)
  /\ parseExpressions ("a" :: argsOf [TExpr (EType TypeF)] ++ ["b"]) 0
     = Some {| expr := buildTree [TExpr (EType TypeF)];
               pathIndex := S (length (argsOf [TExpr (EType TypeF)]));
               error := None; actions := [] |}.
Proof.
  apply (last_path_argument_searched "a" "b" [TExpr (EType TypeF)]);
    try reflexivity; try discriminate.
  - repeat split; (reflexivity || discriminate).
  - repeat split; (reflexivity || discriminate).
  - repeat constructor; eexists; reflexivity.
Defined.

End TrailingPath.

(** ** The depth law *)

Section DepthLaw.
Import Find.
Context {σ : Type} (ctx : CommandContext σ) (now : Z).

(** Below [minDepth] a node is stat'ed and probed, nothing is appended
    to the matches, and every entry of its listing is traversed at the
    next depth, in the order of the listing. *)
Lemma below_minDepth_entries (fuel : nat) (env : Env) (path : string)
    (depth m : Z) (st : Stat.t) (s : TravState) :
  minDepth env = Some (JS.Num m) ->
  depth < m ->
  match maxDepth env with Some d => JS.gt (JS.Num depth) d | None => false end = false ->
  stat (fs ctx) (store (world s)) path = Some st ->
  findRecursive ctx now (S fuel) env path depth s
  = if Stat.isDirectory st then
      forEach (readdir (fs ctx) (store (world s)) path)
        (fun entry => findRecursive ctx now fuel env (entryPath path entry) (depth + 1))
        {| world := Build_World (store (world s))
                      (trace (world s)
                       ++ EvStat path :: emptinessProbe path st ++ [EvReaddir path]);
           results := results s |}
    else (Done tt, {| world := probed path st (world s); results := results s |}).
Proof.
  intros Hmin Hlt Hmax Hst.
  rewrite (below_minDepth_not_matched ctx now fuel env path depth m st s) by assumption.
  unfold descend. destruct (Stat.isDirectory st); [|reflexivity].
  unfold bind, doReaddir, probed. cbn [world setWorld store trace results].
  rewrite <- app_assoc. reflexivity.
Qed.

Lemma forEach_Done_each {S A : Type} (R : S -> S -> Prop) (l : list A)
    (body : A -> M S unit) :
  (forall s, R s s) ->
  (forall s1 s2 s3, R s1 s2 -> R s2 s3 -> R s1 s3) ->
  (forall a, keeps R (body a)) ->
  forall s s', forEach l body s = (Done tt, s') ->
  forall a, In a l ->
  exists s1 s2, body a s1 = (Done tt, s2) /\ R s s1 /\ R s2 s'.
Proof.
  intros R_same R_then Hb. induction l as [|a0 l IH]; intros s s' H a Ha; [destruct Ha|].
  cbn [forEach] in H. apply bind_Done in H as ([] & t & H0 & H).
  destruct Ha as [<-|Ha].
  - exists s, t. split; [exact H0|]. split; [apply R_same|].
    exact (keeps_forEach R R_same R_then l body Hb t _ _ H).
  - destruct (IH t s' H a Ha) as (s1 & s2 & H1 & H2 & H3).
    exists s1, s2. split; [exact H1|]. split; [|exact H3].
    eapply R_then; [exact (Hb a0 s _ _ H0)|exact H2].
Qed.

(** A node that the traversal arrives at within the depth bound, in a
    run that completes, is stat'ed. *)
Lemma findRecursive_stats_node (fuel : nat) (env : Env) (path : string) (depth : Z)
    (s s' : TravState) :
  match maxDepth env with Some d => JS.gt (JS.Num depth) d | None => false end = false ->
  findRecursive ctx now fuel env path depth s = (Done tt, s') ->
  exists evs, trace (world s') = trace (world s) ++ EvStat path :: evs.
Proof.
  intros Hmax H. destruct fuel as [|fuel]; [discriminate H|].
  cbn [findRecursive] in H. unfold visit in H. rewrite Hmax in H.
  apply bind_Done in H as (o & s1 & Hs & H).
  unfold doStat in Hs. injection Hs as <- <-.
  assert (Hg : grows env
                 (setWorld (Build_World (store (world s)) (trace (world s) ++ [EvStat path])) s)
                 s').
  { destruct (stat (fs ctx) (store (world s)) path) as [st|].
    2: { unfold ret in H. injection H as <-. apply grows_same. }
    revert H. generalize (Done tt : outcome unit).
    generalize (setWorld (Build_World (store (world s)) (trace (world s) ++ [EvStat path])) s).
    intros s0 o H. revert s0 o s' H.
    change (growing env
              (isEmpty <- emptiness ctx path st;;
               matches <- matching now env path depth st isEmpty;;
               _ <- (if matches : bool
                     then pushResult (relativePathOf env path)
                     else ret tt);;
               descend ctx (findRecursive ctx now fuel env) path depth st)).
    apply growing_bind; [apply growing_emptiness|]. intros isEmpty.
    apply growing_bind; [apply growing_matching|]. intros matches.
    apply growing_bind; [destruct matches; [apply growing_pushResult|apply growing_ret]|].
    intros _. unfold descend. destruct (Stat.isDirectory st); [|apply growing_ret].
    apply growing_bind; [apply growing_doReaddir|]. intros entries.
    apply growing_forEach. intros entry. apply growing_findRecursive. }
  destruct Hg as (_ & (evs & Ht & _) & _). exists evs.
  rewrite Ht. cbn [setWorld world trace]. now rewrite <- app_assoc.
Qed.

(** *** Traversals that walk alike *)

Lemma walks_ret {A B : Type} (Q : A -> B -> Prop) (a : A) (b : B) :
  Q a b -> walks Q (ret a : M (TravState (σ:=σ)) A) (ret b).
Proof.
  intros HQ s1 s2 o1 o2 s1' s2' Hw H1 H2 _ _. unfold ret in H1, H2.
  injection H1 as <- <-. injection H2 as <- <-. now split.
Qed.

Lemma walks_bind {A B C D : Type} (Q : A -> B -> Prop) (R : C -> D -> Prop)
    (m1 : M (TravState (σ:=σ)) A) (m2 : M TravState B)
    (k1 : A -> M TravState C) (k2 : B -> M TravState D) :
  walks Q m1 m2 ->
  (forall a b, Q a b -> walks R (k1 a) (k2 b)) ->
  walks R (bind m1 k1) (bind m2 k2).
Proof.
  intros Hm Hk s1 s2 o1 o2 s1' s2' Hw H1 H2 N1 N2. unfold bind in H1, H2.
  destruct (m1 s1) as [[a|e1|] t1] eqn:E1; destruct (m2 s2) as [[b|e2|] t2] eqn:E2;
    try (injection H1 as <- <-); try (injection H2 as <- <-);
    try (now destruct (N1 _ eq_refl)); try (now destruct (N2 _ eq_refl)).
  - destruct (Hm _ _ _ _ _ _ Hw E1 E2) as [Hw' HQ]; try (intros; discriminate).
    exact (Hk a b HQ _ _ _ _ _ _ Hw' H1 H2 N1 N2).
  - destruct (Hm _ _ _ _ _ _ Hw E1 E2) as [_ []]; intros; discriminate.
  - destruct (Hm _ _ _ _ _ _ Hw E1 E2) as [_ []]; intros; discriminate.
  - apply (Hm _ _ _ _ _ _ Hw E1 E2); intros; discriminate.
Qed.

Lemma walks_forEach {A : Type} (l : list A) (b1 b2 : A -> M (TravState (σ:=σ)) unit) :
  (forall a, walks (fun _ _ => True) (b1 a) (b2 a)) ->
  walks (fun _ _ => True) (forEach l b1) (forEach l b2).
Proof.
  intros Hb. induction l as [|a l IH]; cbn [forEach].
  - now apply walks_ret.
  - eapply walks_bind; [apply Hb|]. intros _ _ _. exact IH.
Qed.

Lemma walks_doStat (path : string) :
  walks eq (doStat ctx world setWorld path) (doStat ctx world setWorld path).
Proof.
  intros s1 s2 o1 o2 s1' s2' Hw H1 H2 _ _. unfold doStat, setWorld in H1, H2.
  injection H1 as <- <-. injection H2 as <- <-. cbn. now rewrite Hw.
Qed.

Lemma walks_doReaddir (path : string) :
  walks eq (doReaddir ctx world setWorld path) (doReaddir ctx world setWorld path).
Proof.
  intros s1 s2 o1 o2 s1' s2' Hw H1 H2 _ _. unfold doReaddir, setWorld in H1, H2.
  injection H1 as <- <-. injection H2 as <- <-. cbn. now rewrite Hw.
Qed.

Lemma walks_emptiness (path : string) (st : Stat.t) :
  walks (fun _ _ => True) (emptiness ctx path st) (emptiness ctx path st).
Proof.
  intros s1 s2 o1 o2 s1' s2' Hw H1 H2 _ _.
  destruct (emptiness_run ctx path st s1) as [b1 E1].
  destruct (emptiness_run ctx path st s2) as [b2 E2].
  rewrite E1 in H1. rewrite E2 in H2.
  injection H1 as <- <-. injection H2 as <- <-. cbn. now rewrite Hw.
Qed.

Lemma walks_matching (env1 env2 : Env) (path : string) (depth : Z) (st : Stat.t)
    (b1 b2 : bool) :
  walks (fun _ _ => True)
    (matching now env1 path depth st b1 : M (TravState (σ:=σ)) bool)
    (matching now env2 path depth st b2).
Proof.
  intros s1 s2 o1 o2 s1' s2' Hw H1 H2 N1 N2.
  destruct (matching_run now env1 path depth st b1 s1) as (p1 & E1 & F1).
  destruct (matching_run now env2 path depth st b2 s2) as (p2 & E2 & F2).
  rewrite E1 in H1. rewrite E2 in H2.
  injection H1 as <- <-. injection H2 as <- <-. split; [exact Hw|].
  destruct p1 as [m1|x1|]; [|now destruct (N1 x1)|congruence].
  destruct p2 as [m2|x2|]; [exact I|now destruct (N2 x2)|congruence].
Qed.

Lemma walks_report (m1 m2 : bool) (r1 r2 : string) :
  walks (fun _ _ => True)
    (if m1 then pushResult r1 else ret tt : M (TravState (σ:=σ)) unit)
    (if m2 then pushResult r2 else ret tt).
Proof.
  intros s1 s2 o1 o2 s1' s2' Hw H1 H2 _ _.
  destruct m1, m2; unfold pushResult, ret in H1, H2;
    injection H1 as <- <-; injection H2 as <- <-; now split.
Qed.

(** Which nodes are visited depends neither on [minDepth] nor on the
    expression: under the same [maxDepth], two traversals walk alike. *)
Lemma walks_findRecursive (fuel : nat) (env1 env2 : Env) :
  maxDepth env1 = maxDepth env2 ->
  forall path depth,
    walks (fun _ _ => True)
      (findRecursive ctx now fuel env1 path depth)
      (findRecursive ctx now fuel env2 path depth).
Proof.
  intros Hmax. induction fuel as [|fuel IH]; intros path depth.
  - intros s1 s2 o1 o2 s1' s2' Hw H1 H2 _ _. cbn in H1, H2.
    injection H1 as <- <-. injection H2 as <- <-. now split.
  - cbn [findRecursive]. unfold visit. rewrite <- Hmax.
    destruct (match maxDepth env1 with Some m => JS.gt (JS.Num depth) m | None => false end);
      [now apply walks_ret|].
    eapply walks_bind; [apply walks_doStat|]. intros o _ <-.
    destruct o as [st|]; [|now apply walks_ret].
    eapply walks_bind; [apply walks_emptiness|]. intros e1 e2 _.
    eapply walks_bind; [apply walks_matching|]. intros m1 m2 _.
    eapply walks_bind; [apply walks_report|]. intros _ _ _.
    unfold descend. destruct (Stat.isDirectory st); [|now apply walks_ret].
    eapply walks_bind; [apply walks_doReaddir|]. intros entries _ <-.
    apply walks_forEach. intros entry. apply IH.
Qed.

(** *** Traversals under a depth bound end *)

Lemma finishes_ret {S A : Type} (a : A) : finishes (ret a : M S A).
Proof. intros s o s' H. unfold ret in H. now simplify_eq. Qed.

Lemma finishes_bind {S A B : Type} (m : M S A) (k : A -> M S B) :
  finishes m -> (forall a, finishes (k a)) -> finishes (bind m k).
Proof.
  intros Hm Hk s o s' H. unfold bind in H.
  destruct (m s) as [[a|e|] s1] eqn:E.
  - exact (Hk _ _ _ _ H).
  - now simplify_eq.
  - now pose proof (Hm _ _ _ E).
Qed.

Lemma finishes_forEach {S A : Type} (l : list A) (body : A -> M S unit) :
  (forall a, finishes (body a)) -> finishes (forEach l body).
Proof.
  intros Hb. induction l as [|a l IH]; cbn [forEach].
  - apply finishes_ret.
  - apply finishes_bind; [apply Hb|intros _; exact IH].
Qed.

Lemma finishes_findRecursive (env : Env) (d : Z) :
  maxDepth env = Some (JS.Num d) ->
  forall (fuel : nat) (path : string) (depth : Z),
    d + 2 - depth <= Z.of_nat fuel ->
    (0 < fuel)%nat ->
    finishes (findRecursive ctx now fuel env path depth).
Proof.
  intros Hm. induction fuel as [|fuel IH]; intros path depth Hle Hpos; [lia|].
  cbn [findRecursive]. unfold visit. rewrite Hm. cbn [JS.gt].
  destruct (Z.ltb_spec d depth) as [Hcut|Hin]; [apply finishes_ret|].
  apply finishes_bind.
  { intros s o s' H. unfold doStat in H. now simplify_eq. }
  intros [st|]; [|apply finishes_ret].
  apply finishes_bind.
  { intros s o s' H. destruct (emptiness_run ctx path st s) as [b E].
    rewrite E in H. now simplify_eq. }
  intros isEmpty. apply finishes_bind.
  { intros s o s' H.
    destruct (matching_run now env path depth st isEmpty s) as (o' & E & Ho).
    rewrite E in H. now simplify_eq. }
  intros matches. apply finishes_bind.
  { intros s o s' H. destruct matches; unfold pushResult, ret in H; now simplify_eq. }
  intros _. unfold descend. destruct (Stat.isDirectory st); [|apply finishes_ret].
  apply finishes_bind.
  { intros s o s' H. unfold doReaddir in H. now simplify_eq. }
  intros entries. apply finishes_forEach. intros entry. apply IH; lia.
Qed.

(** C3.  With [maxDepth = 0] only the root is ever visited: the calls of
    the traversal are one [stat] of the root and listings of the root, no
    child is stat'ed.  A node at a depth below [minDepth], as the root is
    with [minDepth = 1], is visited (stat'ed and probed), nothing is
    appended to the matches for it whatever the expression, and the
    traversal goes into it: the rest of the run is the traversal of the
    entries of its listing, one after the other, at the next depth, and
    when the run completes every entry has been stat'ed.  [minDepth]
    restricts which nodes may match, never which nodes are traversed: two
    traversals under the same [maxDepth], whatever their [minDepth] and
    expression, end the same way after the same calls on the file system
    unless the evaluator raises in one of them, which it never does on
    expressions without a bracket.  Under a [maxDepth] the traversal
    ends: with fuel for the levels down to the bound, no run is cut
    short. *)
Theorem depth_bounds :
  (forall (fuel : nat) (env : Env) (root : string) (s : TravState),
     maxDepth env = Some (JS.Num 0) ->
     (2 <= fuel)%nat ->
     exists o s' evs,
       findRecursive ctx now fuel env root 0 s = (o, s')
       /\ o <> OutOfFuel
       /\ world s' = Build_World (store (world s)) (trace (world s) ++ EvStat root :: evs)
       /\ Forall (fun ev => ev = EvReaddir root) evs)
  /\ (forall (fuel : nat) (env : Env) (path : string) (depth m : Z) (st : Stat.t)
             (s : TravState),
        minDepth env = Some (JS.Num m) ->
        depth < m ->
        match maxDepth env with Some d => JS.gt (JS.Num depth) d | None => false end = false ->
        stat (fs ctx) (store (world s)) path = Some st ->
        findRecursive ctx now (S fuel) env path depth s
        = if Stat.isDirectory st then
            forEach (readdir (fs ctx) (store (world s)) path)
              (fun entry =>
                 findRecursive ctx now fuel env (entryPath path entry) (depth + 1))
              {| world := Build_World (store (world s))
                            (trace (world s)
                             ++ EvStat path :: emptinessProbe path st ++ [EvReaddir path]);
                 results := results s |}
          else (Done tt, {| world := probed path st (world s); results := results s |}))
  /\ (forall (fuel : nat) (env : Env) (path : string) (depth m : Z) (st : Stat.t)
             (s s' : TravState) (entry : string),
        minDepth env = Some (JS.Num m) ->
        depth < m ->
        match maxDepth env with
        | Some d => JS.gt (JS.Num (depth + 1)) d
        | None => false
        end = false ->
        stat (fs ctx) (store (world s)) path = Some st ->
        Stat.isDirectory st = true ->
        In entry (readdir (fs ctx) (store (world s)) path) ->
        findRecursive ctx now fuel env path depth s = (Done tt, s') ->
        In (EvStat (entryPath path entry)) (trace (world s')))
  /\ (forall (fuel : nat) (env1 env2 : Env) (path : string) (depth : Z)
             (s1 s2 s1' s2' : TravState) (o1 o2 : outcome unit),
        maxDepth env1 = maxDepth env2 ->
        world s1 = world s2 ->
        findRecursive ctx now fuel env1 path depth s1 = (o1, s1') ->
        findRecursive ctx now fuel env2 path depth s2 = (o2, s2') ->
        (forall x, o1 <> Raised x) ->
        (forall x, o2 <> Raised x) ->
        o1 = o2 /\ world s1' = world s2')
  /\ (forall (fuel : nat) (env1 env2 : Env) (path : string) (depth : Z)
             (s1 s2 : TravState),
        maxDepth env1 = maxDepth env2 ->
        (forall e, theExpr env1 = Some e -> classFree e = true) ->
        (forall e, theExpr env2 = Some e -> classFree e = true) ->
        world s1 = world s2 ->
        (findRecursive ctx now fuel env1 path depth s1).1
        = (findRecursive ctx now fuel env2 path depth s2).1
        /\ world (findRecursive ctx now fuel env1 path depth s1).2
           = world (findRecursive ctx now fuel env2 path depth s2).2)
  /\ (forall (fuel : nat) (env : Env) (path : string) (depth d : Z) (s : TravState),
        maxDepth env = Some (JS.Num d) ->
        d + 2 - depth <= Z.of_nat fuel ->
        (0 < fuel)%nat ->
        (findRecursive ctx now fuel env path depth s).1 <> OutOfFuel).
Proof.
  assert (Hlock : forall (fuel : nat) (env1 env2 : Env) (path : string) (depth : Z)
                         (s1 s2 s1' s2' : TravState) (o1 o2 : outcome unit),
             maxDepth env1 = maxDepth env2 ->
             world s1 = world s2 ->
             findRecursive ctx now fuel env1 path depth s1 = (o1, s1') ->
             findRecursive ctx now fuel env2 path depth s2 = (o2, s2') ->
             (forall x, o1 <> Raised x) ->
             (forall x, o2 <> Raised x) ->
             o1 = o2 /\ world s1' = world s2').
  { intros fuel env1 env2 path depth s1 s2 s1' s2' o1 o2 Hmax Hw H1 H2 N1 N2.
    destruct (walks_findRecursive fuel env1 env2 Hmax path depth _ _ _ _ _ _ Hw H1 H2 N1 N2)
      as [Hw' Ho].
    split; [|exact Hw'].
    destruct o1 as [[]|x1|], o2 as [[]|x2|]; try contradiction; reflexivity. }
  split; [exact (maxDepth_zero_root_only ctx now)|].
  split; [exact below_minDepth_entries|].
  split.
  { intros fuel env path depth m st s s' entry Hmin Hlt Hmax Hst Hdir Hin H.
    destruct fuel as [|fuel]; [discriminate H|].
    assert (Hmax0 : match maxDepth env with
                    | Some d => JS.gt (JS.Num depth) d
                    | None => false
                    end = false).
    { destruct (maxDepth env) as [[|d]|]; try reflexivity. cbn [JS.gt] in Hmax |- *.
      apply Z.ltb_ge in Hmax. apply Z.ltb_ge. lia. }
    rewrite (below_minDepth_entries fuel env path depth m st s Hmin Hlt Hmax0 Hst), Hdir in H.
    destruct (forEach_Done_each (grows env) _ _ (grows_same env) (grows_then env)
                (fun e => growing_findRecursive ctx now fuel env (entryPath path e) (depth + 1))
                _ _ H entry Hin) as (t1 & t2 & Hrun & _ & Hg).
    destruct (findRecursive_stats_node fuel env _ _ _ _ Hmax Hrun) as [evs Hevs].
    destruct Hg as (_ & (evs' & Ht & _) & _).
    rewrite Ht, Hevs. rewrite !in_app_iff. left. right. now left. }
  split; [exact Hlock|].
  split.
  { intros fuel env1 env2 path depth s1 s2 Hmax Hc1 Hc2 Hw.
    destruct (findRecursive ctx now fuel env1 path depth s1) as [o1 s1'] eqn:E1.
    destruct (findRecursive ctx now fuel env2 path depth s2) as [o2 s2'] eqn:E2.
    exact (Hlock fuel env1 env2 path depth s1 s2 s1' s2' o1 o2 Hmax Hw E1 E2
             (neverRaises_findRecursive ctx now fuel env1 Hc1 path depth s1 o1 s1' E1)
             (neverRaises_findRecursive ctx now fuel env2 Hc2 path depth s2 o2 s2' E2)). }
  intros fuel env path depth d s Hm Hle Hpos.
  destruct (findRecursive ctx now fuel env path depth s) as [o s'] eqn:E.
  exact (finishes_findRecursive env d Hm fuel path depth Hle Hpos s o s' E).
Qed.

End DepthLaw.

Lemma depth_bounds_witness :
  (exists o s' evs,
     Find.findRecursive Scenario.context 0 2 (Scenario.rootOnly None) "/work" 0
       Scenario.start = (o, s')
     /\ o <> Find.OutOfFuel
     /\ Find.world s' = Find.Build_World tt ([] ++ Find.EvStat "/work" :: evs)
     /\ Forall (fun ev => ev = Find.EvReaddir "/work") evs)
  /\ Find.findRecursive Scenario.context 0 3 belowRootUnclosed "/work" 0 Scenario.start
     = Find.forEach ["a.txt"; "b.log"; "d"]
         (fun entry =>
            Find.findRecursive Scenario.context 0 2 belowRootUnclosed
              (entryPath "/work" entry) (0 + 1))
         {| Find.world :=
              Find.Build_World tt
                ([] ++ Find.EvStat "/work"
                    :: emptinessProbe "/work" Scenario.directory
                    ++ [Find.EvReaddir "/work"]);
            Find.results := [] |}
  /\ In (Find.EvStat "/work/d")
       (Find.trace
          (Find.world
             (Find.findRecursive Scenario.context 0 3 (Scenario.belowRoot None) "/work" 0
                Scenario.start).2))
  /\ Find.world
       (Find.findRecursive Scenario.context 0 3 Scenario.env "/work" 0 Scenario.start).2
     = Find.world
         (Find.findRecursive Scenario.context 0 3 (Scenario.belowRoot None) "/work" 0
            Scenario.start).2.
Proof.
  pose proof (depth_bounds Scenario.context 0) as (Hmax & Hmin & Hin & _ & Hsame & _).
  split; [|split; [|split]].
  - apply (Hmax 2%nat (Scenario.rootOnly None) "/work" Scenario.start eq_refl). lia.
  - apply (Hmin 2%nat belowRootUnclosed "/work" 0 1 Scenario.directory Scenario.start);
      reflexivity.
  - apply (Hin 3%nat (Scenario.belowRoot None) "/work" 0 1 Scenario.directory
             Scenario.start _ "d"); try reflexivity.
    cbn. tauto.
  - apply (Hsame 3%nat Scenario.env (Scenario.belowRoot None) "/work" 0
             Scenario.start Scenario.start); try reflexivity.
    + intros e [= <-]. reflexivity.
    + intros e [=].
Defined.

(** ** Arguments, in every spelling, to the tree *)

Section Spellings.
Import Find Grammar Spelling.

Lemma digit_digitChar (d : nat) :
  (d < 10)%nat -> JS.digit (digitChar d) = Some (Z.of_nat d).
Proof.
  intros Hd. do 10 (destruct d as [|d]; [reflexivity|]). lia.
Qed.

Lemma digitChar_plain (d : nat) :
  (d < 10)%nat ->
  JS.isWhiteSpace (digitChar d) = false
  /\ Ascii.eqb (digitChar d) "-" = false
  /\ Ascii.eqb (digitChar d) "+" = false.
Proof.
  intros Hd. do 10 (destruct d as [|d]; [repeat split|]). lia.
Qed.

Lemma digits_numeral (ds : list nat) (tail : string) (a : Z) :
  Forall (fun d => (d < 10)%nat) ds ->
  noDigitAhead tail ->
  JS.digits (Some a) (numeral ds +:+ tail)
  = Some (fold_left (fun a d => 10 * a + Z.of_nat d) ds a).
Proof.
  intros Hds Ht. revert a. induction Hds as [|d ds Hd _ IH]; intros a.
  - cbn [numeral fold_right fold_left]. change (EmptyString +:+ tail) with tail.
    destruct tail as [|c r]; [reflexivity|]. cbn in Ht |- *. now rewrite Ht.
  - cbn [numeral fold_right fold_left]. rewrite append_cons. cbn [JS.digits].
    rewrite (digit_digitChar d Hd). cbn [default from_option id]. apply IH.
Qed.

Lemma digits_numeral_start (ds : list nat) (tail : string) :
  digitsOk ds ->
  noDigitAhead tail ->
  JS.digits None (numeral ds +:+ tail) = Some (numeralValue ds).
Proof.
  intros (Hne & Hds & _) Ht. destruct ds as [|d ds]; [congruence|].
  apply Forall_cons in Hds as [Hd Hds].
  cbn [numeral fold_right]. rewrite append_cons. cbn [JS.digits].
  rewrite (digit_digitChar d Hd).
  change (fold_right (fun d s => String (digitChar d) s) EmptyString ds) with (numeral ds).
  rewrite (digits_numeral ds tail _ Hds Ht). reflexivity.
Qed.

Lemma afterDigits_numeral (ds : list nat) (tail : string) :
  Forall (fun d => (d < 10)%nat) ds ->
  noDigitAhead tail ->
  afterDigits (numeral ds +:+ tail) = tail.
Proof.
  intros Hds Ht. induction Hds as [|d ds Hd _ IH].
  - cbn [numeral fold_right]. change (EmptyString +:+ tail) with tail.
    destruct tail as [|c r]; [reflexivity|]. cbn in Ht |- *. now rewrite Ht.
  - cbn [numeral fold_right]. rewrite append_cons. cbn [afterDigits].
    now rewrite (digit_digitChar d Hd).
Qed.

Lemma parseInt_numeral (ds : list nat) :
  digitsOk ds -> JS.parseInt (numeral ds) = JS.Num (numeralValue ds).
Proof.
  intros Hok. pose proof (digits_numeral_start ds EmptyString Hok I) as Hd.
  rewrite append_empty_r in Hd.
  destruct Hok as (Hne & Hds & _). destruct ds as [|d ds]; [congruence|].
  apply Forall_cons in Hds as [Hlt _].
  destruct (digitChar_plain d Hlt) as (Hw & Hm & Hp).
  unfold JS.parseInt. cbn [numeral fold_right JS.trimStart] in Hd |- *.
  rewrite Hw, Hm, Hp, Hd. f_equal. lia.
Qed.

Lemma splitSign_numeral (c : Comparison) (ds : list nat) (tail : string) :
  digitsOk ds ->
  splitSign (signOf c +:+ numeral ds +:+ tail) = (c, numeral ds +:+ tail).
Proof.
  intros (Hne & Hds & _). destruct ds as [|d ds]; [congruence|].
  apply Forall_cons in Hds as [Hlt _].
  destruct (digitChar_plain d Hlt) as (_ & Hm & Hp).
  cbn [numeral fold_right]. rewrite append_cons.
  set (r := fold_right (fun d s => String (digitChar d) s) EmptyString ds +:+ tail).
  unfold splitSign, JS.startsWith.
  destruct c; cbn [signOf].
  - change (EmptyString +:+ ?x) with x. cbn [String.prefix].
    destruct (ascii_dec "+" (digitChar d)) as [E|_];
      [rewrite <- E in Hp; discriminate Hp|].
    destruct (ascii_dec "-" (digitChar d)) as [E|_];
      [rewrite <- E in Hm; discriminate Hm|].
    reflexivity.
  - rewrite append_cons. change (EmptyString +:+ ?x) with x. cbn. reflexivity.
  - rewrite append_cons. change (EmptyString +:+ ?x) with x. cbn. reflexivity.
Qed.

Lemma sizeMatch_numeral (ds : list nat) (u : option SizeUnit) :
  digitsOk ds ->
  sizeMatch (numeral ds +:+ unitLetter u) = Some (numeralValue ds, unitRead u).
Proof.
  intros Hok.
  assert (Ht : noDigitAhead (unitLetter u)) by (destruct u as [[]|]; reflexivity).
  unfold sizeMatch. rewrite (digits_numeral_start ds _ Hok Ht).
  rewrite (afterDigits_numeral ds _ (proj1 (proj2 Hok)) Ht).
  destruct u as [[]|]; reflexivity.
Qed.

(** One iteration of the scanning loop reads the arguments that spell
    one token. *)
Lemma scanStep_spelled (pre rest ws : list string) (t : Token) (st : ScanState) :
  spells ws t ->
  scan_i st = length pre ->
  scanStep (pre ++ ws ++ rest) st
  = Continue {| scan_i := scan_i st + length ws;
                scan_tokens := scan_tokens st ++ [t];
                scan_actions := scan_actions st |}.
Proof.
  intros Hs Hi. unfold scanStep. rewrite Hi.
  assert (H0 : forall w l, (pre ++ (w :: l) ++ rest) !! length pre = Some w).
  { intros w l. rewrite lookup_app_r by lia. now rewrite Nat.sub_diag. }
  assert (H1 : forall w v l,
            (pre ++ (w :: v :: l) ++ rest) !! (length pre + 1)%nat = Some v).
  { intros w v l. rewrite lookup_app_r by lia.
    now replace (length pre + 1 - length pre)%nat with 1%nat by lia. }
  assert (H2 : forall w v l,
            bool_decide (length pre + 1 < length (pre ++ (w :: v :: l) ++ rest))%nat
            = true).
  { intros w v l. apply bool_decide_eq_true_2. rewrite !length_app. cbn. lia. }
  destruct Hs as [| | | | | |p|p|p|p| | | |r|c ds Hok|c ds u Hok];
    rewrite H0, ?H1, ?H2; try reflexivity.
  - cbv zeta. change (default EmptyString (Some ?v)) with v.
    cbn [streq String.eqb Ascii.eqb Bool.eqb andb orb].
    pose proof (splitSign_numeral c ds EmptyString Hok) as Hsp.
    rewrite append_empty_r in Hsp. rewrite Hsp, (parseInt_numeral ds Hok). reflexivity.
  - cbv zeta. change (default EmptyString (Some ?v)) with v.
    cbn [streq String.eqb Ascii.eqb Bool.eqb andb orb].
    rewrite (splitSign_numeral c ds (unitLetter u) Hok), (sizeMatch_numeral ds u Hok).
    reflexivity.
Qed.

Lemma spells_nonempty (ws : list string) (t : Token) :
  spells ws t -> (0 < length ws)%nat.
Proof. intros Hs. destruct Hs; cbn; lia. Qed.

(** The scan of the arguments that write a token sequence arrives at
    their end with these tokens. *)
Lemma reaches_written (args : list string) (toks : list Token) :
  writes args toks ->
  forall (pre rest : list string) (st : ScanState),
    Scan.reaches (pre ++ args ++ rest) 0 st ->
    scan_i st = length pre ->
    Scan.reaches (pre ++ args ++ rest) 0
      {| scan_i := length pre + length args;
         scan_tokens := scan_tokens st ++ toks;
         scan_actions := scan_actions st |}.
Proof.
  induction 1 as [|ws args t toks Hs Hw IH]; intros pre rest st Hr Hi.
  - cbn. rewrite Nat.add_0_r, app_nil_r, <- Hi. now destruct st.
  - pose proof (spells_nonempty ws t Hs) as Hlen.
    rewrite <- (app_assoc ws) in *.
    assert (Hstep := scanStep_spelled pre (args ++ rest) ws t st Hs Hi).
    assert (Hlt : (scan_i st < length (pre ++ ws ++ args ++ rest))%nat).
    { rewrite Hi, !length_app. lia. }
    assert (Hr' := Scan.reaches_step _ _ _ _ Hr Hlt Hstep).
    rewrite (app_assoc pre ws) in Hr' |- *.
    assert (Hi' : scan_i {| scan_i := scan_i st + length ws;
                            scan_tokens := scan_tokens st ++ [t];
                            scan_actions := scan_actions st |} = length (pre ++ ws)).
    { cbn. rewrite Hi, length_app. lia. }
    specialize (IH (pre ++ ws) rest _ Hr' Hi').
    cbn [scan_tokens scan_actions] in IH.
    match type of IH with Scan.reaches _ _ ?s' =>
      match goal with |- Scan.reaches _ _ ?s => replace s with s'; [exact IH|] end
    end.
    f_equal; [rewrite !length_app; lia|now rewrite <- app_assoc].
Qed.

(** The arguments that write a token sequence, in any spelling, parse
    to the tree built from these tokens. *)
Lemma parse_spelled (args : list string) (toks : list Token) :
  writes args toks ->
  parseExpressions args 0
  = Some {| expr := buildTree toks; pathIndex := length args;
            error := None; actions := [] |}.
Proof.
  intros Hw.
  pose proof (reaches_written args toks Hw [] [] (Scan.initial 0)) as Hr.
  rewrite app_nil_r in Hr.
  cbn [app length Nat.add Scan.initial scan_tokens scan_actions scan_i] in Hr.
  specialize (Hr (Scan.reaches_start _ _) eq_refl).
  rewrite (parse_finishes_at _ _ Hr) by (cbn; lia).
  unfold finish. cbn [scan_tokens scan_actions scan_i].
  now destruct toks.
Qed.

Lemma parse_spelled_after_path (p : string) (args : list string) (toks : list Token) :
  pathArgument p ->
  writes args toks ->
  parseExpressions (p :: args) 0
  = Some {| expr := buildTree toks; pathIndex := S (length args);
            error := None; actions := [] |}.
Proof.
  intros Hp Hw.
  pose proof (reaches_written args toks Hw [p] []
                {| scan_i := 1; scan_tokens := []; scan_actions := [] |}) as Hr.
  rewrite app_nil_r in Hr.
  cbn [app length Nat.add scan_tokens scan_actions scan_i] in Hr.
  assert (H1 : Scan.reaches (p :: args) 0
                 {| scan_i := 1; scan_tokens := []; scan_actions := [] |}).
  { eapply Scan.reaches_step; [apply Scan.reaches_start|cbn; lia|].
    now rewrite (scanStep_path _ _ p Hp). }
  specialize (Hr H1 eq_refl).
  rewrite (parse_finishes_at _ _ Hr) by (cbn; lia).
  unfold finish. cbn [scan_tokens scan_actions scan_i].
  now destruct toks.
Qed.

(** C1, as amended.  On the argument lists that write an expression,
    after a path argument or without one (in any spelling of the negation
    and of the connectives, with any predicate whose value is well
    formed, every negation marker standing right before a predicate), the
    expression builder gives negation precedence over conjunction,
    implicit or explicit, and conjunction precedence over disjunction:
    the tokens of any disjunction of conjunction groups of possibly
    negated predicates build the left-nested OR of the left-nested ANDs
    of the literals, and so does every argument list that writes these
    tokens.  In particular the
    arguments [-name a -o -name b -a -name c] build (name=a) OR ((name=b)
    AND (name=c)), which is true on a node whose name matches b and c but
    not a, and false on a node whose name matches b only. *)
Theorem precedence_not_and_or :
  (forall d : Disjunction, buildTree (disjTokens d) = Some (disjExpr d))
  /\ (forall (d : Disjunction) (args : list string),
        writes args (disjTokens d) ->
        parseExpressions args 0
        = Some {| expr := Some (disjExpr d); pathIndex := length args;
                  error := None; actions := [] |})
  /\ (forall (d : Disjunction) (p : string) (args : list string),
        pathArgument p ->
        writes args (disjTokens d) ->
        parseExpressions (p :: args) 0
        = Some {| expr := Some (disjExpr d); pathIndex := S (length args);
                  error := None; actions := [] |})
  /\ (forall a b c : string,
        parseExpressions ["-name"; a; "-o"; "-name"; b; "-a"; "-name"; c] 0
        = Some {| expr := Some (EOr (EName a None) (EAnd (EName b None) (EName c None)));
                  pathIndex := 8; error := None; actions := [] |})
  /\ (forall (now : Z) (a b c : string) (ctx : EvalContext),
        matchGlob (name ctx) a None = Normal false ->
        matchGlob (name ctx) b None = Normal true ->
        (matchGlob (name ctx) c None = Normal true ->
         evaluateExpression now
           (EOr (EName a None) (EAnd (EName b None) (EName c None))) ctx = Normal true)
        /\ (matchGlob (name ctx) c None = Normal false ->
            evaluateExpression now
              (EOr (EName a None) (EAnd (EName b None) (EName c None))) ctx = Normal false)).
Proof.
  split; [exact buildTree_disjunction|].
  split.
  { intros d args Hw. rewrite (parse_spelled _ _ Hw). now rewrite buildTree_disjunction. }
  split.
  { intros d p args Hp Hw. rewrite (parse_spelled_after_path _ _ _ Hp Hw).
    now rewrite buildTree_disjunction. }
  split; [exact parse_a_or_b_and_c|].
  intros now a b c ctx Ha Hb. cbn [evaluateExpression]. rewrite Ha, Hb.
  split; intros Hc; now rewrite Hc.
Qed.

(** Outside these argument lists the markers do not nest: of two
    negation markers in a row the first is dropped, so that [! ! -name x]
    is read as the negation of [-name x], false on a node named [x] where
    the negation of the negation is true; and a marker before a predicate
    that is dropped for its malformed number negates the predicate after
    it. *)
Lemma negation_markers_do_not_nest :
  parseExpressions ["!"; "!"; "-name"; "x"] 0
  = Some {| expr := Some (ENot (EName "x" None)); pathIndex := 4;
            error := None; actions := [] |}
  /\ evaluateExpression 0 (ENot (EName "x" None)) (Scenario.nodeNamed "x") = Normal false
  /\ evaluateExpression 0 (ENot (ENot (EName "x" None))) (Scenario.nodeNamed "x")
     = Normal true
  /\ parseExpressions ["!"; "-mtime"; "zz"; "-name"; "x"] 0
     = Some {| expr := Some (ENot (EName "x" None)); pathIndex := 5;
               error := None; actions := [] |}.
Proof. repeat split. Qed.

End Spellings.

Lemma precedence_not_and_or_witness :
  Find.evaluateExpression 0
    (Find.EOr (Find.EName "a" None)
       (Find.EAnd (Find.EName "b" None) (Find.EName "?" None)))
    (Scenario.nodeNamed "b") = Normal true
  /\ Find.evaluateExpression 0
       (Find.EOr (Find.EName "a" None)
          (Find.EAnd (Find.EName "b" None) (Find.EName "c" None)))
       (Scenario.nodeNamed "b") = Normal false
  /\ Find.parseExpressions
       ["-not"; "-name"; "a"; "-and"; "-mtime"; "+7"; "-or"; "-size"; "2k"] 0
     = Some {| Find.expr :=
                 Some (Find.EOr
                         (Find.EAnd (Find.ENot (Find.EName "a" None))
                            (Find.EMtime 7 Find.More))
                         (Find.ESize 2 Find.UnitK Find.Exact));
               Find.pathIndex := 9; Find.error := None; Find.actions := [] |}.
Proof.
  destruct precedence_not_and_or as (_ & Hargs & _ & _ & H). split; [|split].
  - apply (H 0 "a" "b" "?" (Scenario.nodeNamed "b")); reflexivity.
  - apply (H 0 "a" "b" "c" (Scenario.nodeNamed "b")); reflexivity.
  - apply (Hargs Spelling.sample).
    assert (H7 : Spelling.digitsOk [7%nat])
      by (split; [discriminate|split; [repeat constructor; lia|reflexivity]]).
    assert (H2 : Spelling.digitsOk [2%nat])
      by (split; [discriminate|split; [repeat constructor; lia|reflexivity]]).
    apply (Spelling.writes_cons ["-not"] _ _ _ Spelling.spells_not).
    apply (Spelling.writes_cons ["-name"; "a"] _ _ _ (Spelling.spells_name "a")).
    apply (Spelling.writes_cons ["-and"] _ _ _ Spelling.spells_and).
    apply (Spelling.writes_cons ["-mtime"; "+7"] _ _ _
             (Spelling.spells_mtime Find.More [7%nat] H7)).
    apply (Spelling.writes_cons ["-or"] _ _ _ Spelling.spells_or).
    apply (Spelling.writes_cons ["-size"; "2k"] [] _ _
             (Spelling.spells_size Find.Exact [2%nat] (Some Find.UnitK) H2)).
    apply Spelling.writes_nil.
Defined.
